(** * Travel advisors data extractor: cache, rotation, fetch client, orchestrator

    A shallow embedding of the fetch orchestration core of the scraper:
    - [libs/file-cache.js]      the file cache with per-entry expiry,
    - [libs/memory-cache.js]    the cache in memory,
    - [libs/websearch-proxy.js] the round-robin proxy pool,
    - [libs/proxy-fetch.js]     the cache-first fetch client,
    - [libs/custom-headers.js]  the rotated header sets,
    - [scrape-full-advisors.js] the retry wrappers and the two-phase workflow.

    JavaScript values are modelled by the inductive type [value].  Numbers
    are the integers (printed and read in decimal); a string is a sequence
    of code units below 256.  A property list keeps insertion order, which
    is the order of enumeration when no property name is an array index
    ([Js.plain_keys]).  Files hold text, so the development contains
    [JSON.stringify] and [JSON.parse] on text, and the JSON grammar in full
    ([JSON.accepts]) to tell a text that is not JSON from one that denotes
    a value outside these.  The keys of the file cache are also taken in
    full, as sequences of UTF-16 code units ([Utf16]).  The items of a
    batch are run one after the other ([Orchestrator.settle_all]); what is
    stated of a batch does not depend on the order in which its items
    finish. *)

From Stdlib Require Import ZArith Ascii String List Lia.
From Stdlib Require Import Decimal DecimalFacts DecimalPos DecimalN.
From stdpp Require Import gmap strings list.

Set Warnings "-register-all".
Local Open Scope Z_scope.

(** ** JavaScript values *)

Inductive value : Type :=
  | Undefined
  | Null
  | Bool (b : bool)
  | Num (n : Z)
  | Str (s : string)
  | Arr (l : list value)
  | Obj (l : list (string * value)).

(** Errors a promise can reject with, or a statement can throw. *)
Inductive error : Type :=
  | SyntaxError
  | TypeError
  | NetworkError
  | HttpStatus (code : Z)
  | TimeoutError
  | CredentialError
  | NoEntry
  | URIError.

(** The completion of a synchronous computation. *)
Inductive completion (A : Type) : Type :=
  | Normal (a : A)
  | Throw (e : error).
Arguments Normal {A} a.
Arguments Throw {A} e.

(** The state of a promise once the event loop has run dry: [Pending]
    is a promise that nothing will ever settle. *)
Inductive outcome (A : Type) : Type :=
  | Resolved (a : A)
  | Rejected (e : error)
  | Pending.
Arguments Resolved {A} a.
Arguments Rejected {A} e.
Arguments Pending {A}.

(** ** Decimal numerals *)

Module Numeral.

Definition digit_of (c : ascii) : option (uint -> uint) :=
  match c with
  | "0" => Some D0 | "1" => Some D1 | "2" => Some D2 | "3" => Some D3
  | "4" => Some D4 | "5" => Some D5 | "6" => Some D6 | "7" => Some D7
  | "8" => Some D8 | "9" => Some D9
  | _ => None
  end%char.

Definition is_digit (c : ascii) : bool :=
  match digit_of c with Some _ => true | None => false end.

Fixpoint uint_chars (u : uint) : list ascii :=
  match u with
  | Nil => []
  | D0 u => "0"%char :: uint_chars u
  | D1 u => "1"%char :: uint_chars u
  | D2 u => "2"%char :: uint_chars u
  | D3 u => "3"%char :: uint_chars u
  | D4 u => "4"%char :: uint_chars u
  | D5 u => "5"%char :: uint_chars u
  | D6 u => "6"%char :: uint_chars u
  | D7 u => "7"%char :: uint_chars u
  | D8 u => "8"%char :: uint_chars u
  | D9 u => "9"%char :: uint_chars u
  end.

(** The longest prefix of digits, and what follows it. *)
Fixpoint read_digits (s : list ascii) : uint * list ascii :=
  match s with
  | [] => (Nil, [])
  | c :: r =>
      match digit_of c with
      | Some d => let '(u, r') := read_digits r in (d u, r')
      | None => (Nil, s)
      end
  end.

(** Number to text, as a template literal or [JSON.stringify] prints an
    integer. *)
Definition chars_of_Z (n : Z) : list ascii :=
  if n <? 0 then "-"%char :: uint_chars (N.to_uint (Z.abs_N n))
  else uint_chars (N.to_uint (Z.to_N n)).

Definition string_of_Z (n : Z) : string :=
  string_of_list_ascii (chars_of_Z n).

End Numeral.

(** ** Property access, truthiness and spread *)

Module Js.

(** [if (v)]: the falsy values are undefined, null, false, 0 and the
    empty string. *)
Definition truthy (v : value) : bool :=
  match v with
  | Undefined | Null => false
  | Bool b => b
  | Num n => negb (n =? 0)
  | Str s => negb (String.eqb s EmptyString)
  | Arr _ | Obj _ => true
  end.

(** [v === s] for a string literal [s] *)
Definition strict_eq_string (v : value) (s : string) : bool :=
  match v with
  | Str t => String.eqb t s
  | _ => false
  end.

(** A parameter with a default value: [(x = d)] takes [d] when the
    argument is undefined. *)
Definition or_default (x d : value) : value :=
  match x with
  | Undefined => d
  | _ => x
  end.

(** [typeof v === "string"] *)
Definition is_string (v : value) : bool :=
  match v with Str _ => true | _ => false end.

Fixpoint assoc (k : string) (l : list (string * value)) : option value :=
  match l with
  | [] => None
  | (k', x) :: l' => if String.eqb k k' then Some x else assoc k l'
  end.

(** [o[k] = x] on a property list: an existing key keeps its place. *)
Fixpoint obj_set (k : string) (x : value) (l : list (string * value))
  : list (string * value) :=
  match l with
  | [] => [(k, x)]
  | (k', y) :: l' =>
      if String.eqb k k' then (k', x) :: l' else (k', y) :: obj_set k x l'
  end.

(** [v.k] for a property name [k] that no prototype defines (the
    program reads data, agent, agentId, totalAgents, Cookie, type, value
    and expiresAt): reading from undefined or null throws. *)
Definition prop (k : string) (v : value) : completion value :=
  match v with
  | Undefined | Null => Throw TypeError
  | Obj l => Normal (default Undefined (assoc k l))
  | _ => Normal Undefined
  end.

(** [l.slice(s, e)]: a negative index counts from the end. *)
Definition slice {A : Type} (l : list A) (s e : Z) : list A :=
  let len := Z.of_nat (length l) in
  let k := if s <? 0 then Z.max (len + s) 0 else Z.min s len in
  let final := if e <? 0 then Z.max (len + e) 0 else Z.min e len in
  take (Z.to_nat (final - k)) (drop (Z.to_nat k) l).

(** [{ ...o, ...v }]: the own enumerable properties of [v] copied onto the
    property list [o].  undefined, null, numbers and booleans have none;
    an array or a string contributes its indices. *)
Definition index_key (i : nat) : string :=
  Numeral.string_of_Z (Z.of_nat i).

Definition spread (o : list (string * value)) (v : value)
  : list (string * value) :=
  match v with
  | Obj l => fold_left (fun acc kv => obj_set kv.1 kv.2 acc) l o
  | Arr l =>
      fold_left (fun acc kv => obj_set kv.1 kv.2 acc)
                (imap (fun i x => (index_key i, x)) l) o
  | Str s =>
      fold_left (fun acc kv => obj_set kv.1 kv.2 acc)
                (imap (fun i c => (index_key i, Str (String c EmptyString)))
                      (list_ascii_of_string s)) o
  | _ => o
  end.



End Js.

(** ** JSON text *)

Module JSON.

Definition is_ws (c : ascii) : bool :=
  match c with
  | " " | "009" | "010" | "013" => true
  | _ => false
  end%char.

Fixpoint skip_ws (s : list ascii) : list ascii :=
  match s with
  | [] => []
  | c :: r => if is_ws c then skip_ws r else s
  end.

(** *** Printing *)

Definition hex_char (n : N) : ascii :=
  match n with
  | 0 => "0" | 1 => "1" | 2 => "2" | 3 => "3" | 4 => "4" | 5 => "5"
  | 6 => "6" | 7 => "7" | 8 => "8" | 9 => "9" | 10 => "a" | 11 => "b"
  | 12 => "c" | 13 => "d" | 14 => "e" | _ => "f"
  end%N%char.

(** QuoteJSONString, one code unit. *)
Definition escape_char (c : ascii) : list ascii :=
  match c with
  | "034" => ["\"; "034"]
  | "\" => ["\"; "\"]
  | "008" => ["\"; "b"]
  | "009" => ["\"; "t"]
  | "010" => ["\"; "n"]
  | "012" => ["\"; "f"]
  | "013" => ["\"; "r"]
  | _ =>
      if (N_of_ascii c <? 32)%N
      then ["\"; "u"; "0"; "0"; hex_char (N_of_ascii c / 16);
            hex_char (N_of_ascii c mod 16)]
      else [c]
  end%char.

Fixpoint escape (s : string) : list ascii :=
  match s with
  | EmptyString => []
  | String c r => escape_char c ++ escape r
  end.

Definition quote (s : string) : list ascii :=
  "034"%char :: escape s ++ ["034"%char].

Fixpoint join_comma (l : list (list ascii)) : list ascii :=
  match l with
  | [] => []
  | [x] => x
  | x :: l' => x ++ ","%char :: join_comma l'
  end.

Definition lit (s : string) : list ascii := list_ascii_of_string s.

(** One property of an object, given the text of its value: an undefined
    property is left out. *)
Definition member_text (k : string) (x : value) (text : list ascii)
  : list (list ascii) :=
  match x with
  | Undefined => []
  | _ => [quote k ++ ":"%char :: text]
  end.

(** SerializeJSONProperty on a value that is not undefined at the top:
    an undefined array element prints as null. *)
Fixpoint stringify_chars (v : value) : list ascii :=
  match v with
  | Undefined | Null => lit "null"
  | Bool true => lit "true"
  | Bool false => lit "false"
  | Num n => Numeral.chars_of_Z n
  | Str s => quote s
  | Arr l => "["%char :: join_comma (map stringify_chars l) ++ ["]"%char]
  | Obj l =>
      "{"%char :: join_comma
        (concat (map (fun kv => member_text kv.1 kv.2 (stringify_chars kv.2)) l))
      ++ ["}"%char]
  end.

(** Values whose text reads back as the same value: no undefined inside,
    no key twice in an object. *)
Fixpoint serializable (v : value) : bool :=
  match v with
  | Undefined => false
  | Arr l => forallb serializable l
  | Obj l =>
      bool_decide (NoDup (map fst l))
      && forallb (fun kv => serializable kv.2) l
  | _ => true
  end.

(** [JSON.stringify(v)]; [None] is the result undefined. *)
Definition stringify (v : value) : option string :=
  match v with
  | Undefined => None
  | _ => Some (string_of_list_ascii (stringify_chars v))
  end.

(** *** Reading *)

Definition hex_val (c : ascii) : option N :=
  let n := N_of_ascii c in
  if ((48 <=? n) && (n <=? 57))%N then Some (n - 48)%N
  else if ((97 <=? n) && (n <=? 102))%N then Some (n - 87)%N
  else if ((65 <=? n) && (n <=? 70))%N then Some (n - 55)%N
  else None.

(** [\uXXXX]; a code unit above 255 has no counterpart in this
    development's strings and is refused. *)
Definition hex4 (a b c d : ascii) : option ascii :=
  match hex_val a, hex_val b, hex_val c, hex_val d with
  | Some 0%N, Some 0%N, Some h, Some l => Some (ascii_of_N (16 * h + l))
  | _, _, _, _ => None
  end.

Definition unescape (c : ascii) : option ascii :=
  match c with
  | "034" => Some "034" | "\" => Some "\" | "/" => Some "/"
  | "b" => Some "008" | "f" => Some "012" | "n" => Some "010"
  | "r" => Some "013" | "t" => Some "009"
  | _ => None
  end%char.

(** The characters of a string literal after its opening quote. *)
Fixpoint read_string (s : list ascii) : option (string * list ascii) :=
  match s with
  | [] => None
  | c :: r =>
      if Ascii.eqb c "034" then Some (EmptyString, r)
      else if Ascii.eqb c "\" then
        match r with
        | [] => None
        | e :: r1 =>
            if Ascii.eqb e "u" then
              match r1 with
              | h1 :: h2 :: h3 :: h4 :: r2 =>
                  match hex4 h1 h2 h3 h4 with
                  | Some x =>
                      match read_string r2 with
                      | Some (t, rest) => Some (String x t, rest)
                      | None => None
                      end
                  | None => None
                  end
              | _ => None
              end
            else
              match unescape e with
              | Some x =>
                  match read_string r1 with
                  | Some (t, rest) => Some (String x t, rest)
                  | None => None
                  end
              | None => None
              end
        end
      else if (N_of_ascii c <? 32)%N then None
      else
        match read_string r with
        | Some (t, rest) => Some (String c t, rest)
        | None => None
        end
  end.

Definition leading_zero (u : uint) : bool :=
  match u with
  | D0 Nil => false
  | D0 _ => true
  | _ => false
  end.

Definition starts_fraction (rest : list ascii) : bool :=
  match rest with
  | ("." | "e" | "E")%char :: _ => true
  | _ => false
  end.

Definition starts_minus (s : list ascii) : bool :=
  match s with
  | "-"%char :: _ => true
  | _ => false
  end.

(** An integer literal: optional minus, no leading zero.  A fraction or
    an exponent would denote a number outside the integers and is
    refused. *)
Definition read_number (s : list ascii) : option (value * list ascii) :=
  let neg := starts_minus s in
  let '(u, rest) := Numeral.read_digits (if neg then tail s else s) in
  match u with
  | Nil => None
  | _ =>
      if leading_zero u || starts_fraction rest then None
      else
        let n := Z.of_N (N.of_uint u) in
        Some (Num (if neg then - n else n), rest)
  end.

(** The text after the literal [p], when the text starts with it. *)
Fixpoint strip_chars (p s : list ascii) : option (list ascii) :=
  match p with
  | [] => Some s
  | c :: p' =>
      match s with
      | c' :: s' => if Ascii.eqb c c' then strip_chars p' s' else None
      | [] => None
      end
  end.

Definition strip (p : string) (s : list ascii) : option (list ascii) :=
  strip_chars (lit p) s.

(** The text after the closing bracket [d], when that is the next token. *)
Definition closes (d : ascii) (s : list ascii) : option (list ascii) :=
  match skip_ws s with
  | c :: r => if Ascii.eqb c d then Some r else None
  | [] => None
  end.

(** A JSON object keeps the last value of a repeated key. *)
Definition build_object (l : list (string * value)) : list (string * value) :=
  fold_left (fun acc kv => Js.obj_set kv.1 kv.2 acc) l [].

Fixpoint read_value (fuel : nat) (s : list ascii) {struct fuel}
  : option (value * list ascii) :=
  match fuel with
  | O => None
  | S f =>
      match skip_ws s with
      | [] => None
      | c :: r =>
          if Ascii.eqb c "n" then
            match strip "ull" r with Some r' => Some (Null, r') | None => None end
          else if Ascii.eqb c "t" then
            match strip "rue" r with Some r' => Some (Bool true, r') | None => None end
          else if Ascii.eqb c "f" then
            match strip "alse" r with Some r' => Some (Bool false, r') | None => None end
          else if Ascii.eqb c "034" then
            match read_string r with
            | Some (t, r') => Some (Str t, r')
            | None => None
            end
          else if Ascii.eqb c "[" then
            match closes "]" r with
            | Some r' => Some (Arr [], r')
            | None =>
                match read_elements f r with
                | Some (l, r') => Some (Arr l, r')
                | None => None
                end
            end
          else if Ascii.eqb c "{" then
            match closes "}" r with
            | Some r' => Some (Obj [], r')
            | None =>
                match read_members f r with
                | Some (l, r') => Some (Obj (build_object l), r')
                | None => None
                end
            end
          else read_number (c :: r)
      end
  end
with read_elements (fuel : nat) (s : list ascii) {struct fuel}
  : option (list value * list ascii) :=
  match fuel with
  | O => None
  | S f =>
      match read_value f s with
      | Some (v, r) =>
          match skip_ws r with
          | ","%char :: r' =>
              match read_elements f r' with
              | Some (l, r'') => Some (v :: l, r'')
              | None => None
              end
          | "]"%char :: r' => Some ([v], r')
          | _ => None
          end
      | None => None
      end
  end
with read_members (fuel : nat) (s : list ascii) {struct fuel}
  : option (list (string * value) * list ascii) :=
  match fuel with
  | O => None
  | S f =>
      match skip_ws s with
      | "034"%char :: r =>
          match read_string r with
          | Some (k, r1) =>
              match skip_ws r1 with
              | ":"%char :: r2 =>
                  match read_value f r2 with
                  | Some (v, r3) =>
                      match skip_ws r3 with
                      | ","%char :: r4 =>
                          match read_members f r4 with
                          | Some (l, r5) => Some ((k, v) :: l, r5)
                          | None => None
                          end
                      | "}"%char :: r4 => Some ([(k, v)], r4)
                      | _ => None
                      end
                  | None => None
                  end
              | _ => None
              end
          | None => None
          end
      | _ => None
      end
  end.

Definition parse_chars (s : list ascii) : option value :=
  match read_value (S (length s)) s with
  | Some (v, r) => match skip_ws r with [] => Some v | _ => None end
  | None => None
  end.

(** [JSON.parse(text)]; [None] is a thrown SyntaxError, or a text that
    denotes a value outside this development: a number with a fraction or
    an exponent, a string with a code unit above 255.  [accepts] below
    tells the two apart. *)
Definition parse (text : string) : option value :=
  parse_chars (list_ascii_of_string text).

(** *** The grammar in full

    The texts on which [JSON.parse] does not throw: the functions below
    follow the text of a value as the readers above do, without building
    the value, and take every number and every [\u] escape that the JSON
    grammar has. *)

Definition is_hex (c : ascii) : bool :=
  match hex_val c with Some _ => true | None => false end.

(** The text after the closing quote of a string literal. *)
Fixpoint scan_string (s : list ascii) : option (list ascii) :=
  match s with
  | [] => None
  | c :: r =>
      if Ascii.eqb c "034" then Some r
      else if Ascii.eqb c "\" then
        match r with
        | [] => None
        | e :: r1 =>
            if Ascii.eqb e "u" then
              match r1 with
              | h1 :: h2 :: h3 :: h4 :: r2 =>
                  if is_hex h1 && is_hex h2 && is_hex h3 && is_hex h4
                  then scan_string r2
                  else None
              | _ => None
              end
            else
              match unescape e with
              | Some _ => scan_string r1
              | None => None
              end
        end
      else if (N_of_ascii c <? 32)%N then None
      else scan_string r
  end.

(** One digit or more. *)
Definition scan_digits (s : list ascii) : option (list ascii) :=
  match Numeral.read_digits s with
  | (Nil, _) => None
  | (_, rest) => Some rest
  end.

(** An optional fraction: a point and digits. *)
Definition scan_fraction (s : list ascii) : option (list ascii) :=
  match s with
  | "."%char :: r => scan_digits r
  | _ => Some s
  end.

(** An optional exponent: e or E, an optional sign, digits. *)
Definition scan_exponent (s : list ascii) : option (list ascii) :=
  match s with
  | ("e" | "E")%char :: r =>
      match r with
      | ("+" | "-")%char :: r' => scan_digits r'
      | _ => scan_digits r
      end
  | _ => Some s
  end.

(** A number: optional minus, an integer part without a leading zero, an
    optional fraction, an optional exponent. *)
Definition scan_number (s : list ascii) : option (list ascii) :=
  let '(u, rest) := Numeral.read_digits (if starts_minus s then tail s else s) in
  match u with
  | Nil => None
  | _ =>
      if leading_zero u then None
      else
        match scan_fraction rest with
        | Some rest' => scan_exponent rest'
        | None => None
        end
  end.

Fixpoint scan_value (fuel : nat) (s : list ascii) {struct fuel}
  : option (list ascii) :=
  match fuel with
  | O => None
  | S f =>
      match skip_ws s with
      | [] => None
      | c :: r =>
          if Ascii.eqb c "n" then strip "ull" r
          else if Ascii.eqb c "t" then strip "rue" r
          else if Ascii.eqb c "f" then strip "alse" r
          else if Ascii.eqb c "034" then scan_string r
          else if Ascii.eqb c "[" then
            match closes "]" r with
            | Some r' => Some r'
            | None => scan_elements f r
            end
          else if Ascii.eqb c "{" then
            match closes "}" r with
            | Some r' => Some r'
            | None => scan_members f r
            end
          else scan_number (c :: r)
      end
  end
with scan_elements (fuel : nat) (s : list ascii) {struct fuel}
  : option (list ascii) :=
  match fuel with
  | O => None
  | S f =>
      match scan_value f s with
      | Some r =>
          match skip_ws r with
          | ","%char :: r' => scan_elements f r'
          | "]"%char :: r' => Some r'
          | _ => None
          end
      | None => None
      end
  end
with scan_members (fuel : nat) (s : list ascii) {struct fuel}
  : option (list ascii) :=
  match fuel with
  | O => None
  | S f =>
      match skip_ws s with
      | "034"%char :: r =>
          match scan_string r with
          | Some r1 =>
              match skip_ws r1 with
              | ":"%char :: r2 =>
                  match scan_value f r2 with
                  | Some r3 =>
                      match skip_ws r3 with
                      | ","%char :: r4 => scan_members f r4
                      | "}"%char :: r4 => Some r4
                      | _ => None
                      end
                  | None => None
                  end
              | _ => None
              end
          | None => None
          end
      | _ => None
      end
  end.

Definition accepts_chars (s : list ascii) : bool :=
  match scan_value (S (length s)) s with
  | Some r => match skip_ws r with [] => true | _ => false end
  | None => false
  end.

(** [accepts text]: [text] is a JSON text, on which [JSON.parse] does not
    throw.  A text that is not accepted is not read by [parse] either
    (lemma [JSONFacts.parse_accepts]). *)
Definition accepts (text : string) : bool :=
  accepts_chars (list_ascii_of_string text).

End JSON.

(** ** Coercions *)

Module Coerce.

(** ToString.  An array joins its elements with commas, printing null and
    undefined elements as nothing. *)
Fixpoint to_string (v : value) : string :=
  match v with
  | Undefined => "undefined"
  | Null => "null"
  | Bool true => "true"
  | Bool false => "false"
  | Num n => Numeral.string_of_Z n
  | Str s => s
  | Arr l =>
      String.concat ","
        (map (fun x => match x with
                       | Undefined | Null => EmptyString
                       | _ => to_string x
                       end) l)
  | Obj _ => "[object Object]"
  end.

(** White space that [parseInt] skips, among the code units below 256. *)
Definition is_space (c : ascii) : bool :=
  match c with
  | " " | "009" | "010" | "011" | "012" | "013" | "160" => true
  | _ => false
  end%char.

Fixpoint trim_start (s : list ascii) : list ascii :=
  match s with
  | [] => []
  | c :: r => if is_space c then trim_start r else s
  end.

(** The longest prefix of hexadecimal digits, most significant first. *)
Fixpoint read_hex (s : list ascii) : list N :=
  match s with
  | [] => []
  | c :: r =>
      match JSON.hex_val c with
      | Some d => d :: read_hex r
      | None => []
      end
  end.

(** [parseInt(v)] with no radix; [None] is NaN.  The result is the integer
    that the digits denote: that is the number the program gets as long as
    it is a safe integer, below 2^53 in size; a longer numeral is rounded by
    the program to a double, and a number from 10^21 on prints with an
    exponent, neither of which is modelled. *)
Definition parseInt (v : value) : option Z :=
  let s := trim_start (list_ascii_of_string (to_string v)) in
  let '(neg, s) :=
    match s with
    | "-"%char :: r => (true, r)
    | "+"%char :: r => (false, r)
    | _ => (false, s)
    end in
  let magnitude :=
    match s with
    | "0"%char :: ("x" | "X")%char :: r =>
        match read_hex r with
        | [] => None
        | ds => Some (Z.of_N (fold_left (fun a d => 16 * a + d)%N ds 0%N))
        end
    | _ =>
        match Numeral.read_digits s with
        | (Nil, _) => None
        | (u, _) => Some (Z.of_N (N.of_uint u))
        end
    end in
  match magnitude with
  | Some n => Some (if neg : bool then - n else n)
  | None => None
  end.

(** [parseInt(process.env.X) || dflt]: NaN and 0 give the default. *)
Definition env_int (x : value) (dflt : Z) : Z :=
  match parseInt x with
  | Some n => if n =? 0 then dflt else n
  | None => dflt
  end.

(** [Math.ceil(a / b)] on integers, for a nonzero [b]. *)
Definition ceil_div (a b : Z) : Z := - ((- a) / b).

End Coerce.

(** ** Library functions taken as parameters

    [sha256_hex text] stands for
    [crypto.createHash("sha256").update(text).digest("hex")], and
    [now_gt_string now s] for the comparison [now > s] of a number with a
    string, which converts the string to a number first. *)

Class Runtime : Type := {
  sha256_hex : string -> string;
  now_gt_string : Z -> string -> bool;
}.

(** ** libs/file-cache.js *)

(** The files of the cache directory: path to text. *)
Abbreviation FS := (gmap string string).

Module Path.

(** [path.join(dir, name)], without the normalisation of the result. *)
Definition join (dir name : string) : string := dir +:+ "/" +:+ name.

(** What follows [prefix] in [path], when [path] starts with it. *)
Fixpoint after (prefix path : string) : option string :=
  match prefix with
  | EmptyString => Some path
  | String c prefix' =>
      match path with
      | String c' path' => if Ascii.eqb c c' then after prefix' path' else None
      | EmptyString => None
      end
  end.

(** The part of [name] before its first separator. *)
Fixpoint first_component (name : string) : string :=
  match name with
  | EmptyString => EmptyString
  | String c rest =>
      if Ascii.eqb c "/" then EmptyString else String c (first_component rest)
  end.

(** The name under which [path] shows in a listing of [dir]: its own
    name when the file is in [dir], the name of a subdirectory of [dir]
    when it is further down. *)
Definition child (dir path : string) : option string :=
  first_component <$> after (dir +:+ "/") path.

End Path.

Module Fs.

Definition existsSync (fs : FS) (path : string) : bool :=
  bool_decide (is_Some (fs !! path)).

Definition readFileSync (fs : FS) (path : string) : completion string :=
  match fs !! path with
  | Some text => Normal text
  | None => Throw NoEntry
  end.

Definition writeFileSync (fs : FS) (path text : string) : FS :=
  <[path := text]> fs.

Definition unlinkSync (fs : FS) (path : string) : completion unit * FS :=
  match fs !! path with
  | Some _ => (Normal tt, delete path fs)
  | None => (Throw NoEntry, fs)
  end.

(** [fs.readdirSync(dir)]: the names found in [dir], each once, in no
    order that a caller may rely on.  Only files are in the store, so a
    subdirectory is listed for the files below it, and to unlink or read it
    fails as for a path that is no file. *)
Definition readdirSync (fs : FS) (dir : string) : list string :=
  remove_dups (omap (Path.child dir) (map_to_list fs).*1).

End Fs.

Module FileCache.

Definition cacheDir : string := "./.cache".

Definition unreserved (c : ascii) : bool :=
  let n := N_of_ascii c in
  ((48 <=? n) && (n <=? 57) || (65 <=? n) && (n <=? 90)
   || (97 <=? n) && (n <=? 122))%N
  || match c with
     | ("-" | "_" | "." | "!" | "~" | "*" | "'" | "(" | ")")%char => true
     | _ => false
     end.

Definition HEX_char (n : N) : ascii :=
  match n with
  | 10 => "A" | 11 => "B" | 12 => "C" | 13 => "D" | 14 => "E" | 15 => "F"
  | _ => JSON.hex_char n
  end%N%char.

Definition percent (byte : N) : list ascii :=
  ["%"%char; HEX_char (byte / 16); HEX_char (byte mod 16)].

(** One code unit of [encodeURIComponent]: a unit from 128 on is encoded
    as its two UTF-8 bytes. *)
Definition encode_unit (c : ascii) : list ascii :=
  let n := N_of_ascii c in
  if unreserved c then [c]
  else if (n <? 128)%N then percent n
  else percent (192 + n / 64) ++ percent (128 + n mod 64).

Definition encodeURIComponent (s : string) : string :=
  string_of_list_ascii (flat_map encode_unit (list_ascii_of_string s)).

(** [path.join(this.cacheDir, name)]; the two spellings of one path that
    [path.join] would identify are not identified here, every access to
    the store goes through this function. *)
Definition _getFilePath (key : string) : string :=
  let safeKey := encodeURIComponent key in
  cacheDir +:+ "/" +:+ safeKey +:+ ".cache".

(** The object that [set] writes for [v]. *)
Definition entry (expiresAt : Z) (v : value) : value :=
  let isString := Js.is_string v in
  Obj [("type", Str (if isString then "string" else "json"));
       ("value",
         if isString then v
         else match JSON.stringify v with
              | Some text => Str text
              | None => Undefined
              end);
       ("expiresAt", Num expiresAt)].

Definition set (fs : FS) (now : Z) (key : string) (v : value) (ttlSeconds : Z)
  : FS :=
  if ttlSeconds <=? 0 then fs
  else
    let expiresAt := now + ttlSeconds * 1000 in
    let data := entry expiresAt v in
    let filePath := _getFilePath key in
    match JSON.stringify data with
    | Some text => Fs.writeFileSync fs filePath text
    | None => fs
    end.

(** [x !== 0] *)
Definition strict_neq_0 (x : value) : bool :=
  match x with
  | Num 0 => false
  | _ => true
  end.

(** [Date.now() > x]: x is converted to a number; undefined converts to
    NaN, which compares false. *)
Definition now_gt `{Runtime} (now : Z) (x : value) : bool :=
  match x with
  | Num n => n <? now
  | Undefined => false
  | Null => 0 <? now
  | Bool b => (if b then 1 else 0) <? now
  | Str _ | Arr _ | Obj _ => now_gt_string now (Coerce.to_string x)
  end.

(** [JSON.parse(x)] on any value: the argument is converted to a string. *)
Definition parse_value (x : value) : completion value :=
  match JSON.parse (Coerce.to_string x) with
  | Some v => Normal v
  | None => Throw SyntaxError
  end.

(** The body of the [try] block of [get]. *)
Definition get_try `{Runtime} (fs : FS) (now : Z) (filePath : string)
  : completion value * FS :=
  match Fs.readFileSync fs filePath with
  | Throw e => (Throw e, fs)
  | Normal content =>
      match JSON.parse content with
      | None => (Throw SyntaxError, fs)
      | Some entry =>
          match Js.prop "type" entry, Js.prop "value" entry,
                Js.prop "expiresAt" entry with
          | Normal type, Normal val, Normal expiresAt =>
              if strict_neq_0 expiresAt && now_gt now expiresAt then
                match Fs.unlinkSync fs filePath with
                | (Normal _, fs') => (Normal Undefined, fs')
                | (Throw e, fs') => (Throw e, fs')
                end
              else if Js.strict_eq_string type "string" then (Normal val, fs)
              else if Js.strict_eq_string type "json" then (parse_value val, fs)
              else (Normal Undefined, fs)
          | _, _, _ => (Throw TypeError, fs)
          end
      end
  end.

Definition get `{Runtime} (fs : FS) (now : Z) (key : string)
  : completion value * FS :=
  let filePath := _getFilePath key in
  if negb (Fs.existsSync fs filePath) then (Normal Undefined, fs)
  else
    match get_try fs now filePath with
    | (Normal v, fs') => (Normal v, fs')
    | (Throw _, fs') =>
        let '(_, fs'') := Fs.unlinkSync fs' filePath in
        (Normal Undefined, fs'')
    end.

Definition delete (fs : FS) (key : string) : bool * FS :=
  let filePath := _getFilePath key in
  if Fs.existsSync fs filePath then
    (true, (Fs.unlinkSync fs filePath).2)
  else (false, fs).

(** The loop of [clear] over the listing: an unlink that throws ends it. *)
Fixpoint unlink_each (fs : FS) (listing : list string) : completion unit * FS :=
  match listing with
  | [] => (Normal tt, fs)
  | file :: listing' =>
      match Fs.unlinkSync fs (Path.join cacheDir file) with
      | (Normal _, fs') => unlink_each fs' listing'
      | (Throw e, fs') => (Throw e, fs')
      end
  end.

Definition clear (fs : FS) : completion unit * FS :=
  unlink_each fs (Fs.readdirSync fs cacheDir).

(** [expiresAt && now > expiresAt] *)
Definition past `{Runtime} (now : Z) (expiresAt : value) : bool :=
  Js.truthy expiresAt && now_gt now expiresAt.

(** One round of the loop of [purgeExpired]: whatever is thrown inside the
    [try] block is dropped by the empty [catch]. *)
Definition purge_file `{Runtime} (now : Z) (fs : FS) (file : string) : FS :=
  let filePath := Path.join cacheDir file in
  match Fs.readFileSync fs filePath with
  | Throw _ => fs
  | Normal content =>
      match JSON.parse content with
      | None => fs
      | Some data =>
          match Js.prop "expiresAt" data with
          | Throw _ => fs
          | Normal expiresAt =>
              if past now expiresAt then (Fs.unlinkSync fs filePath).2 else fs
          end
      end
  end.

Definition purgeExpired `{Runtime} (fs : FS) (now : Z) : FS :=
  fold_left (purge_file now) (Fs.readdirSync fs cacheDir) fs.

End FileCache.

(** ** libs/file-cache.js on keys in full

    A key is any JavaScript string: a sequence of UTF-16 code units, each
    below 65536.  [encodeURIComponent] throws a URIError on a surrogate
    that has no partner, and [_getFilePath] is called before the [try]
    block of [get].  The functions of [FileCache] above are the functions
    below on the keys whose code units are all below 256 (lemmas
    [Utf16Facts.get_units] and [Utf16Facts.set_units]). *)

Module Utf16.

Definition is_lead (u : N) : bool := ((55296 <=? u) && (u <=? 56319))%N.

Definition is_trail (u : N) : bool := ((56320 <=? u) && (u <=? 57343))%N.

(** [String.prototype.isWellFormed]: no surrogate without its partner. *)
Fixpoint isWellFormed (s : list N) : bool :=
  match s with
  | [] => true
  | u :: rest =>
      if is_lead u then
        match rest with
        | v :: rest' => is_trail v && isWellFormed rest'
        | [] => false
        end
      else negb (is_trail u) && isWellFormed rest
  end.

(** The code point of a surrogate pair. *)
Definition code_point (lead trail : N) : N :=
  ((lead - 55296) * 1024 + (trail - 56320) + 65536)%N.

(** The octets of a code point in UTF-8. *)
Definition utf8 (cp : N) : list N :=
  (if cp <? 128 then [cp]
   else if cp <? 2048 then [192 + cp / 64; 128 + cp mod 64]
   else if cp <? 65536 then
     [224 + cp / 4096; 128 + (cp / 64) mod 64; 128 + cp mod 64]
   else
     [240 + cp / 262144; 128 + (cp / 4096) mod 64; 128 + (cp / 64) mod 64;
      128 + cp mod 64])%N.

Definition escaped (cp : N) : list ascii := flat_map FileCache.percent (utf8 cp).

(** A code unit that [encodeURIComponent] leaves as it is. *)
Definition unescaped (u : N) : bool :=
  (u <? 128)%N && FileCache.unreserved (ascii_of_N u).

Definition prepend (chars : list ascii) (c : completion (list ascii))
  : completion (list ascii) :=
  match c with
  | Normal rest => Normal (chars ++ rest)
  | Throw e => Throw e
  end.

(** The loop of Encode: a code unit of the unescaped set is copied; any
    other is read as a code point, with the unit after it when it is a
    leading surrogate, and written as the escaped octets of its UTF-8
    form.  A trailing surrogate first, or a leading one without a trailing
    one after it, throws. *)
Fixpoint encode (s : list N) : completion (list ascii) :=
  match s with
  | [] => Normal []
  | u :: rest =>
      if unescaped u then prepend [ascii_of_N u] (encode rest)
      else if is_trail u then Throw URIError
      else if is_lead u then
        match rest with
        | v :: rest' =>
            if is_trail v then prepend (escaped (code_point u v)) (encode rest')
            else Throw URIError
        | [] => Throw URIError
        end
      else prepend (escaped u) (encode rest)
  end.

Definition encodeURIComponent (s : list N) : completion string :=
  match encode s with
  | Normal chars => Normal (string_of_list_ascii chars)
  | Throw e => Throw e
  end.

Definition _getFilePath (key : list N) : completion string :=
  match encodeURIComponent key with
  | Normal safeKey =>
      Normal (FileCache.cacheDir +:+ "/" +:+ safeKey +:+ ".cache")
  | Throw e => Throw e
  end.

(** [set]: the key is encoded after the test of the ttl and after the
    entry is built. *)
Definition set (fs : FS) (now : Z) (key : list N) (v : value) (ttlSeconds : Z)
  : completion unit * FS :=
  if ttlSeconds <=? 0 then (Normal tt, fs)
  else
    let expiresAt := now + ttlSeconds * 1000 in
    let data := FileCache.entry expiresAt v in
    match _getFilePath key with
    | Throw e => (Throw e, fs)
    | Normal filePath =>
        match JSON.stringify data with
        | Some text => (Normal tt, Fs.writeFileSync fs filePath text)
        | None => (Normal tt, fs)
        end
    end.

(** [get]: what [_getFilePath] throws is thrown to the caller; what the
    [try] block throws is caught. *)
Definition get `{Runtime} (fs : FS) (now : Z) (key : list N)
  : completion value * FS :=
  match _getFilePath key with
  | Throw e => (Throw e, fs)
  | Normal filePath =>
      if negb (Fs.existsSync fs filePath) then (Normal Undefined, fs)
      else
        match FileCache.get_try fs now filePath with
        | (Normal v, fs') => (Normal v, fs')
        | (Throw _, fs') =>
            let '(_, fs'') := Fs.unlinkSync fs' filePath in
            (Normal Undefined, fs'')
        end
  end.

(** The code units of a string of this development. *)
Definition units (s : string) : list N := N_of_ascii <$> list_ascii_of_string s.

End Utf16.

(** ** libs/memory-cache.js *)

Module MemoryCache.

(** What the store holds under a key: [{ value, expiresAt }].  Values do
    not change here, so that the store and its caller share a stored object
    does not show. *)
Record cacheEntry : Type := {
  entry_value : value;
  expiresAt : Z;
}.

(** [this.store], a [Map] with strings as keys.  The order of insertion,
    which no method of the class shows, is not kept. *)
Abbreviation Store := (gmap string cacheEntry).

(** [new MemoryCache()] *)
Definition init : Store := ∅.

Definition set (store : Store) (now : Z) (key : string) (v : value)
    (ttlSeconds : Z) : Store :=
  if 0 <? ttlSeconds then
    let expiresAt := now + ttlSeconds * 1000 in
    <[key := {| entry_value := v; expiresAt := expiresAt |}]> store
  else store.

(** [expiresAt !== 0 && now > expiresAt] *)
Definition expired (now : Z) (e : cacheEntry) : bool :=
  negb (expiresAt e =? 0) && (expiresAt e <? now).

Definition get (store : Store) (now : Z) (key : string) : value * Store :=
  match store !! key with
  | None => (Undefined, store)
  | Some cacheEntry =>
      if expired now cacheEntry then (Undefined, base.delete key store)
      else (entry_value cacheEntry, store)
  end.

(** [Map.prototype.delete] answers whether the key was there. *)
Definition delete (store : Store) (key : string) : bool * Store :=
  (bool_decide (is_Some (store !! key)), base.delete key store).

Definition clear (store : Store) : Store := ∅.

(** The loop over [this.store.entries()]; an entry deleted in a round is
    the one that round visits. *)
Definition purgeExpired (store : Store) (now : Z) : Store :=
  fold_left (fun (s : Store) (kv : string * cacheEntry) =>
               if expired now kv.2 then base.delete kv.1 s else s)
            (map_to_list store) store.

End MemoryCache.

(** ** libs/websearch-proxy.js *)

Module Proxy.

Record proxyData : Type := {
  username : string;
  password : string;
  proxy_address : string;
  port : Z;
}.

(** The singleton: the pool and the rotation counter.  The counter starts
    at 0 and is only ever incremented. *)
Record t : Type := {
  proxies : list proxyData;
  index : nat;
}.

(** [new Proxy()] *)
Definition init : t := {| proxies := []; index := 0 |}.

(** [this.index % this.proxies.length], the pool index the next call
    reads. *)
Definition slot (p : t) : nat := (index p mod length (proxies p))%nat.

Definition _getNextProxy (p : t) : option proxyData * t :=
  let proxy := proxies p !! slot p in
  (proxy, {| proxies := proxies p; index := S (index p) |}).

(** [response] is what the credential service answers: the list under
    results, or the failure of the request.  An answer without a list under
    results, after which the pool is undefined, is not modelled. *)
Definition _getProxyList (response : completion (list proxyData)) (p : t)
  : completion unit * t :=
  match response with
  | Normal results => (Normal tt, {| proxies := results; index := index p |})
  | Throw e => (Throw e, p)
  end.

Definition proxyUrl (d : proxyData) : string :=
  "http://" +:+ username d +:+ ":" +:+ password d +:+ "@" +:+ proxy_address d
  +:+ ":" +:+ Numeral.string_of_Z (port d).

(** The agent is represented by its proxy URL.  Reading the fields of an
    undefined pool entry throws, which rejects the promise. *)
Definition getProxyAgent (response : completion (list proxyData)) (p : t)
  : outcome string * t :=
  let '(loaded, p1) :=
    if (length (proxies p) =? 0)%nat then _getProxyList response p
    else (Normal tt, p) in
  match loaded with
  | Throw e => (Rejected e, p1)
  | Normal _ =>
      let '(proxyData, p2) := _getNextProxy p1 in
      match proxyData with
      | Some d => (Resolved (proxyUrl d), p2)
      | None => (Rejected TypeError, p2)
      end
  end.

End Proxy.

(** ** libs/custom-headers.js *)

Module CustomHeaders.

Definition desktopUserAgents : list (string * string) :=
  [("Mozilla/5.0 (Windows NT 10.0; Win64; x64) AppleWebKit/537.36 (KHTML, like Gecko) Chrome/125.0.6422.113 Safari/537.36", "chrome");
   ("Mozilla/5.0 (Macintosh; Intel Mac OS X 13_5_2) AppleWebKit/537.36 (KHTML, like Gecko) Chrome/125.0.6422.113 Safari/537.36", "chrome");
   ("Mozilla/5.0 (Windows NT 10.0; Win64; x64; rv:126.0) Gecko/20100101 Firefox/126.0", "firefox");
   ("Mozilla/5.0 (Macintosh; Intel Mac OS X 13.4; rv:126.0) Gecko/20100101 Firefox/126.0", "firefox");
   ("Mozilla/5.0 (Macintosh; Intel Mac OS X 13_5_2) AppleWebKit/605.1.15 (KHTML, like Gecko) Version/17.5 Safari/605.1.15", "safari");
   ("Mozilla/5.0 (Windows NT 10.0; Win64; x64) AppleWebKit/537.36 (KHTML, like Gecko) Chrome/124.0.6367.119 Safari/537.36 Edg/124.0.2478.97", "edge");
   ("Mozilla/5.0 (X11; Linux x86_64) AppleWebKit/537.36 (KHTML, like Gecko) Chrome/125.0.6422.113 Safari/537.36", "chrome");
   ("Mozilla/5.0 (X11; Linux x86_64; rv:125.0) Gecko/20100101 Firefox/125.0", "firefox")].

(** [choice] is the index that [Math.random] selects, below the length of
    the table. *)
Definition getRotatedHeaders (choice : nat) (overrides : value)
  : list (string * value) :=
  let overrides := Js.or_default overrides (Obj []) in
  let '(ua, browser) :=
    default (EmptyString, EmptyString) (desktopUserAgents !! choice) in
  let headers :=
    [("User-Agent", Str ua);
     ("Accept", Str "text/html,application/xhtml+xml,application/xml;q=0.9,image/webp,*/*;q=0.8");
     ("Accept-Language", Str "en-US,en;q=0.9");
     ("Accept-Encoding", Str "gzip, deflate, br");
     ("Connection", Str "keep-alive")] in
  let headers :=
    if String.eqb browser "chrome" || String.eqb browser "edge" then
      Js.spread (Js.spread [] (Obj headers))
        (Obj [("Upgrade-Insecure-Requests", Str "1");
              ("Sec-Fetch-Dest", Str "document");
              ("Sec-Fetch-Mode", Str "navigate");
              ("Sec-Fetch-Site", Str "none");
              ("Sec-Fetch-User", Str "?1")])
    else headers in
  Js.spread (Js.spread [] (Obj headers)) overrides.

End CustomHeaders.

(** ** libs/proxy-fetch.js *)

(** What the outside world answers.  Requests are numbered in the order in
    which they are made. *)
Record Network : Type := {
  credential_service : nat -> completion (list Proxy.proxyData);
  http_get : nat -> string -> list (string * value) -> string -> completion value;
  elapsed : nat -> Z;
  random_choice : nat -> nat;
}.

Inductive event : Type :=
  | CredentialRequest
  | HttpGet (url : string) (headers : list (string * value)) (agent : string).

(** The mutable state of the process and its surroundings: the cache
    files, the proxy singleton, the clock read by [Date.now()], and the
    network requests made so far. *)
Record World : Type := {
  files : FS;
  proxy : Proxy.t;
  clock : Z;
  trace : list event;
}.

Module ProxyFetch.

Definition with_files (w : World) (fs : FS) : World :=
  {| files := fs; proxy := proxy w; clock := clock w; trace := trace w |}.

(** [setTimeout] of [ms] milliseconds. *)
Definition sleep (ms : Z) (w : World) : World :=
  {| files := files w; proxy := proxy w; clock := clock w + ms;
     trace := trace w |}.

(** The object that is hashed: the URL and the Cookie header only. *)
Definition keyInput (url : string) (headers : value) : completion value :=
  let headers := Js.or_default headers (Obj []) in
  match Js.prop "Cookie" headers with
  | Normal c =>
      Normal (Obj [("url", Str url);
                   ("cookie", if Js.truthy c then c else Str EmptyString)])
  | Throw e => Throw e
  end.

Definition _getRequestHash `{Runtime} (url : string) (headers : value)
  : completion string :=
  match keyInput url headers with
  | Normal k =>
      match JSON.stringify k with
      | Some text => Normal (sha256_hex text)
      | None => Throw TypeError
      end
  | Throw e => Throw e
  end.

(** [websearchProxy.getProxyAgent()] in this world: a request to the
    credential service is made when the pool is empty. *)
Definition getProxyAgent (net : Network) (w : World) : outcome string * World :=
  let n := length (trace w) in
  let asks := (length (Proxy.proxies (proxy w)) =? 0)%nat in
  let '(agent, p) := Proxy.getProxyAgent (credential_service net n) (proxy w) in
  (agent,
   {| files := files w; proxy := p;
      clock := if asks then clock w + elapsed net n else clock w;
      trace := if asks then trace w ++ [CredentialRequest] else trace w |}).

(** [fetch(url, customHeaders, ttl)].  A throw inside the executor
    rejects the promise.  The callback chained on [getProxyAgent()] has
    no rejection handler: when that promise rejects, neither [resolve] nor
    [reject] is ever called. *)
Definition fetch `{Runtime} (net : Network) (url : string)
    (customHeaders : value) (ttl : Z) (w : World) : outcome value * World :=
  let customHeaders := Js.or_default customHeaders (Obj []) in
  match _getRequestHash url customHeaders with
  | Throw e => (Rejected e, w)
  | Normal cacheKey =>
      let '(cached, fs1) := FileCache.get (files w) (clock w) cacheKey in
      let w1 := with_files w fs1 in
      match cached with
      | Throw e => (Rejected e, w1)
      | Normal cachedResult =>
          if Js.truthy cachedResult then (Resolved cachedResult, w1)
          else
            let headers :=
              CustomHeaders.getRotatedHeaders
                (random_choice net (length (trace w1))) customHeaders in
            match getProxyAgent net w1 with
            | (Resolved agent, w2) =>
                let n := length (trace w2) in
                let sent := Js.spread (Js.spread [] (Obj headers)) customHeaders in
                let w3 :=
                  {| files := files w2; proxy := proxy w2;
                     clock := clock w2 + elapsed net n;
                     trace := trace w2 ++ [HttpGet url sent agent] |} in
                match http_get net n url sent agent with
                | Normal data =>
                    (Resolved data,
                     with_files w3
                       (FileCache.set (files w3) (clock w3) cacheKey data ttl))
                | Throw e => (Rejected e, w3)
                end
            | (_, w2) => (Pending, w2)
            end
      end
  end.

End ProxyFetch.

(** ** scrape-full-advisors.js *)

Module Orchestrator.

Section Scraper.

(** The fetch client is a parameter: a state transformer over the state
    [W] of whatever it talks to.  [ProxyFetch.fetch] over [World] is the
    instance the program runs with. *)
Context {W : Type}.
Variable proxyFetch_fetch : string -> value -> Z -> W -> outcome value * W.
Variable sleep : Z -> W -> W.

(** Configuration: each is [parseInt(process.env.X) || default]. *)
Variables ttl pageSize maxRetries batchSize delayBetweenBatchesMs : Z.

(** The state a run threads through: the outside, the [errors] array, the
    value of the progress bar, a log of the URLs passed to the fetch client
    in call order, and the lines written to the output file. *)
Record Run : Type := {
  world : W;
  errors : list string;
  bar : Z;
  attempts : list string;
  output : list string;
}.

Definition set_world (w : W) (r : Run) : Run :=
  {| world := w; errors := errors r; bar := bar r; attempts := attempts r;
     output := output r |}.

Definition set_errors (es : list string) (r : Run) : Run :=
  {| world := world r; errors := es; bar := bar r; attempts := attempts r;
     output := output r |}.

Definition set_bar (n : Z) (r : Run) : Run :=
  {| world := world r; errors := errors r; bar := n; attempts := attempts r;
     output := output r |}.

Definition set_attempts (urls : list string) (r : Run) : Run :=
  {| world := world r; errors := errors r; bar := bar r; attempts := urls;
     output := output r |}.

Definition set_output (lines : list string) (r : Run) : Run :=
  {| world := world r; errors := errors r; bar := bar r;
     attempts := attempts r; output := lines |}.

Definition buildListUrl (page : Z) : string :=
  "https://www.travelleaders.com/agent/getAgents?ZIP=&Name=&AgentInterest=&AgentDestination=&AgentState=&AgentMetroRegion=&AgentLanguage=&AgentCity=&AgentSupplier=&AgentId=0&AgencyId=0&Locality=AR&AgentSort=&CurrentPage="
  +:+ Numeral.string_of_Z page +:+ "&PageSize=" +:+ Numeral.string_of_Z pageSize.

Definition buildBioUrl (id : value) : string :=
  "https://www.travelleaders.com/agent/getAgentFullBio?agentId="
  +:+ Coerce.to_string id +:+ "&preview=false&destination=".

Definition sleep_run (ms : Z) (r : Run) : Run :=
  set_world (sleep ms (world r)) r.

(** [bar.increment()] *)
Definition increment (r : Run) : Run := set_bar (bar r + 1) r.

(** [errors.push(msg)] *)
Definition push_error (msg : string) (r : Run) : Run :=
  set_errors (errors r ++ [msg]) r.

(** [await proxyFetch.fetch(url, {}, ttl)] *)
Definition call_fetch (url : string) (r : Run) : outcome value * Run :=
  let '(o, w) := proxyFetch_fetch url (Obj []) ttl (world r) in
  (o, set_attempts (attempts r ++ [url]) (set_world w r)).

(** [res.data.agent] *)
Definition page_agents (res : value) : completion value :=
  match Js.prop "data" res with
  | Normal data => Js.prop "agent" data
  | Throw e => Throw e
  end.

Definition page_error (page : Z) : string :=
  "Failed to fetch page " +:+ Numeral.string_of_Z page +:+ " after "
  +:+ Numeral.string_of_Z maxRetries +:+ " attempts.".

(** [fetchPage(page, bar, errors, attempt)].  The fuel bounds the depth of
    the recursion; [None] is fuel run out. *)
Fixpoint fetchPage_from (fuel : nat) (page attempt : Z) (r : Run)
  : option (outcome value * Run) :=
  match fuel with
  | O => None
  | S fuel' =>
      let url := buildListUrl page in
      let catch (r : Run) :=
        if attempt <? maxRetries then
          fetchPage_from fuel' page (attempt + 1) (sleep_run 200 r)
        else
          Some (Resolved (Arr []), increment (push_error (page_error page) r)) in
      let '(o, r1) := call_fetch url r in
      match o with
      | Resolved res =>
          let r2 := increment r1 in
          match page_agents res with
          | Normal agents => Some (Resolved agents, r2)
          | Throw _ => catch r2
          end
      | Rejected _ => catch r1
      | Pending => Some (Pending, r1)
      end
  end.

Definition fetchPage (page : Z) (r : Run) : option (outcome value * Run) :=
  fetchPage_from (S (Z.to_nat (maxRetries - 1))) page 1 r.

(** [{ id: agentId, ...res.data }] *)
Definition bio_record (agentId res : value) : completion value :=
  match Js.prop "data" res with
  | Normal data => Normal (Obj (Js.spread [("id", agentId)] data))
  | Throw e => Throw e
  end.

Definition agent_error (agentId : value) : string :=
  "Failed agent " +:+ Coerce.to_string agentId +:+ " after "
  +:+ Numeral.string_of_Z maxRetries +:+ " attempts".

(** [fetchAgentBio(agentId, errors, bar, attempt)], called with a bar. *)
Fixpoint fetchAgentBio_from (fuel : nat) (agentId : value) (attempt : Z)
    (r : Run) : option (outcome value * Run) :=
  match fuel with
  | O => None
  | S fuel' =>
      let url := buildBioUrl agentId in
      let catch (r : Run) :=
        if attempt <? maxRetries then
          fetchAgentBio_from fuel' agentId (attempt + 1) (sleep_run 200 r)
        else
          Some (Resolved Null, increment (push_error (agent_error agentId) r)) in
      let '(o, r1) := call_fetch url r in
      match o with
      | Resolved res =>
          let r2 := increment r1 in
          match bio_record agentId res with
          | Normal record => Some (Resolved record, r2)
          | Throw _ => catch r2
          end
      | Rejected _ => catch r1
      | Pending => Some (Pending, r1)
      end
  end.

Definition fetchAgentBio (agentId : value) (r : Run)
  : option (outcome value * Run) :=
  fetchAgentBio_from (S (Z.to_nat (maxRetries - 1))) agentId 1 r.

(** [Promise.allSettled(items.map(f))]; the results are in batch order, as
    [allSettled] returns them.  The program starts the items together and
    they finish in any order; here they are run one after the other in
    batch order, which is one of the orders the program can take.  The
    order of the entries that one batch adds to the error log, and the
    number of requests to the credential service when the pool is empty at
    the start of a batch, depend on that choice. *)
Fixpoint settle_all {A : Type} (f : A -> Run -> option (outcome value * Run))
    (items : list A) (r : Run) : option (list (outcome value) * Run) :=
  match items with
  | [] => Some ([], r)
  | x :: items' =>
      match f x r with
      | Some (o, r1) =>
          match settle_all f items' r1 with
          | Some (os, r2) => Some (o :: os, r2)
          | None => None
          end
      | None => None
      end
  end.

Definition is_pending (o : outcome value) : bool :=
  match o with
  | Pending => true
  | _ => false
  end.

Fixpoint map_completion {A B : Type} (f : A -> completion B) (l : list A)
  : completion (list B) :=
  match l with
  | [] => Normal []
  | x :: l' =>
      match f x with
      | Normal y =>
          match map_completion f l' with
          | Normal ys => Normal (y :: ys)
          | Throw e => Throw e
          end
      | Throw e => Throw e
      end
  end.

(** [agents.map((a) => a.agentId)] *)
Definition agentIds (agents : value) : completion (list value) :=
  match agents with
  | Arr l => map_completion (Js.prop "agentId") l
  | _ => Throw TypeError
  end.

(** The loop over the settled results of one batch of pages. *)
Fixpoint collect (results : list (outcome value)) (allAgentIds : list value)
  : completion (list value) :=
  match results with
  | [] => Normal allAgentIds
  | Resolved agents :: results' =>
      match agentIds agents with
      | Normal ids => collect results' (allAgentIds ++ ids)
      | Throw e => Throw e
      end
  | _ :: results' => collect results' allAgentIds
  end.

(** [Array.from({ length: n }, (_, j) => i + j)]; a negative length is
    an empty array. *)
Definition range (i n : Z) : list Z :=
  map (fun j => i + Z.of_nat j) (seq 0 (Z.to_nat n)).

Definition batchPages (i pages : Z) : list Z :=
  range i (Z.min batchSize (pages - i)).

(** [for (let i = ...; i < pages; i += batchSize)], entered with [i]. *)
Fixpoint batch_loop (fuel : nat) (i pages : Z) (allAgentIds : list value)
    (r : Run) : option (outcome (list value) * Run) :=
  if i <? pages then
    match fuel with
    | O => None
    | S fuel' =>
        match settle_all fetchPage (batchPages i pages) r with
        | Some (results, r1) =>
            if existsb is_pending results then Some (Pending, r1)
            else
              match collect results allAgentIds with
              | Normal ids =>
                  batch_loop fuel' (i + batchSize) pages ids
                             (sleep_run delayBetweenBatchesMs r1)
              | Throw e => Some (Rejected e, r1)
              end
        | None => None
        end
    end
  else Some (Resolved allAgentIds, r).

(** Phase 1 of [work]: the list [allAgentIds] when the loop is left.  A
    rejection is what [work().catch] receives. *)
Definition phase1 (r : Run) : option (outcome (list value) * Run) :=
  let '(o, r1) := call_fetch (buildListUrl 0) r in
  match o with
  | Resolved firstPageResult =>
      match Js.prop "data" firstPageResult with
      | Normal data =>
          match Js.prop "totalAgents" data with
          | Normal totalAgents =>
              let total := Coerce.parseInt totalAgents in
              let pages := option_map (fun t => Coerce.ceil_div t pageSize) total in
              let r2 := set_errors [] r1 in
              match page_agents firstPageResult with
              | Normal agents =>
                  match agentIds agents with
                  | Normal ids =>
                      let r3 := set_bar 1 r2 in
                      match pages with
                      | Some pages => batch_loop (Z.to_nat pages) 1 pages ids r3
                      | None => Some (Resolved ids, r3)
                      end
                  | Throw e => Some (Rejected e, r2)
                  end
              | Throw e => Some (Rejected e, r2)
              end
          | Throw e => Some (Rejected e, r1)
          end
      | Throw e => Some (Rejected e, r1)
      end
  | Rejected e => Some (Rejected e, r1)
  | Pending => Some (Pending, r1)
  end.

(** The loop over the settled results of one batch of agents: a record
    that is fulfilled and truthy is written as one line. *)
Fixpoint write_results (results : list (outcome value)) (r : Run) : Run :=
  match results with
  | [] => r
  | Resolved record :: results' =>
      if Js.truthy record then
        let text := default "undefined" (JSON.stringify record) in
        write_results results'
          (set_output (output r ++ [text +:+ String "010" EmptyString]) r)
      else write_results results' r
  | _ :: results' => write_results results' r
  end.

(** [for (let i = ...; i < allAgentIds.length; i += batchSize)], entered
    with [i]. *)
Fixpoint detail_loop (fuel : nat) (i : Z) (allAgentIds : list value)
    (r : Run) : option (outcome unit * Run) :=
  if i <? Z.of_nat (length allAgentIds) then
    match fuel with
    | O => None
    | S fuel' =>
        let batch := Js.slice allAgentIds i (i + batchSize) in
        match settle_all fetchAgentBio batch r with
        | Some (results, r1) =>
            if existsb is_pending results then Some (Pending, r1)
            else
              detail_loop fuel' (i + batchSize) allAgentIds
                          (sleep_run delayBetweenBatchesMs
                                     (write_results results r1))
        | None => None
        end
    end
  else Some (Resolved tt, r).

(** [work()]: the output file is emptied, phase 1 collects the ids,
    phase 2 writes a line for every detail record. *)
Definition work (r : Run) : option (outcome unit * Run) :=
  match phase1 (set_output [] r) with
  | Some (Resolved allAgentIds, r1) =>
      detail_loop (length allAgentIds) 0 allAgentIds (set_bar 0 r1)
  | Some (Rejected e, r1) => Some (Rejected e, r1)
  | Some (Pending, r1) => Some (Pending, r1)
  | None => None
  end.

End Scraper.

End Orchestrator.

(** * Properties of the text layer *)

Module NumeralFacts.
Import Numeral.

(** A text continues a numeral when it starts with a digit. *)
Definition stops (rest : list ascii) : bool :=
  match rest with
  | [] => true
  | c :: _ => negb (is_digit c)
  end.

Lemma read_digits_stop rest : stops rest = true -> read_digits rest = (Nil, rest).
Proof.
  destruct rest as [|c r]; [reflexivity|].
  unfold stops, is_digit. simpl. destruct (digit_of c); [discriminate|reflexivity].
Qed.

Lemma read_digits_uint_chars u rest :
  stops rest = true -> read_digits (uint_chars u ++ rest) = (u, rest).
Proof.
  intros Hs. induction u; simpl; rewrite ?IHu; auto using read_digits_stop.
Qed.

Lemma unorm_D0_inv d u : unorm d = D0 u -> u = Nil.
Proof.
  unfold unorm. destruct (nzhead d) eqn:Hz; intros H; try discriminate H.
  - now inversion H.
  - exfalso. exact (nzhead_nonzero _ _ Hz).
Qed.

(** [N.to_uint] never produces an empty numeral or a leading zero. *)
Lemma to_uint_normal n :
  match N.to_uint n with
  | Nil => False
  | D0 Nil => True
  | D0 _ => False
  | _ => True
  end.
Proof.
  pose proof (DecimalN.Unsigned.to_of (N.to_uint n)) as H.
  rewrite DecimalN.Unsigned.of_to in H.
  destruct (N.to_uint n) as [|u| | | | | | | | |] eqn:E; try exact I.
  - symmetry in H. exact (unorm_nonnil _ H).
  - symmetry in H. apply unorm_D0_inv in H. now subst u.
Qed.

Lemma of_to_Z_nonneg n : 0 <= n -> Z.of_N (N.of_uint (N.to_uint (Z.to_N n))) = n.
Proof. intros. rewrite DecimalN.Unsigned.of_to. lia. Qed.

Lemma of_to_Z_neg n : n < 0 -> - Z.of_N (N.of_uint (N.to_uint (Z.abs_N n))) = n.
Proof. intros. rewrite DecimalN.Unsigned.of_to. lia. Qed.

End NumeralFacts.

Module JSONFacts.
Import Numeral NumeralFacts JSON.

(** What may follow a value inside a text: nothing, or a character that
    neither continues a numeral nor starts a fraction or an exponent. *)
Definition number_end (rest : list ascii) : bool :=
  stops rest && negb (starts_fraction rest).

Lemma uint_chars_head u :
  u <> Nil ->
  exists c r, uint_chars u = c :: r /\ is_digit c = true.
Proof. destruct u; intros H; try congruence; simpl; eauto. Qed.

Lemma digit_not_minus c r : is_digit c = true -> starts_minus (c :: r) = false.
Proof. destruct c as [[] [] [] [] [] [] [] []]; try discriminate; reflexivity. Qed.

Lemma read_number_chars_of_Z n rest :
  number_end rest = true ->
  read_number (chars_of_Z n ++ rest) = Some (Num n, rest).
Proof.
  unfold number_end. intros [Hs Hf]%andb_true_iff. apply negb_true_iff in Hf.
  unfold chars_of_Z, read_number.
  destruct (Z.ltb_spec n 0) as [Hn|Hn].
  - simpl. rewrite read_digits_uint_chars by assumption.
    pose proof (to_uint_normal (Z.abs_N n)) as Hu.
    pose proof (of_to_Z_neg n Hn) as Hv.
    destruct (N.to_uint (Z.abs_N n)) as [|u| | | | | | | | |];
      try contradiction; try (destruct u; try contradiction);
      simpl; rewrite Hf; simpl in *; rewrite ?Hv; reflexivity.
  - pose proof (to_uint_normal (Z.to_N n)) as Hu.
    pose proof (of_to_Z_nonneg n Hn) as Hv.
    destruct (uint_chars_head (N.to_uint (Z.to_N n))) as (c & r & Hc & Hd).
    { intros E. now rewrite E in Hu. }
    assert (Hm : starts_minus (uint_chars (N.to_uint (Z.to_N n)) ++ rest) = false)
      by (rewrite Hc; exact (digit_not_minus c _ Hd)).
    rewrite Hm. rewrite read_digits_uint_chars by assumption.
    destruct (N.to_uint (Z.to_N n)) as [|u| | | | | | | | |];
      try contradiction; try (destruct u; try contradiction);
      simpl; rewrite Hf; simpl in *; rewrite ?Hv; reflexivity.
Qed.

Lemma read_string_escape_char c tl :
  read_string (escape_char c ++ tl) =
  match read_string tl with
  | Some (t, rest) => Some (String c t, rest)
  | None => None
  end.
Proof. destruct c as [[] [] [] [] [] [] [] []]; reflexivity. Qed.

Lemma read_string_escape s rest :
  read_string (escape s ++ "034"%char :: rest) = Some (s, rest).
Proof.
  induction s as [|c s IH]; [reflexivity|].
  simpl escape. rewrite <- app_assoc, read_string_escape_char, IH. reflexivity.
Qed.

(** The first character of the text of a value. *)
Definition value_start (c : ascii) : bool :=
  match c with
  | ("n" | "t" | "f" | "034" | "[" | "{" | "-")%char => true
  | _ => is_digit c
  end.

Lemma chars_of_Z_head n :
  exists c r, chars_of_Z n = c :: r /\ (c = "-"%char \/ is_digit c = true).
Proof.
  unfold chars_of_Z. destruct (n <? 0); [eauto|].
  pose proof (to_uint_normal (Z.to_N n)) as Hu.
  destruct (uint_chars_head (N.to_uint (Z.to_N n))) as (c & r & Hc & Hd).
  { intros E. now rewrite E in Hu. }
  eauto.
Qed.

Lemma stringify_chars_head v :
  exists c r, stringify_chars v = c :: r /\ value_start c = true.
Proof.
  destruct v as [| |[]|n|s|l|l]; simpl; eauto.
  destruct (chars_of_Z_head n) as (c & r & -> & [->|Hd]); eauto.
  exists c, r. split; [reflexivity|].
  destruct c as [[] [] [] [] [] [] [] []]; try discriminate; reflexivity.
Qed.

Lemma closes_value_start d c r :
  value_start c = true -> (d = "]" \/ d = "}")%char -> closes d (c :: r) = None.
Proof.
  intros Hc [-> | ->];
    destruct c as [[] [] [] [] [] [] [] []]; try discriminate; reflexivity.
Qed.

Lemma read_value_number f c r :
  (c = "-"%char \/ is_digit c = true) ->
  read_value (S f) (c :: r) = read_number (c :: r).
Proof.
  intros [-> | Hd]; [reflexivity|].
  destruct c as [[] [] [] [] [] [] [] []]; try discriminate; reflexivity.
Qed.

Lemma read_value_str f r :
  read_value (S f) ("034"%char :: r) =
  match read_string r with
  | Some (t, r') => Some (Str t, r')
  | None => None
  end.
Proof. reflexivity. Qed.

Lemma read_value_arr f r :
  read_value (S f) ("["%char :: r) =
  match closes "]" r with
  | Some r' => Some (Arr [], r')
  | None =>
      match read_elements f r with
      | Some (l, r') => Some (Arr l, r')
      | None => None
      end
  end.
Proof. reflexivity. Qed.

Lemma read_value_obj f r :
  read_value (S f) ("{"%char :: r) =
  match closes "}" r with
  | Some r' => Some (Obj [], r')
  | None =>
      match read_members f r with
      | Some (l, r') => Some (Obj (build_object l), r')
      | None => None
      end
  end.
Proof. reflexivity. Qed.

Lemma read_elements_step f s :
  read_elements (S f) s =
  match read_value f s with
  | Some (v, r) =>
      match skip_ws r with
      | ","%char :: r' =>
          match read_elements f r' with
          | Some (l, r'') => Some (v :: l, r'')
          | None => None
          end
      | "]"%char :: r' => Some ([v], r')
      | _ => None
      end
  | None => None
  end.
Proof. reflexivity. Qed.

Lemma read_members_step f k s :
  read_members (S f) ("034"%char :: escape k ++ "034"%char :: ":"%char :: s) =
  match read_value f s with
  | Some (v, r3) =>
      match skip_ws r3 with
      | ","%char :: r4 =>
          match read_members f r4 with
          | Some (l, r5) => Some ((k, v) :: l, r5)
          | None => None
          end
      | "}"%char :: r4 => Some ([(k, v)], r4)
      | _ => None
      end
  | None => None
  end.
Proof.
  change (read_members (S f)
            ("034"%char :: escape k ++ "034"%char :: ":"%char :: s))
    with (match read_string (escape k ++ "034"%char :: ":"%char :: s) with
          | Some (k, r1) =>
              match skip_ws r1 with
              | ":"%char :: r2 =>
                  match read_value f r2 with
                  | Some (v, r3) =>
                      match skip_ws r3 with
                      | ","%char :: r4 =>
                          match read_members f r4 with
                          | Some (l, r5) => Some ((k, v) :: l, r5)
                          | None => None
                          end
                      | "}"%char :: r4 => Some ([(k, v)], r4)
                      | _ => None
                      end
                  | None => None
                  end
              | _ => None
              end
          | None => None
          end).
  rewrite read_string_escape. reflexivity.
Qed.

Definition member_chars (kv : string * value) : list ascii :=
  quote kv.1 ++ ":"%char :: stringify_chars kv.2.

Lemma member_chars_app k x tl :
  member_chars (k, x) ++ tl =
  "034"%char :: escape k ++ "034"%char :: ":"%char :: stringify_chars x ++ tl.
Proof.
  unfold member_chars, quote. simpl.
  rewrite <- !app_assoc. reflexivity.
Qed.

Lemma member_texts_serializable l :
  forallb (fun kv => serializable kv.2) l = true ->
  concat (map (fun kv => member_text kv.1 kv.2 (stringify_chars kv.2)) l)
  = map member_chars l.
Proof.
  induction l as [|[k x] l IH]; [reflexivity|].
  simpl. intros [Hx Hl]%andb_true_iff. rewrite (IH Hl).
  destruct x; try discriminate Hx; reflexivity.
Qed.

Lemma join_comma_cons x y l :
  join_comma (x :: y :: l) = x ++ ","%char :: join_comma (y :: l).
Proof. reflexivity. Qed.

Lemma obj_set_fresh k x (acc : list (string * value)) :
  k ∉ map fst acc -> Js.obj_set k x acc = acc ++ [(k, x)].
Proof.
  induction acc as [|[k' y] acc IH]; [reflexivity|].
  simpl. intros Hk. destruct (String.eqb_spec k k') as [->|Hne].
  - exfalso. apply Hk. left.
  - rewrite IH; [reflexivity|]. intros Hin. apply Hk. now right.
Qed.

Lemma build_object_acc l acc :
  NoDup (map fst acc ++ map fst l) ->
  fold_left (fun acc kv => Js.obj_set kv.1 kv.2 acc) l acc = acc ++ l.
Proof.
  revert acc. induction l as [|[k x] l IH]; intros acc Hnd.
  - now rewrite app_nil_r.
  - simpl. simpl in Hnd. rewrite obj_set_fresh.
    + rewrite IH; [now rewrite <- app_assoc|].
      rewrite map_app. simpl. now rewrite <- app_assoc.
    + apply NoDup_app in Hnd as (_ & Hd & _). intros Hin.
      apply (Hd k Hin). left.
Qed.

Lemma build_object_NoDup l : NoDup (map fst l) -> build_object l = l.
Proof. intros H. unfold build_object. now rewrite build_object_acc. Qed.

Lemma stringify_chars_length v : (1 <= length (stringify_chars v))%nat.
Proof.
  destruct (stringify_chars_head v) as (c & r & -> & _). simpl. lia.
Qed.

Lemma closes_elements d x l rest :
  (d = "]" \/ d = "}")%char ->
  closes d (join_comma (map stringify_chars (x :: l)) ++ rest) = None.
Proof.
  intros Hd. destruct (stringify_chars_head x) as (c & r & E & Hc).
  destruct l as [|y l]; simpl map.
  - simpl join_comma. rewrite E. simpl. now apply closes_value_start.
  - rewrite join_comma_cons, E. simpl. now apply closes_value_start.
Qed.

Lemma length_bracket (c d : ascii) (m : list ascii) :
  length (c :: m ++ [d]) = S (S (length m)).
Proof. rewrite length_cons, length_app. simpl. lia. Qed.

Lemma length_app_cons (c : ascii) (m1 m2 : list ascii) :
  length (m1 ++ c :: m2) = (length m1 + S (length m2))%nat.
Proof. now rewrite length_app. Qed.

Lemma member_chars_length k x :
  (length (stringify_chars x) < length (member_chars (k, x)))%nat.
Proof. unfold member_chars. rewrite length_app_cons. simpl. lia. Qed.

(** Reading back what [stringify_chars] printed, with enough fuel. *)
Lemma read_stringify f :
  (forall v rest,
      serializable v = true ->
      (length (stringify_chars v) <= f)%nat ->
      number_end rest = true ->
      read_value f (stringify_chars v ++ rest) = Some (v, rest)) /\
  (forall l rest,
      l <> [] ->
      forallb serializable l = true ->
      (length (join_comma (map stringify_chars l)) < f)%nat ->
      read_elements f (join_comma (map stringify_chars l) ++ "]"%char :: rest)
      = Some (l, rest)) /\
  (forall l rest,
      l <> [] ->
      forallb (fun kv => serializable kv.2) l = true ->
      (length (join_comma (map member_chars l)) < f)%nat ->
      read_members f (join_comma (map member_chars l) ++ "}"%char :: rest)
      = Some (l, rest)).
Proof.
  induction f as [|f (IHv & IHe & IHm)].
  { split; [|split]; intros; try lia.
    pose proof (stringify_chars_length v). lia. }
  split; [|split].
  - intros v rest Hser Hlen Hrest.
    destruct v as [| |[]|n|s|l|l]; try discriminate Hser; try reflexivity.
    + simpl stringify_chars.
      destruct (chars_of_Z_head n) as (c & r & E & Hc).
      pose proof (read_number_chars_of_Z n rest Hrest) as Hn.
      rewrite E in *. simpl app in *. now rewrite read_value_number.
    + simpl stringify_chars. unfold quote. simpl app.
      rewrite <- app_assoc. simpl app.
      now rewrite read_value_str, read_string_escape.
    + simpl in Hser. simpl stringify_chars in *. simpl app.
      rewrite <- app_assoc. simpl app. rewrite read_value_arr.
      destruct l as [|x l]; [reflexivity|].
      rewrite closes_elements by auto.
      rewrite IHe; [reflexivity|discriminate|exact Hser|].
      rewrite length_bracket in Hlen. lia.
    + simpl in Hser. apply andb_true_iff in Hser as [Hnd Hser].
      apply bool_decide_eq_true in Hnd.
      simpl stringify_chars in *.
      rewrite member_texts_serializable in * by assumption.
      simpl app. rewrite <- app_assoc. simpl app. rewrite read_value_obj.
      destruct l as [|[k x] l]; [reflexivity|].
      assert (Hcl : closes "}" (join_comma (map member_chars ((k, x) :: l))
                                ++ "}"%char :: rest) = None).
      { destruct l as [|kv l]; simpl map.
        - simpl join_comma. now rewrite member_chars_app.
        - now rewrite join_comma_cons, <- app_assoc, member_chars_app. }
      rewrite Hcl, IHm.
      * now rewrite build_object_NoDup.
      * discriminate.
      * exact Hser.
      * rewrite length_bracket in Hlen. lia.
  - intros l rest Hne Hser Hlen.
    destruct l as [|x l]; [congruence|].
    simpl in Hser. apply andb_true_iff in Hser as [Hx Hl].
    rewrite read_elements_step.
    destruct l as [|y l].
    + simpl map in *. simpl join_comma in *.
      rewrite IHv; [reflexivity|assumption|lia|reflexivity].
    + change (map stringify_chars (x :: y :: l))
        with (stringify_chars x :: map stringify_chars (y :: l)) in *.
      simpl map in Hlen |- *. rewrite join_comma_cons in *.
      change (stringify_chars y :: map stringify_chars l)
        with (map stringify_chars (y :: l)) in *.
      rewrite <- app_assoc, <- app_comm_cons.
      rewrite length_app_cons in Hlen.
      pose proof (stringify_chars_length x).
      rewrite IHv; [|assumption|lia|reflexivity].
      cbn [skip_ws is_ws].
      rewrite IHe; [reflexivity|discriminate|assumption|lia].
  - intros l rest Hne Hser Hlen.
    destruct l as [|[k x] l]; [congruence|].
    simpl in Hser. apply andb_true_iff in Hser as [Hx Hl].
    destruct l as [|kv l].
    + simpl map in *. simpl join_comma in *.
      rewrite member_chars_app, read_members_step.
      pose proof (member_chars_length k x) as Hk.
      rewrite IHv; [reflexivity|assumption|lia|reflexivity].
    + simpl map in Hlen |- *. rewrite join_comma_cons in *.
      change (member_chars kv :: map member_chars l)
        with (map member_chars (kv :: l)) in *.
      rewrite <- app_assoc, <- app_comm_cons.
      rewrite member_chars_app, read_members_step.
      rewrite length_app_cons in Hlen.
      pose proof (member_chars_length k x) as Hk.
      rewrite IHv; [|assumption|lia|reflexivity].
      cbn [skip_ws is_ws].
      rewrite IHm; [reflexivity|discriminate|assumption|lia].
Qed.

(** [JSON.parse(JSON.stringify(v))] is [v] for a serializable value. *)
Lemma parse_stringify v :
  serializable v = true ->
  exists text, stringify v = Some text /\ parse text = Some v.
Proof.
  intros Hser. exists (string_of_list_ascii (stringify_chars v)). split.
  - destruct v; try reflexivity. discriminate Hser.
  - unfold parse, parse_chars.
    rewrite list_ascii_of_string_of_list_ascii.
    destruct (read_stringify (S (length (stringify_chars v)))) as (Hv & _).
    specialize (Hv v [] Hser). rewrite app_nil_r in Hv.
    rewrite Hv; [reflexivity|lia|reflexivity].
Qed.

(** *** The grammar in full *)

Lemma read_scan_string_len n :
  forall s t r, (length s <= n)%nat ->
    read_string s = Some (t, r) -> scan_string s = Some r.
Proof.
  induction n as [|n IH]; intros s t r Hlen E.
  - destruct s; [discriminate|simpl in Hlen; lia].
  - destruct s as [|c s]; [discriminate|]. simpl in Hlen.
    cbn [read_string scan_string] in *.
    destruct (Ascii.eqb c "034"); [now injection E as _ <-|].
    destruct (Ascii.eqb c "\").
    + destruct s as [|e r1]; [discriminate|].
      destruct (Ascii.eqb e "u").
      * destruct r1 as [|h1 [|h2 [|h3 [|h4 r2]]]]; try discriminate.
        unfold hex4 in E. unfold is_hex.
        destruct (hex_val h1) as [[|p1]|]; try discriminate;
          destruct (hex_val h2) as [[|p2]|]; try discriminate;
          destruct (hex_val h3) as [x3|]; try discriminate;
          destruct (hex_val h4) as [x4|]; try discriminate.
        cbn [andb].
        destruct (read_string r2) as [[t' rest]|] eqn:E2; [|discriminate].
        injection E as _ <-. apply (IH r2 t' rest); [simpl in Hlen; lia|exact E2].
      * destruct (unescape e); [|discriminate].
        destruct (read_string r1) as [[t' rest]|] eqn:E2; [|discriminate].
        injection E as _ <-. apply (IH r1 t' rest); [simpl in Hlen; lia|exact E2].
    + destruct (N_of_ascii c <? 32)%N; [discriminate|].
      destruct (read_string s) as [[t' rest]|] eqn:E2; [|discriminate].
      injection E as _ <-. apply (IH s t' rest); [lia|exact E2].
Qed.

Lemma read_scan_string s t r :
  read_string s = Some (t, r) -> scan_string s = Some r.
Proof. apply (read_scan_string_len (length s)). lia. Qed.

Lemma starts_fraction_scan rest :
  starts_fraction rest = false ->
  scan_fraction rest = Some rest /\ scan_exponent rest = Some rest.
Proof.
  destruct rest as [|c rest]; [now split|].
  destruct c as [[] [] [] [] [] [] [] []]; try discriminate; now split.
Qed.

Lemma read_scan_number s v r :
  read_number s = Some (v, r) -> scan_number s = Some r.
Proof.
  unfold read_number, scan_number.
  destruct (read_digits (if starts_minus s then tail s else s)) as [u rest].
  destruct u; try discriminate;
    (destruct (leading_zero _); [discriminate|]); cbn [orb];
    (destruct (starts_fraction rest) eqn:Hf; [discriminate|]);
    intros [= _ <-];
    destruct (starts_fraction_scan rest Hf) as [-> ->]; reflexivity.
Qed.

Lemma read_scan f :
  (forall s v r, read_value f s = Some (v, r) -> scan_value f s = Some r) /\
  (forall s l r, read_elements f s = Some (l, r) -> scan_elements f s = Some r) /\
  (forall s l r, read_members f s = Some (l, r) -> scan_members f s = Some r).
Proof.
  induction f as [|f (IHv & IHe & IHm)]; [repeat split; discriminate|].
  split; [|split].
  - intros s v r E. cbn [read_value scan_value] in *.
    destruct (skip_ws s) as [|c r0]; [discriminate|].
    destruct (Ascii.eqb c "n").
    { destruct (strip "ull" r0); [now injection E as _ <-|discriminate]. }
    destruct (Ascii.eqb c "t").
    { destruct (strip "rue" r0); [now injection E as _ <-|discriminate]. }
    destruct (Ascii.eqb c "f").
    { destruct (strip "alse" r0); [now injection E as _ <-|discriminate]. }
    destruct (Ascii.eqb c "034").
    { destruct (read_string r0) as [[t r']|] eqn:Es; [|discriminate].
      injection E as _ <-. exact (read_scan_string _ _ _ Es). }
    destruct (Ascii.eqb c "[").
    { destruct (closes "]" r0); [now injection E as _ <-|].
      destruct (read_elements f r0) as [[l r']|] eqn:Ee; [|discriminate].
      injection E as _ <-. exact (IHe _ _ _ Ee). }
    destruct (Ascii.eqb c "{").
    { destruct (closes "}" r0); [now injection E as _ <-|].
      destruct (read_members f r0) as [[l r']|] eqn:Em; [|discriminate].
      injection E as _ <-. exact (IHm _ _ _ Em). }
    exact (read_scan_number _ _ _ E).
  - intros s l r E. cbn [read_elements scan_elements] in *.
    destruct (read_value f s) as [[v r1]|] eqn:Ev; [|discriminate].
    rewrite (IHv _ _ _ Ev).
    destruct (skip_ws r1) as [|c r2]; [discriminate|].
    destruct c as [[] [] [] [] [] [] [] []]; try discriminate;
      try (now injection E as _ <-).
    destruct (read_elements f r2) as [[l' r']|] eqn:Ee; [|discriminate].
    injection E as _ <-. exact (IHe _ _ _ Ee).
  - intros s l r E. cbn [read_members scan_members] in *.
    destruct (skip_ws s) as [|c r0]; [discriminate|].
    destruct c as [[] [] [] [] [] [] [] []]; try discriminate.
    destruct (read_string r0) as [[k r1]|] eqn:Es; [|discriminate].
    rewrite (read_scan_string _ _ _ Es).
    destruct (skip_ws r1) as [|c r2]; [discriminate|].
    destruct c as [[] [] [] [] [] [] [] []]; try discriminate.
    destruct (read_value f r2) as [[v r3]|] eqn:Ev; [|discriminate].
    rewrite (IHv _ _ _ Ev).
    destruct (skip_ws r3) as [|c r4]; [discriminate|].
    destruct c as [[] [] [] [] [] [] [] []]; try discriminate;
      try (now injection E as _ <-).
    destruct (read_members f r4) as [[l' r']|] eqn:Em; [|discriminate].
    injection E as _ <-. exact (IHm _ _ _ Em).
Qed.

(** Every text that [parse] reads is a JSON text. *)
Lemma parse_accepts text v : parse text = Some v -> accepts text = true.
Proof.
  unfold parse, parse_chars, accepts, accepts_chars.
  destruct (read_value _ _) as [[v' r]|] eqn:E; [|discriminate].
  destruct (read_scan (S (length (list_ascii_of_string text)))) as (Hv & _).
  rewrite (Hv _ _ _ E). now destruct (skip_ws r).
Qed.

Lemma not_accepted text : accepts text = false -> parse text = None.
Proof.
  intros Hn. destruct (parse text) as [v|] eqn:E; [|reflexivity].
  apply parse_accepts in E. congruence.
Qed.

Lemma skip_ws_length s : (length (skip_ws s) <= length s)%nat.
Proof.
  induction s as [|c s IH]; [reflexivity|]. cbn [skip_ws].
  destruct (is_ws c); simpl; lia.
Qed.

Lemma strip_chars_length p : forall s r,
  strip_chars p s = Some r -> (length r <= length s)%nat.
Proof.
  induction p as [|c p IH]; intros s r E; cbn [strip_chars] in E.
  - injection E as <-. lia.
  - destruct s as [|c' s]; [discriminate|].
    destruct (Ascii.eqb c c'); [|discriminate].
    apply IH in E. simpl. lia.
Qed.

Lemma closes_length d s r : closes d s = Some r -> (length r < length s)%nat.
Proof.
  unfold closes. pose proof (skip_ws_length s) as Hs.
  destruct (skip_ws s) as [|c r0]; [discriminate|].
  destruct (Ascii.eqb c d); [|discriminate]. intros [= <-]. simpl in Hs. lia.
Qed.

Lemma scan_string_length_le n :
  forall s r, (length s <= n)%nat ->
    scan_string s = Some r -> (length r < length s)%nat.
Proof.
  induction n as [|n IH]; intros s r Hlen E.
  - destruct s; [discriminate|simpl in Hlen; lia].
  - destruct s as [|c s]; [discriminate|]. simpl in Hlen.
    cbn [scan_string] in E.
    destruct (Ascii.eqb c "034"); [injection E as <-; simpl; lia|].
    destruct (Ascii.eqb c "\").
    + destruct s as [|e r1]; [discriminate|].
      destruct (Ascii.eqb e "u").
      * destruct r1 as [|h1 [|h2 [|h3 [|h4 r2]]]]; try discriminate.
        destruct (is_hex h1 && is_hex h2 && is_hex h3 && is_hex h4);
          [|discriminate].
        apply IH in E; simpl in *; lia.
      * destruct (unescape e); [|discriminate].
        apply IH in E; simpl in *; lia.
    + destruct (N_of_ascii c <? 32)%N; [discriminate|].
      apply IH in E; simpl in *; lia.
Qed.

Lemma scan_string_length s r :
  scan_string s = Some r -> (length r < length s)%nat.
Proof. apply (scan_string_length_le (length s)). lia. Qed.

Lemma read_digits_length s :
  (length (read_digits s).2 <= length s)%nat /\
  ((read_digits s).1 <> Nil -> (length (read_digits s).2 < length s)%nat).
Proof.
  induction s as [|c s [IH1 IH2]]; [split; [reflexivity|now intros []]|].
  cbn [read_digits]. destruct (digit_of c) as [d|].
  - destruct (read_digits s) as [u r]. cbn [fst snd] in *.
    split; [|intros _]; simpl; lia.
  - cbn [fst snd]. split; [reflexivity|now intros []].
Qed.

Lemma scan_digits_length s r : scan_digits s = Some r -> (length r < length s)%nat.
Proof.
  unfold scan_digits. destruct (read_digits_length s) as [_ H].
  destruct (read_digits s) as [u r0]. cbn [fst snd] in H.
  destruct u; try discriminate; intros [= <-]; apply H; discriminate.
Qed.

Lemma scan_fraction_length s r :
  scan_fraction s = Some r -> (length r <= length s)%nat.
Proof.
  destruct s as [|c s]; [intros [= <-]; reflexivity|].
  destruct c as [[] [] [] [] [] [] [] []]; cbn [scan_fraction];
    try (intros [= <-]; reflexivity).
  intros E%scan_digits_length. simpl. lia.
Qed.

Lemma scan_exponent_length s r :
  scan_exponent s = Some r -> (length r <= length s)%nat.
Proof.
  destruct s as [|c s]; [intros [= <-]; reflexivity|].
  destruct c as [[] [] [] [] [] [] [] []]; cbn [scan_exponent];
    try (intros [= <-]; reflexivity);
    (destruct s as [|c' s'];
       [intros E%scan_digits_length; simpl in *; lia|]);
    destruct c' as [[] [] [] [] [] [] [] []];
    intros E%scan_digits_length; simpl in *; lia.
Qed.

Lemma scan_number_length s r :
  scan_number s = Some r -> (length r < length s)%nat.
Proof.
  unfold scan_number.
  assert (Hs : (length (if starts_minus s then tail s else s) <= length s)%nat).
  { destruct (starts_minus s); [|lia]. destruct s; simpl; lia. }
  destruct (read_digits_length (if starts_minus s then tail s else s)) as [_ H].
  destruct (read_digits (if starts_minus s then tail s else s)) as [u rest].
  cbn [fst snd] in H.
  destruct u; try discriminate;
    (destruct (leading_zero _); [discriminate|]);
    (destruct (scan_fraction rest) as [rest'|] eqn:Ef; [|discriminate]);
    intros Ee%scan_exponent_length; apply scan_fraction_length in Ef;
    assert (length rest < length s)%nat by (specialize (H ltac:(discriminate)); lia);
    lia.
Qed.

(** The fuel a text needs is no more than the characters it takes. *)
Lemma scan_fuel f :
  (forall s r, scan_value f s = Some r ->
     (length r < length s)%nat /\
     forall g, (length s - length r <= g)%nat -> scan_value g s = Some r) /\
  (forall s r, scan_elements f s = Some r ->
     (length r < length s)%nat /\
     forall g, (length s - length r <= g)%nat -> scan_elements g s = Some r) /\
  (forall s r, scan_members f s = Some r ->
     (length r < length s)%nat /\
     forall g, (length s - length r <= g)%nat -> scan_members g s = Some r).
Proof.
  induction f as [|f (IHv & IHe & IHm)]; [repeat split; discriminate|].
  split; [|split].
  - intros s r E. cbn [scan_value] in E.
    pose proof (skip_ws_length s) as Hs.
    destruct (skip_ws s) as [|c r0] eqn:Ews; [discriminate|]. simpl in Hs.
    assert (Hatom : forall k : option (list ascii),
               k = Some r -> (length r <= length r0)%nat ->
               (length r < length s)%nat /\
               forall g, (length s - length r <= g)%nat ->
                 match g with
                 | O => None
                 | S _ => k
                 end = Some r).
    { intros k -> Hr. split; [lia|]. intros [|g] Hg; [lia|reflexivity]. }
    destruct (Ascii.eqb c "n") eqn:Hn.
    { destruct (Hatom _ E) as [Hl Hg];
        [apply (strip_chars_length _ _ _ E)|].
      split; [exact Hl|]. intros g Hle. specialize (Hg g Hle).
      destruct g; [discriminate|]. cbn [scan_value]. now rewrite Ews, Hn. }
    destruct (Ascii.eqb c "t") eqn:Ht.
    { destruct (Hatom _ E) as [Hl Hg];
        [apply (strip_chars_length _ _ _ E)|].
      split; [exact Hl|]. intros g Hle. specialize (Hg g Hle).
      destruct g; [discriminate|]. cbn [scan_value]. now rewrite Ews, Hn, Ht. }
    destruct (Ascii.eqb c "f") eqn:Hf.
    { destruct (Hatom _ E) as [Hl Hg];
        [apply (strip_chars_length _ _ _ E)|].
      split; [exact Hl|]. intros g Hle. specialize (Hg g Hle).
      destruct g; [discriminate|]. cbn [scan_value]. now rewrite Ews, Hn, Ht, Hf. }
    destruct (Ascii.eqb c "034") eqn:Hq.
    { destruct (Hatom _ E) as [Hl Hg];
        [apply scan_string_length in E; lia|].
      split; [exact Hl|]. intros g Hle. specialize (Hg g Hle).
      destruct g; [discriminate|]. cbn [scan_value].
      now rewrite Ews, Hn, Ht, Hf, Hq. }
    destruct (Ascii.eqb c "[") eqn:Ha.
    { destruct (closes "]" r0) as [r'|] eqn:Ec.
      - destruct (Hatom _ E) as [Hl Hg];
          [injection E as <-; apply closes_length in Ec; lia|].
        split; [exact Hl|]. intros g Hle. specialize (Hg g Hle).
        destruct g; [discriminate|]. cbn [scan_value].
        now rewrite Ews, Hn, Ht, Hf, Hq, Ha, Ec.
      - destruct (IHe _ _ E) as [Hl Hg]. split; [lia|].
        intros [|g] Hle; [lia|]. cbn [scan_value].
        rewrite Ews, Hn, Ht, Hf, Hq, Ha, Ec. apply Hg. lia. }
    destruct (Ascii.eqb c "{") eqn:Ho.
    { destruct (closes "}" r0) as [r'|] eqn:Ec.
      - destruct (Hatom _ E) as [Hl Hg];
          [injection E as <-; apply closes_length in Ec; lia|].
        split; [exact Hl|]. intros g Hle. specialize (Hg g Hle).
        destruct g; [discriminate|]. cbn [scan_value].
        now rewrite Ews, Hn, Ht, Hf, Hq, Ha, Ho, Ec.
      - destruct (IHm _ _ E) as [Hl Hg]. split; [lia|].
        intros [|g] Hle; [lia|]. cbn [scan_value].
        rewrite Ews, Hn, Ht, Hf, Hq, Ha, Ho, Ec. apply Hg. lia. }
    destruct (Hatom _ E) as [Hl Hg];
      [apply scan_number_length in E; simpl in E; lia|].
    split; [exact Hl|]. intros g Hle. specialize (Hg g Hle).
    destruct g; [discriminate|]. cbn [scan_value].
    now rewrite Ews, Hn, Ht, Hf, Hq, Ha, Ho.
  - intros s r E. cbn [scan_elements] in E.
    destruct (scan_value f s) as [r1|] eqn:Ev; [|discriminate].
    destruct (IHv _ _ Ev) as [Hl1 Hg1].
    pose proof (skip_ws_length r1) as Hs.
    destruct (skip_ws r1) as [|c r2] eqn:Ews; [discriminate|]. simpl in Hs.
    destruct (Ascii.eqb_spec c ",") as [->|Hc1].
    + destruct (IHe _ _ E) as [Hl2 Hg2]. split; [lia|].
      intros [|g] Hle; [lia|]. cbn [scan_elements].
      rewrite Hg1 by lia. rewrite Ews. apply Hg2. lia.
    + destruct (Ascii.eqb_spec c "]") as [->|Hc2].
      * injection E as <-. split; [lia|].
        intros [|g] Hle; [lia|]. cbn [scan_elements].
        rewrite Hg1 by lia. now rewrite Ews.
      * exfalso. destruct c as [[] [] [] [] [] [] [] []];
          try discriminate E; congruence.
  - intros s r E. cbn [scan_members] in E.
    pose proof (skip_ws_length s) as Hs0.
    destruct (skip_ws s) as [|q r0] eqn:Ews0; [discriminate|]. simpl in Hs0.
    destruct (Ascii.eqb_spec q "034") as [->|Hq].
    2:{ exfalso. destruct q as [[] [] [] [] [] [] [] []];
          try discriminate E; congruence. }
    destruct (scan_string r0) as [r1|] eqn:Estr; [|discriminate].
    pose proof (scan_string_length _ _ Estr) as Hl0.
    pose proof (skip_ws_length r1) as Hs1.
    destruct (skip_ws r1) as [|c r2] eqn:Ews1; [discriminate|]. simpl in Hs1.
    destruct (Ascii.eqb_spec c ":") as [->|Hc].
    2:{ exfalso. destruct c as [[] [] [] [] [] [] [] []];
          try discriminate E; congruence. }
    destruct (scan_value f r2) as [r3|] eqn:Ev; [|discriminate].
    destruct (IHv _ _ Ev) as [Hl1 Hg1].
    pose proof (skip_ws_length r3) as Hs3.
    destruct (skip_ws r3) as [|c r4] eqn:Ews3; [discriminate|]. simpl in Hs3.
    destruct (Ascii.eqb_spec c ",") as [->|Hc1].
    + destruct (IHm _ _ E) as [Hl2 Hg2]. split; [lia|].
      intros [|g] Hle; [lia|]. cbn [scan_members].
      rewrite Ews0, Estr, Ews1, Hg1 by lia. rewrite Ews3. apply Hg2. lia.
    + destruct (Ascii.eqb_spec c "}") as [->|Hc2].
      * injection E as <-. split; [lia|].
        intros [|g] Hle; [lia|]. cbn [scan_members].
        rewrite Ews0, Estr, Ews1, Hg1 by lia. now rewrite Ews3.
      * exfalso. destruct c as [[] [] [] [] [] [] [] []];
          try discriminate E; congruence.
Qed.

(** A text is accepted exactly when some amount of fuel follows a value to
    its end, with nothing but white space after it: the fuel that
    [accepts] gives is enough for every text. *)
Lemma accepts_chars_spec s :
  accepts_chars s = true
  <-> exists f r, scan_value f s = Some r /\ skip_ws r = [].
Proof.
  unfold accepts_chars. split.
  - destruct (scan_value (S (length s)) s) as [r|] eqn:E; [|discriminate].
    destruct (skip_ws r) eqn:Ews; [|discriminate]. eauto.
  - intros (f & r & E & Ews). destruct (scan_fuel f) as (Hv & _).
    destruct (Hv _ _ E) as [_ Hg]. rewrite Hg by lia. now rewrite Ews.
Qed.

End JSONFacts.

(** * Properties of property lists *)

Module JsFacts.

Lemma assoc_obj_set_ne k k' x l :
  k <> k' -> Js.assoc k (Js.obj_set k' x l) = Js.assoc k l.
Proof.
  intros Hne. induction l as [|[k0 y] l IH]; cbn.
  - destruct (String.eqb_spec k k'); [congruence|reflexivity].
  - destruct (String.eqb_spec k' k0) as [->|Hk0]; cbn.
    + destruct (String.eqb_spec k k0); [congruence|reflexivity].
    + destruct (String.eqb_spec k k0); [reflexivity|exact IH].
Qed.

Lemma assoc_obj_set_eq k x l : Js.assoc k (Js.obj_set k x l) = Some x.
Proof.
  induction l as [|[k0 y] l IH]; cbn.
  - now rewrite String.eqb_refl.
  - destruct (String.eqb_spec k k0) as [->|Hk0]; cbn.
    + now rewrite String.eqb_refl.
    + destruct (String.eqb_spec k k0); [congruence|exact IH].
Qed.

(** Copying the properties of [l] onto [o]: a key of [l] gets its last
    value in [l], any other key keeps what [o] had. *)
Lemma assoc_fold_obj_set k l o :
  Js.assoc k (fold_left (fun acc kv => Js.obj_set kv.1 kv.2 acc) l o)
  = match Js.assoc k (rev l) with
    | Some x => Some x
    | None => Js.assoc k o
    end.
Proof.
  revert o. induction l as [|[k' x] l IH]; intros o; [reflexivity|].
  cbn [fold_left fst snd rev]. rewrite IH. clear IH.
  induction (rev l) as [|[k0 y] r IHr]; cbn.
  - destruct (String.eqb_spec k k') as [->|Hne].
    + apply assoc_obj_set_eq.
    + now apply assoc_obj_set_ne.
  - destruct (String.eqb_spec k k0); [reflexivity|exact IHr].
Qed.

Lemma assoc_None_notin k (l : list (string * value)) :
  Js.assoc k l = None <-> k ∉ l.*1.
Proof.
  induction l as [|[k0 y] l IH]; cbn.
  - split; [intros _ Hin; inversion Hin|reflexivity].
  - destruct (String.eqb_spec k k0) as [->|Hne].
    + split; [discriminate|]. intros Hnot. exfalso. apply Hnot. left.
    + rewrite IH. split.
      * intros Hnot Hin. inversion Hin; subst; [congruence|auto].
      * intros Hnot Hin. apply Hnot. now right.
Qed.

Lemma assoc_Some_elem k x (l : list (string * value)) :
  NoDup l.*1 -> (Js.assoc k l = Some x <-> (k, x) ∈ l).
Proof.
  induction l as [|[k0 y] l IH]; cbn; intros Hnd.
  - split; [discriminate|]. intros Hin. inversion Hin.
  - apply NoDup_cons in Hnd as [Hk0 Hnd].
    destruct (String.eqb_spec k k0) as [->|Hne].
    + split.
      * intros [= ->]. left.
      * intros Hin. inversion Hin; subst; [reflexivity|].
        exfalso. apply Hk0. apply list_elem_of_fmap. now exists (k0, x).
    + rewrite (IH Hnd). split.
      * intros Hin. now right.
      * intros Hin. inversion Hin; subst; [congruence|assumption].
Qed.

(** On a property list without a repeated key, the value of a key does
    not depend on the order of the properties. *)
Lemma assoc_Permutation k (l1 l2 : list (string * value)) :
  NoDup l1.*1 -> l1 ≡ₚ l2 -> Js.assoc k l1 = Js.assoc k l2.
Proof.
  intros Hnd Hperm.
  assert (Hnd2 : NoDup l2.*1) by now rewrite <- Hperm.
  destruct (Js.assoc k l1) as [x|] eqn:E1.
  - symmetry. apply assoc_Some_elem; [assumption|].
    rewrite <- Hperm. now apply assoc_Some_elem.
  - symmetry. apply assoc_None_notin. rewrite <- Hperm.
    now apply assoc_None_notin.
Qed.

Lemma index_key_not_id i : Js.index_key i <> "id".
Proof.
  unfold Js.index_key, Numeral.string_of_Z.
  destruct (JSONFacts.chars_of_Z_head (Z.of_nat i)) as (c & r & -> & Hc).
  cbn. intros E. injection E as E1 _. subst c.
  destruct Hc as [Hc|Hc]; discriminate Hc.
Qed.

Lemma assoc_imap_index {A : Type} (f : A -> value) (l : list A) (n : nat) :
  Js.assoc "id" (rev (imap (fun i x => (Js.index_key (n + i), f x)) l)) = None.
Proof.
  apply assoc_None_notin. intros Hin.
  apply list_elem_of_fmap in Hin as ([k x] & Heq & Hin). cbn in Heq. subst k.
  rewrite list_elem_of_In in Hin. apply in_rev in Hin.
  rewrite <- list_elem_of_In in Hin.
  apply elem_of_lookup_imap in Hin as (i & y & [= Hk _] & _).
  symmetry in Hk. exact (index_key_not_id _ Hk).
Qed.

(** The id of a record built as an id followed by the spread of a payload:
    the payload's own id when it has one, the given id otherwise. *)
Lemma assoc_id_spread agentId data :
  Js.assoc "id" (Js.spread [("id", agentId)] data)
  = Some (default agentId
            match data with
            | Obj l => Js.assoc "id" (rev l)
            | _ => None
            end).
Proof.
  destruct data as [| | | |s|l|l]; try reflexivity; cbn [Js.spread];
    rewrite assoc_fold_obj_set.
  - now rewrite (assoc_imap_index (fun c => Str (String c EmptyString)) _ 0).
  - now rewrite (assoc_imap_index (fun x => x) _ 0).
  - now destruct (Js.assoc "id" (rev l)).
Qed.

End JsFacts.

(** * Properties of the file cache *)

Module FileCacheFacts.
Import JSON JSONFacts FileCache.

Section WithRuntime.
Context `{Runtime}.

(** The text of an entry. *)
Definition entry_text (expiresAt : Z) (v : value) : string :=
  string_of_list_ascii (stringify_chars (entry expiresAt v)).

Lemma set_positive fs now key v ttl :
  0 < ttl ->
  set fs now key v ttl
  = <[_getFilePath key := entry_text (now + ttl * 1000) v]> fs.
Proof.
  intros Httl. unfold set. destruct (Z.leb_spec ttl 0); [lia|]. reflexivity.
Qed.

Lemma entry_serializable e v :
  v <> Undefined -> serializable (entry e v) = true.
Proof.
  intros Hv. unfold entry.
  destruct v; try congruence; vm_compute; reflexivity.
Qed.

Lemma parse_entry_text e v :
  v <> Undefined -> parse (entry_text e v) = Some (entry e v).
Proof.
  intros Hv. destruct (parse_stringify (entry e v) (entry_serializable e v Hv))
    as (text & Ht & Hp).
  change (stringify (entry e v)) with (Some (entry_text e v)) in Ht.
  injection Ht as <-. exact Hp.
Qed.

Lemma exists_lookup (fs : FS) p text :
  fs !! p = Some text -> Fs.existsSync fs p = true.
Proof. intros E. unfold Fs.existsSync. rewrite E. reflexivity. Qed.

Lemma exists_lookup_None (fs : FS) p :
  fs !! p = None -> Fs.existsSync fs p = false.
Proof.
  intros E. unfold Fs.existsSync. rewrite E. apply bool_decide_eq_false.
  now intros [x Hx].
Qed.

(** What [get] answers on a file that [set] wrote. *)
Definition stored (v : value) : completion value :=
  if Js.is_string v then Normal v
  else match stringify v with
       | Some text => parse_value (Str text)
       | None => Normal Undefined
       end.

Lemma get_try_entry fs now p e v :
  fs !! p = Some (entry_text e v) ->
  v <> Undefined ->
  get_try fs now p =
  if negb (e =? 0) && (e <? now) then (Normal Undefined, base.delete p fs)
  else (stored v, fs).
Proof.
  intros Hp Hv. unfold get_try, Fs.readFileSync. rewrite Hp.
  rewrite (parse_entry_text e v Hv).
  unfold entry.
  cbn [Js.prop Js.assoc String.eqb Ascii.eqb Bool.eqb default from_option id].
  assert (Hz : strict_neq_0 (Num e) = negb (e =? 0)) by (destruct e; reflexivity).
  rewrite Hz. cbn [now_gt].
  destruct (negb (e =? 0) && (e <? now)).
  - unfold Fs.unlinkSync. rewrite Hp. reflexivity.
  - unfold stored. destruct v; try congruence; reflexivity.
Qed.

Lemma get_entry fs now key e v :
  fs !! _getFilePath key = Some (entry_text e v) ->
  v <> Undefined ->
  serializable v = true ->
  get fs now key =
  if negb (e =? 0) && (e <? now)
  then (Normal Undefined, base.delete (_getFilePath key) fs)
  else (Normal v, fs).
Proof.
  intros Hp Hv Hser. unfold get. cbv zeta.
  rewrite (exists_lookup _ _ _ Hp). cbn [negb].
  rewrite (get_try_entry _ _ _ _ _ Hp Hv).
  destruct (negb (e =? 0) && (e <? now)); [reflexivity|].
  unfold stored. destruct (Js.is_string v); [reflexivity|].
  destruct (parse_stringify v Hser) as (text & -> & Hparse).
  unfold parse_value. cbn [Coerce.to_string]. rewrite Hparse. reflexivity.
Qed.

Lemma serializable_defined v : serializable v = true -> v <> Undefined.
Proof. intros Hs ->. discriminate Hs. Qed.

(** C5: a value written with a positive ttl is read back unchanged, with
    its shape, as long as the clock has not passed the expiry time. *)
Theorem set_get_round_trip fs now0 now1 key v ttl :
  serializable v = true ->
  0 < ttl ->
  now1 <= now0 + ttl * 1000 ->
  get (set fs now0 key v ttl) now1 key = (Normal v, set fs now0 key v ttl).
Proof.
  intros Hser Httl Hnow. rewrite set_positive by assumption.
  rewrite (get_entry _ now1 key (now0 + ttl * 1000) v).
  - destruct (Z.ltb_spec (now0 + ttl * 1000) now1); [lia|].
    now rewrite andb_false_r.
  - apply lookup_insert_eq.
  - now apply serializable_defined.
  - assumption.
Qed.

Lemma set_nonpositive fs now key v ttl : ttl <= 0 -> set fs now key v ttl = fs.
Proof.
  intros Httl. unfold set. destruct (Z.leb_spec ttl 0); [reflexivity|lia].
Qed.

(** C6: with a ttl that is not positive, [set] returns the store it was
    given; a [get] after it on a key without a file answers undefined. *)
Theorem set_nonpositive_ttl_noop fs now now1 key v ttl :
  ttl <= 0 ->
  set fs now key v ttl = fs /\
  (fs !! _getFilePath key = None ->
   get (set fs now key v ttl) now1 key = (Normal Undefined, fs)).
Proof.
  intros Httl. split; [now apply set_nonpositive|].
  intros Hnone. rewrite set_nonpositive by assumption. unfold get. cbv zeta.
  now rewrite (exists_lookup_None _ _ Hnone).
Qed.

(** Whatever [set] was given, the file it writes parses to an object whose
    expiry time is the one [set] computed. *)
Lemma parse_entry_text_any e v :
  exists o, parse (entry_text e v) = Some o /\
            Js.prop "expiresAt" o = Normal (Num e).
Proof.
  destruct v as [| | | | | |] eqn:E;
    try (eexists; split; [apply parse_entry_text; congruence|reflexivity]).
  exists (Obj [("type", Str "json"); ("expiresAt", Num e)]). split; [|reflexivity].
  destruct (parse_stringify (Obj [("type", Str "json"); ("expiresAt", Num e)]))
    as (text & Ht & Hparse); [vm_compute; reflexivity|].
  injection Ht as <-. exact Hparse.
Qed.

End WithRuntime.

(** A runtime to run the definitions with: the hash is replaced by the
    identity, and no string compares below the clock. *)
Definition sample_runtime : Runtime :=
  {| sha256_hex := fun text => text; now_gt_string := fun _ _ => false |}.

Definition sample_value : value :=
  Obj [("data", Obj [("agent", Arr [Obj [("agentId", Num 7)]; Null]);
                     ("note", Str "a b")])].

Lemma set_get_round_trip_witness :
  get (H := sample_runtime) (set ∅ 1000 "k" sample_value 60) 61000 "k"
  = (Normal sample_value, set ∅ 1000 "k" sample_value 60).
Proof.
  apply (set_get_round_trip (H := sample_runtime) ∅ 1000 61000 "k" sample_value 60);
    [vm_compute; reflexivity|lia|lia].
Defined.

Lemma set_nonpositive_ttl_noop_witness :
  set ∅ 1000 "k" sample_value 0 = ∅ /\
  get (H := sample_runtime) (set ∅ 1000 "k" sample_value 0) 2000 "k"
  = (Normal Undefined, ∅).
Proof.
  destruct (set_nonpositive_ttl_noop (H := sample_runtime)
              ∅ 1000 2000 "k" sample_value 0 ltac:(lia)) as [Hset Hget].
  split; [exact Hset|]. apply Hget. apply lookup_empty.
Defined.

End FileCacheFacts.

(** * The file cache on keys in full *)

Module Utf16Facts.
Import JSON JSONFacts FileCacheFacts.

Lemma encode_byte c rest :
  Utf16.encode (N_of_ascii c :: rest)
  = Utf16.prepend (FileCache.encode_unit c) (Utf16.encode rest).
Proof. destruct c as [[] [] [] [] [] [] [] []]; reflexivity. Qed.

Lemma encode_bytes (l : list ascii) :
  Utf16.encode (N_of_ascii <$> l) = Normal (flat_map FileCache.encode_unit l).
Proof.
  induction l as [|c l IH]; [reflexivity|].
  rewrite fmap_cons, encode_byte, IH. reflexivity.
Qed.

(** On a key of code units below 256 the functions on keys in full are
    those of [FileCache]. *)
Lemma getFilePath_units s :
  Utf16._getFilePath (Utf16.units s) = Normal (FileCache._getFilePath s).
Proof.
  unfold Utf16._getFilePath, Utf16.encodeURIComponent, Utf16.units.
  now rewrite encode_bytes.
Qed.

Lemma get_units `{Runtime} (fs : FS) now s :
  Utf16.get fs now (Utf16.units s) = FileCache.get fs now s.
Proof. unfold Utf16.get. now rewrite getFilePath_units. Qed.

Lemma set_units (fs : FS) now s v ttl :
  Utf16.set fs now (Utf16.units s) v ttl = (Normal tt, FileCache.set fs now s v ttl).
Proof.
  unfold Utf16.set, FileCache.set. rewrite getFilePath_units.
  destruct (ttl <=? 0); [reflexivity|]. cbv zeta.
  now destruct (stringify _).
Qed.

Lemma unescaped_plain u :
  Utf16.unescaped u = true -> Utf16.is_lead u = false /\ Utf16.is_trail u = false.
Proof.
  unfold Utf16.unescaped, Utf16.is_lead, Utf16.is_trail.
  intros [Hu _]%andb_true_iff. apply N.ltb_lt in Hu.
  split; apply andb_false_iff; left; apply N.leb_gt; lia.
Qed.

Lemma lead_not_trail u : Utf16.is_lead u = true -> Utf16.is_trail u = false.
Proof.
  unfold Utf16.is_lead, Utf16.is_trail.
  intros [_ Hu]%andb_true_iff. apply N.leb_le in Hu.
  apply andb_false_iff; left; apply N.leb_gt; lia.
Qed.

Lemma encode_well_formed_le n :
  forall s, (length s <= n)%nat ->
    match Utf16.encode s with
    | Normal _ => Utf16.isWellFormed s = true
    | Throw e => e = URIError /\ Utf16.isWellFormed s = false
    end.
Proof.
  induction n as [|n IH]; intros s Hlen.
  - destruct s; [reflexivity|simpl in Hlen; lia].
  - destruct s as [|u rest]; [reflexivity|]. simpl in Hlen.
    cbn [Utf16.encode Utf16.isWellFormed].
    destruct (Utf16.unescaped u) eqn:Hun.
    + destruct (unescaped_plain u Hun) as [-> ->]. cbn [negb andb].
      specialize (IH rest ltac:(lia)).
      now destruct (Utf16.encode rest).
    + destruct (Utf16.is_trail u) eqn:Ht.
      * destruct (Utf16.is_lead u) eqn:Hl; [|now split].
        apply lead_not_trail in Hl. congruence.
      * destruct (Utf16.is_lead u) eqn:Hl.
        -- destruct rest as [|v rest']; [now split|].
           destruct (Utf16.is_trail v); [|now split]. cbn [andb].
           specialize (IH rest' ltac:(simpl in Hlen; lia)).
           now destruct (Utf16.encode rest').
        -- cbn [negb andb]. specialize (IH rest ltac:(lia)).
           now destruct (Utf16.encode rest).
Qed.

(** [encodeURIComponent] throws exactly on the keys that are not well
    formed, and then what it throws is a URIError. *)
Lemma getFilePath_well_formed key :
  match Utf16._getFilePath key with
  | Normal _ => Utf16.isWellFormed key = true
  | Throw e => e = URIError /\ Utf16.isWellFormed key = false
  end.
Proof.
  unfold Utf16._getFilePath, Utf16.encodeURIComponent.
  pose proof (encode_well_formed_le (length key) key ltac:(lia)) as Hk.
  now destruct (Utf16.encode key).
Qed.

Lemma well_formed_path key :
  Utf16.isWellFormed key = true -> exists p, Utf16._getFilePath key = Normal p.
Proof.
  intros Hwf. pose proof (getFilePath_well_formed key) as Hk.
  destruct (Utf16._getFilePath key) as [p|e]; [eauto|].
  destruct Hk as [_ Hk]. congruence.
Qed.

Section WithRuntime.
Context `{Runtime}.

Lemma get_at_normal (fs : FS) now key p :
  Utf16._getFilePath key = Normal p ->
  exists v fs', Utf16.get fs now key = (Normal v, fs').
Proof.
  intros Hp. unfold Utf16.get. rewrite Hp.
  destruct (negb (Fs.existsSync fs p)); [eauto|].
  destruct (FileCache.get_try fs now p) as [[v|e] fs']; [eauto|].
  destruct (Fs.unlinkSync fs' p) as [c fs'']. eauto.
Qed.

Lemma get_at_unparseable (fs : FS) now key p content :
  Utf16._getFilePath key = Normal p ->
  fs !! p = Some content ->
  parse content = None ->
  Utf16.get fs now key = (Normal Undefined, base.delete p fs).
Proof.
  intros Hk Hp Hparse. unfold Utf16.get. rewrite Hk.
  rewrite (exists_lookup _ _ _ Hp). cbn [negb].
  unfold FileCache.get_try, Fs.readFileSync. rewrite Hp, Hparse.
  unfold Fs.unlinkSync. now rewrite Hp.
Qed.

Lemma get_at_expired (fs : FS) now key p content e n :
  Utf16._getFilePath key = Normal p ->
  fs !! p = Some content ->
  parse content = Some e ->
  Js.prop "expiresAt" e = Normal (Num n) ->
  n <> 0 ->
  n < now ->
  Utf16.get fs now key = (Normal Undefined, base.delete p fs).
Proof.
  intros Hk Hp Hparse Hexp Hn0 Hlt. unfold Utf16.get. rewrite Hk.
  rewrite (exists_lookup _ _ _ Hp). cbn [negb].
  unfold FileCache.get_try, Fs.readFileSync. rewrite Hp, Hparse.
  destruct e as [| | | | | |l]; try discriminate Hexp.
  cbn [Js.prop] in *. injection Hexp as Hexp. rewrite Hexp.
  assert (Hz : FileCache.strict_neq_0 (Num n) = true)
    by (destruct n; [lia|reflexivity..]).
  rewrite Hz. cbn [FileCache.now_gt andb].
  destruct (Z.ltb_spec n now); [|lia].
  unfold Fs.unlinkSync. now rewrite Hp.
Qed.

Lemma set_at (fs : FS) now key p v ttl :
  Utf16._getFilePath key = Normal p ->
  0 < ttl ->
  Utf16.set fs now key v ttl
  = (Normal tt, <[p := entry_text (now + ttl * 1000) v]> fs).
Proof.
  intros Hk Httl. unfold Utf16.set. rewrite Hk.
  destruct (Z.leb_spec ttl 0); [lia|]. reflexivity.
Qed.


(** C7, as the code has it: on a key that is well formed, [get] completes
    normally whatever the store holds.  A file whose text is not JSON, and
    a file whose expiry time is a nonzero timestamp in the past, are
    unlinked and the answer is undefined; so it is for a file that [set]
    wrote once its ttl has elapsed, and the file is then gone. *)
Theorem get_never_raises_well_formed (fs : FS) now key :
  Utf16.isWellFormed key = true ->
  exists filePath,
    Utf16._getFilePath key = Normal filePath /\
    (exists v fs', Utf16.get fs now key = (Normal v, fs')) /\
    (forall content,
        fs !! filePath = Some content ->
        accepts content = false ->
        Utf16.get fs now key = (Normal Undefined, base.delete filePath fs)) /\
    (forall content e n,
        fs !! filePath = Some content ->
        parse content = Some e ->
        Js.prop "expiresAt" e = Normal (Num n) ->
        n <> 0 -> n < now ->
        Utf16.get fs now key = (Normal Undefined, base.delete filePath fs)) /\
    (forall now0 v ttl,
        0 <= now0 -> 0 < ttl -> now0 + ttl * 1000 < now ->
        exists fs1 fs',
          Utf16.set fs now0 key v ttl = (Normal tt, fs1) /\
          Utf16.get fs1 now key = (Normal Undefined, fs') /\
          Fs.existsSync fs' filePath = false).
Proof.
  intros Hwf. destruct (well_formed_path key Hwf) as (p & Hp).
  exists p. split; [exact Hp|].
  split; [now apply (get_at_normal fs now key p)|].
  split; [|split].
  - intros content Hc Hno. apply (get_at_unparseable fs now key p content Hp Hc).
    now apply not_accepted.
  - intros content e n. now apply get_at_expired.
  - intros now0 v ttl H0 Httl Hnow.
    destruct (parse_entry_text_any (now0 + ttl * 1000) v) as (o & Hparse & Hexp).
    eexists _, _. split; [exact (set_at fs now0 key p v ttl Hp Httl)|]. split.
    + apply (get_at_expired _ now key p (entry_text (now0 + ttl * 1000) v) o
                            (now0 + ttl * 1000)); try assumption; try lia.
      apply lookup_insert_eq.
    + apply exists_lookup_None, lookup_delete_eq.
Qed.

End WithRuntime.

(** The claim of C7 fails on a key with a leading surrogate and nothing
    after it: [encodeURIComponent] throws, outside the [try] block, and
    [get] throws its URIError to the caller. *)
Lemma get_raises_on_lone_surrogate :
  Utf16.isWellFormed [55357%N] = false /\
  Utf16.get (H := sample_runtime) ∅ 0 [55357%N] = (Throw URIError, ∅).
Proof. split; reflexivity. Qed.

(** The key is a letter followed by a surrogate pair. *)
Definition pair_key : list N := [107; 55357; 56832]%N.

Definition pair_path : string := "./.cache/k%F0%9F%98%80.cache".

Lemma get_never_raises_well_formed_witness :
  Utf16._getFilePath pair_key = Normal pair_path /\
  (exists v fs',
      Utf16.get (H := sample_runtime) (<[pair_path := "1.5"]> ∅) 5 pair_key
      = (Normal v, fs')) /\
  Utf16.get (H := sample_runtime) (<[pair_path := "{oops"]> ∅) 5 pair_key
  = (Normal Undefined, base.delete pair_path (<[pair_path := "{oops"]> ∅)) /\
  Utf16.get (H := sample_runtime)
            (<[pair_path := entry_text 7 (Str "x")]> ∅) 8 pair_key
  = (Normal Undefined,
     base.delete pair_path (<[pair_path := entry_text 7 (Str "x")]> ∅)) /\
  exists fs1 fs',
    Utf16.set ∅ 1000 pair_key sample_value 60 = (Normal tt, fs1) /\
    Utf16.get (H := sample_runtime) fs1 61001 pair_key = (Normal Undefined, fs') /\
    Fs.existsSync fs' pair_path = false.
Proof.
  split; [reflexivity|]. split; [|split; [|split]].
  - destruct (get_never_raises_well_formed (H := sample_runtime)
                (<[pair_path := "1.5"]> ∅) 5 pair_key eq_refl)
      as (p & _ & Hnormal & _).
    exact Hnormal.
  - destruct (get_never_raises_well_formed (H := sample_runtime)
                (<[pair_path := "{oops"]> ∅) 5 pair_key eq_refl)
      as (p & Hp & _ & Hbad & _).
    injection Hp as <-. apply (Hbad "{oops"); [apply lookup_insert_eq|reflexivity].
  - destruct (get_never_raises_well_formed (H := sample_runtime)
                (<[pair_path := entry_text 7 (Str "x")]> ∅) 8 pair_key eq_refl)
      as (p & Hp & _ & _ & Hold & _).
    injection Hp as <-.
    apply (Hold (entry_text 7 (Str "x"))
                (FileCache.entry 7 (Str "x")) 7);
      [apply lookup_insert_eq|reflexivity|reflexivity|lia|lia].
  - destruct (get_never_raises_well_formed (H := sample_runtime)
                ∅ 61001 pair_key eq_refl) as (p & Hp & _ & _ & _ & Hgone).
    injection Hp as <-. apply (Hgone 1000 sample_value 60); lia.
Defined.

End Utf16Facts.

(** * Properties of the proxy rotation *)

Module ProxyFacts.
Import Proxy.

(** [n] consecutive calls of [getProxyAgent]: the pool index each call
    read and what the call settled with, in call order, and the state
    after.  [response] is what the credential service would answer. *)
Fixpoint acquire (response : completion (list proxyData)) (n : nat) (p : t)
  : list (nat * outcome string) * t :=
  match n with
  | O => ([], p)
  | S n' =>
      let '(agent, p1) := getProxyAgent response p in
      let '(rest, p2) := acquire response n' p1 in
      ((slot p, agent) :: rest, p2)
  end.

Definition step (p : t) : t := {| proxies := proxies p; index := S (index p) |}.

(** On a loaded pool an acquisition does not consult the credential
    service: it returns the agent of the entry at the current index and
    advances the counter. *)
Lemma pool_getProxyAgent_loaded response p :
  proxies p <> [] ->
  exists d,
    proxies p !! slot p = Some d /\
    getProxyAgent response p = (Resolved (proxyUrl d), step p).
Proof.
  intros Hne.
  assert (HN : (0 < length (proxies p))%nat)
    by (destruct (proxies p); [congruence|cbn; lia]).
  destruct (lookup_lt_is_Some_2 (proxies p) (slot p)) as [d Hd].
  { unfold slot. now apply Nat.mod_upper_bound, Nat.neq_0_lt_0. }
  exists d. split; [exact Hd|].
  unfold getProxyAgent, _getNextProxy. cbv zeta.
  destruct (Nat.eqb_spec (length (proxies p)) 0) as [E|_]; [lia|].
  now rewrite Hd.
Qed.

Lemma acquire_lookup response n p k :
  proxies p <> [] ->
  (k < n)%nat ->
  (acquire response n p).1 !! k
  = (fun d => (((index p + k) mod length (proxies p))%nat,
               Resolved (proxyUrl d)))
    <$> proxies p !! ((index p + k) mod length (proxies p))%nat.
Proof.
  revert p k. induction n as [|n IH]; intros p k Hne Hk; [lia|].
  cbn [acquire].
  destruct (pool_getProxyAgent_loaded response p Hne) as (d & Hd & ->).
  destruct (acquire response n (step p)) as [rest p2] eqn:E.
  destruct k as [|k].
  - cbn. unfold slot in *. now rewrite Nat.add_0_r, Hd.
  - cbn [fst lookup list_lookup].
    change rest with (rest, p2).1. rewrite <- E, IH by (assumption || lia).
    cbn [proxies index step].
    now replace (S (index p) + k)%nat with (index p + S k)%nat by lia.
Qed.

Lemma acquire_length response n p : length (acquire response n p).1 = n.
Proof.
  revert p. induction n as [|n IH]; intros p; [reflexivity|].
  cbn [acquire]. destruct (getProxyAgent response p) as [agent p1].
  specialize (IH p1). destruct (acquire response n p1) as [rest p2].
  cbn in *. now rewrite IH.
Qed.

Lemma acquire_state response n p :
  proxies p <> [] ->
  (acquire response n p).2
  = {| proxies := proxies p; index := (index p + n)%nat |}.
Proof.
  revert p. induction n as [|n IH]; intros p Hne.
  - cbn. destruct p. cbn. now rewrite Nat.add_0_r.
  - cbn [acquire].
    destruct (pool_getProxyAgent_loaded response p Hne) as (d & _ & ->).
    specialize (IH (step p) Hne).
    destruct (acquire response n (step p)) as [rest p2].
    cbn in *. rewrite IH. f_equal. lia.
Qed.

Lemma rotate_Permutation {A} n (l : list A) : rotate n l ≡ₚ l.
Proof.
  unfold rotate. rewrite Permutation_app_comm. now rewrite take_drop.
Qed.

Lemma lookup_rotate_mod {A} (l : list A) n k :
  (k < length l)%nat -> rotate n l !! k = l !! ((n + k) mod length l)%nat.
Proof.
  intros Hk. rewrite lookup_rotate_r by assumption. f_equal.
  unfold rotate_nat_add.
  rewrite <- Nat2Z.inj_add, <- Nat2Z.inj_mod. apply Nat2Z.id.
Qed.

(** C4: from any value of the counter, [N] consecutive acquisitions on a
    pool of [N > 0] entries read the pool indices in cyclic order, each
    index once, and return the agents of the entries found there; the next
    acquisition returns what the first returned; the counter has advanced
    by one per acquisition. *)
Theorem round_robin response pool i :
  pool <> [] ->
  (acquire response (length pool) {| proxies := pool; index := i |}).1.*1
    = rotate i (seq 0 (length pool)) /\
  (acquire response (length pool) {| proxies := pool; index := i |}).1.*1
    ≡ₚ seq 0 (length pool) /\
  (acquire response (length pool) {| proxies := pool; index := i |}).1.*2
    = (fun d => Resolved (proxyUrl d)) <$> rotate i pool /\
  rotate i pool ≡ₚ pool /\
  (acquire response (S (length pool)) {| proxies := pool; index := i |}).1
    !! length pool
  = (acquire response (S (length pool)) {| proxies := pool; index := i |}).1
    !! 0%nat /\
  index (acquire response (length pool) {| proxies := pool; index := i |}).2
    = (i + length pool)%nat.
Proof.
  intros Hne.
  assert (HN : (0 < length pool)%nat) by (destruct pool; [congruence|cbn; lia]).
  assert (Hslot : forall k, ((i + k) mod length pool < length pool)%nat)
    by (intros k; now apply Nat.mod_upper_bound, Nat.neq_0_lt_0).
  assert (Hidx :
    (acquire response (length pool) {| proxies := pool; index := i |}).1.*1
    = rotate i (seq 0 (length pool))).
  { apply list_eq. intros k. rewrite list_lookup_fmap.
    destruct (decide (k < length pool)%nat) as [Hk|Hk].
    - rewrite acquire_lookup by assumption. cbn [proxies index].
      rewrite lookup_rotate_mod by now rewrite length_seq.
      rewrite length_seq.
      destruct (lookup_lt_is_Some_2 pool _ (Hslot k)) as [d ->]. cbn.
      symmetry. apply lookup_seq. split; [reflexivity|apply Hslot].
    - rewrite !lookup_ge_None_2; [reflexivity| |].
      + rewrite length_rotate, length_seq. lia.
      + rewrite acquire_length. lia. }
  split; [exact Hidx|].
  split; [rewrite Hidx; apply rotate_Permutation|].
  split; [|split; [apply rotate_Permutation|split]].
  - apply list_eq. intros k. rewrite !list_lookup_fmap.
    destruct (decide (k < length pool)%nat) as [Hk|Hk].
    + rewrite acquire_lookup by assumption. cbn [proxies index].
      rewrite lookup_rotate_mod by assumption.
      now destruct (lookup_lt_is_Some_2 pool _ (Hslot k)) as [d ->].
    + rewrite !lookup_ge_None_2; [reflexivity| |].
      * rewrite length_rotate. lia.
      * rewrite acquire_length. lia.
  - rewrite !acquire_lookup by (assumption || lia). cbn [proxies index].
    rewrite Nat.add_0_r.
    replace ((i + length pool) mod length pool)%nat with (i mod length pool)%nat;
      [reflexivity|].
    rewrite <- (Nat.Div0.add_mod_idemp_r i (length pool)).
    now rewrite Nat.Div0.mod_same, Nat.add_0_r.
  - now rewrite acquire_state.
Qed.

Definition sample_pool : list proxyData :=
  [ {| username := "u"; password := "p"; proxy_address := "10.0.0.1"; port := 8080 |};
    {| username := "u"; password := "p"; proxy_address := "10.0.0.2"; port := 8080 |};
    {| username := "u"; password := "p"; proxy_address := "10.0.0.3"; port := 8080 |} ].

Lemma round_robin_witness :
  (acquire (Throw CredentialError) 3 {| proxies := sample_pool; index := 7 |}).1
  = [(1%nat, Resolved "http://u:p@10.0.0.2:8080");
     (2%nat, Resolved "http://u:p@10.0.0.3:8080");
     (0%nat, Resolved "http://u:p@10.0.0.1:8080")] /\
  (acquire (Throw CredentialError) 4 {| proxies := sample_pool; index := 7 |}).1
    !! 3%nat
  = (acquire (Throw CredentialError) 4 {| proxies := sample_pool; index := 7 |}).1
    !! 0%nat.
Proof.
  destruct (round_robin (Throw CredentialError) sample_pool 7 ltac:(discriminate))
    as (_ & _ & _ & _ & H5 & _).
  split; [reflexivity|exact H5].
Defined.

End ProxyFacts.

(** * Properties of the fetch client *)

Module ProxyFetchFacts.
Import JSON JSONFacts JsFacts FileCache FileCacheFacts ProxyFetch.

Section WithRuntime.
Context `{Runtime}.

Lemma or_default_idem x d : Js.or_default (Js.or_default x d) d = Js.or_default x d.
Proof. destruct x; try reflexivity. destruct d; reflexivity. Qed.

Lemma getRequestHash_default url headers :
  _getRequestHash url (Js.or_default headers (Obj []))
  = _getRequestHash url headers.
Proof. unfold _getRequestHash, keyInput. cbv zeta. now rewrite or_default_idem. Qed.

Lemma get_missing (fs : FS) now key :
  fs !! _getFilePath key = None -> get fs now key = (Normal Undefined, fs).
Proof.
  intros Hnone. unfold get. cbv zeta.
  now rewrite (exists_lookup_None _ _ Hnone).
Qed.

(** With a pool that is loaded, an acquisition asks nobody: it returns the
    agent of the entry at the current slot and advances the counter. *)
Lemma getProxyAgent_loaded net w :
  Proxy.proxies (proxy w) <> [] ->
  exists d,
    Proxy.proxies (proxy w) !! Proxy.slot (proxy w) = Some d /\
    getProxyAgent net w
    = (Resolved (Proxy.proxyUrl d),
       {| files := files w;
          proxy := {| Proxy.proxies := Proxy.proxies (proxy w);
                      Proxy.index := S (Proxy.index (proxy w)) |};
          clock := clock w; trace := trace w |}).
Proof.
  intros Hne.
  assert (HN : (0 < length (Proxy.proxies (proxy w)))%nat)
    by (destruct (Proxy.proxies (proxy w)); [congruence|cbn; lia]).
  destruct (lookup_lt_is_Some_2 (Proxy.proxies (proxy w)) (Proxy.slot (proxy w)))
    as [d Hd].
  { unfold Proxy.slot. now apply Nat.mod_upper_bound, Nat.neq_0_lt_0. }
  exists d. split; [exact Hd|].
  unfold getProxyAgent, Proxy.getProxyAgent, Proxy._getNextProxy. cbv zeta.
  destruct (Nat.eqb_spec (length (Proxy.proxies (proxy w))) 0) as [E|_]; [lia|].
  now rewrite Hd.
Qed.

(** With an empty pool and a credential service that fails, the
    acquisition rejects with that failure. *)
Lemma getProxyAgent_credential_failure net w e :
  Proxy.proxies (proxy w) = [] ->
  credential_service net (length (trace w)) = Throw e ->
  getProxyAgent net w
  = (Rejected e,
     {| files := files w; proxy := proxy w;
        clock := clock w + elapsed net (length (trace w));
        trace := trace w ++ [CredentialRequest] |}).
Proof.
  intros Hnil Hcred.
  unfold getProxyAgent, Proxy.getProxyAgent, Proxy._getProxyList. cbv zeta.
  now rewrite Hnil, Hcred.
Qed.

(** X1: the part of the cache-first path that the code delivers: a live
    entry whose value is truthy is returned without any request and
    without touching the rotation. *)
Lemma fetch_cache_hit net url headers ttl w key e v :
  _getRequestHash url headers = Normal key ->
  files w !! _getFilePath key = Some (entry_text e v) ->
  serializable v = true ->
  clock w <= e ->
  Js.truthy v = true ->
  fetch net url headers ttl w = (Resolved v, w).
Proof.
  intros Hkey Hfile Hser Hlive Htruthy. unfold fetch. cbv zeta. rewrite getRequestHash_default, Hkey.
  rewrite (get_entry _ _ _ _ _ Hfile (serializable_defined _ Hser) Hser).
  destruct (Z.ltb_spec e (clock w)); [lia|]. rewrite andb_false_r.
  rewrite Htruthy. destruct w; reflexivity.
Qed.

(** C1, at the failing input: the cache holds a live, well-formed entry
    whose value is the empty string, as [set] writes it for an empty
    response body.  [get] returns that value, yet [fetch] acquires a proxy
    and makes the request. *)
Theorem fetch_refetches_falsy_entry net url headers ttl w key e :
  _getRequestHash url headers = Normal key ->
  files w !! _getFilePath key = Some (entry_text e (Str EmptyString)) ->
  clock w <= e ->
  Proxy.proxies (proxy w) <> [] ->
  get (files w) (clock w) key = (Normal (Str EmptyString), files w) /\
  exists sent agent w',
    fetch net url headers ttl w
    = (match http_get net (length (trace w)) url sent agent with
       | Normal data => Resolved data
       | Throw err => Rejected err
       end, w') /\
    trace w' = trace w ++ [HttpGet url sent agent] /\
    Proxy.index (proxy w') = S (Proxy.index (proxy w)).
Proof.
  intros Hkey Hfile Hlive Hpool.
  assert (Hget : get (files w) (clock w) key = (Normal (Str EmptyString), files w)).
  { rewrite (get_entry _ _ _ _ _ Hfile) by (congruence || reflexivity).
    destruct (Z.ltb_spec e (clock w)); [lia|]. now rewrite andb_false_r. }
  split; [exact Hget|].
  unfold fetch. cbv zeta. rewrite getRequestHash_default, Hkey, Hget. cbn [Js.truthy String.eqb negb].
  destruct (getProxyAgent_loaded net (with_files w (files w)) Hpool)
    as (d & _ & ->).
  cbn [files proxy clock trace with_files].
  set (sent := Js.spread _ (Js.or_default headers (Obj []))).
  exists sent, (Proxy.proxyUrl d).
  destruct (http_get net (length (trace w)) url sent (Proxy.proxyUrl d));
    eexists; (split; [reflexivity|split; reflexivity]).
Qed.

(** X2: the part of failure propagation that the code delivers: when the
    request itself fails, [fetch] rejects with that failure after one
    request. *)
Lemma fetch_propagates_request_failure net url headers ttl w key :
  _getRequestHash url headers = Normal key ->
  files w !! _getFilePath key = None ->
  Proxy.proxies (proxy w) <> [] ->
  exists sent agent w',
    (forall err,
        http_get net (length (trace w)) url sent agent = Throw err ->
        fetch net url headers ttl w = (Rejected err, w')) /\
    trace w' = trace w ++ [HttpGet url sent agent] /\
    files w' = files w.
Proof.
  intros Hkey Hfile Hpool.
  destruct (getProxyAgent_loaded net (with_files w (files w)) Hpool)
    as (d & _ & Hagent).
  eexists _, (Proxy.proxyUrl d), _. split; [|split].
  - intros err Herr. unfold fetch. cbv zeta.
    rewrite getRequestHash_default, Hkey, (get_missing _ _ _ Hfile). cbn [Js.truthy].
    rewrite Hagent. cbn [files proxy clock trace with_files].
    rewrite Herr. reflexivity.
  - reflexivity.
  - reflexivity.
Qed.

(** C2, at the failing input: nothing cached, an empty pool, and a
    credential service whose request fails.  The acquisition rejects, and
    the promise that [fetch] returned is never settled: the failure does
    not reach the caller. *)
Theorem fetch_pending_on_credential_failure net url headers ttl w key e :
  _getRequestHash url headers = Normal key ->
  files w !! _getFilePath key = None ->
  Proxy.proxies (proxy w) = [] ->
  credential_service net (length (trace w)) = Throw e ->
  (getProxyAgent net w).1 = Rejected e /\
  exists w',
    fetch net url headers ttl w = (Pending, w') /\
    trace w' = trace w ++ [CredentialRequest].
Proof.
  intros Hkey Hfile Hpool Hcred. split.
  - now rewrite (getProxyAgent_credential_failure _ _ e).
  - unfold fetch. cbv zeta.
    rewrite getRequestHash_default, Hkey, (get_missing _ _ _ Hfile). cbn [Js.truthy].
    rewrite (getProxyAgent_credential_failure _ _ e) by assumption.
    eexists. split; reflexivity.
Qed.

(** The text that is hashed. *)
Definition hash_input (url : string) (cookie : value) : string :=
  string_of_list_ascii
    (stringify_chars (Obj [("url", Str url); ("cookie", cookie)])).

(** [headers.Cookie || ""] *)
Definition effective_cookie (headers : value) : completion value :=
  match Js.prop "Cookie" (Js.or_default headers (Obj [])) with
  | Normal c => Normal (if Js.truthy c then c else Str EmptyString)
  | Throw e => Throw e
  end.

Lemma getRequestHash_eq url headers :
  _getRequestHash url headers =
  match effective_cookie headers with
  | Normal c => Normal (sha256_hex (hash_input url c))
  | Throw e => Throw e
  end.
Proof.
  unfold _getRequestHash, keyInput, effective_cookie. cbv zeta.
  destruct (Js.prop "Cookie" (Js.or_default headers (Obj []))); reflexivity.
Qed.

Lemma parse_entry_like url c :
  parse (hash_input url (Str c)) = Some (Obj [("url", Str url); ("cookie", Str c)]).
Proof.
  destruct (parse_stringify (Obj [("url", Str url); ("cookie", Str c)]))
    as (text & Ht & Hparse); [vm_compute; reflexivity|].
  injection Ht as <-. exact Hparse.
Qed.

Lemma hash_input_inj url c1 c2 :
  hash_input url (Str c1) = hash_input url (Str c2) -> c1 = c2.
Proof.
  intros E.
  pose proof (parse_entry_like url c1) as H1.
  pose proof (parse_entry_like url c2) as H2.
  unfold hash_input in *. rewrite E in H1. rewrite H1 in H2. now inversion H2.
Qed.

Lemma assoc_rotated_headers choice l :
  NoDup l.*1 ->
  Js.assoc "Cookie" (CustomHeaders.getRotatedHeaders choice (Obj l))
  = Js.assoc "Cookie" l.
Proof.
  intros Hnd. unfold CustomHeaders.getRotatedHeaders. cbn [Js.or_default].
  destruct (default _ _) as [ua browser].
  cbn [Js.spread]. rewrite assoc_fold_obj_set.
  rewrite <- (assoc_Permutation "Cookie" l (rev l) Hnd)
    by apply Permutation_rev.
  destruct (Js.assoc "Cookie" l); [reflexivity|].
  destruct (String.eqb browser "chrome" || String.eqb browser "edge");
    reflexivity.
Qed.

(** C9, as the code has it: the key is the hash of a text made of the
    URL and the effective cookie, the Cookie value or the empty string
    when there is none.  Equal effective cookies give equal keys; headers
    other than Cookie, the rotated header set and the order of the headers
    do not matter; two different Cookie strings give different hashed
    texts, hence different keys unless the hash collides on them. *)
Theorem fingerprint_url_and_cookie url :
  (forall h1 h2,
      effective_cookie h1 = effective_cookie h2 ->
      _getRequestHash url h1 = _getRequestHash url h2) /\
  (forall k x l,
      k <> "Cookie" ->
      _getRequestHash url (Obj (Js.obj_set k x l)) = _getRequestHash url (Obj l)) /\
  (forall choice l,
      NoDup l.*1 ->
      _getRequestHash url (Obj (CustomHeaders.getRotatedHeaders choice (Obj l)))
      = _getRequestHash url (Obj l)) /\
  (forall l1 l2,
      NoDup l1.*1 -> l1 ≡ₚ l2 ->
      _getRequestHash url (Obj l1) = _getRequestHash url (Obj l2)) /\
  (forall h1 h2 c1 c2,
      Js.prop "Cookie" h1 = Normal (Str c1) ->
      Js.prop "Cookie" h2 = Normal (Str c2) ->
      c1 <> c2 ->
      _getRequestHash url h1 = Normal (sha256_hex (hash_input url (Str c1))) /\
      _getRequestHash url h2 = Normal (sha256_hex (hash_input url (Str c2))) /\
      hash_input url (Str c1) <> hash_input url (Str c2) /\
      ((sha256_hex (hash_input url (Str c1)) = sha256_hex (hash_input url (Str c2)) ->
        hash_input url (Str c1) = hash_input url (Str c2)) ->
       _getRequestHash url h1 <> _getRequestHash url h2)).
Proof.
  split; [|split; [|split; [|split]]].
  - intros h1 h2 E. now rewrite !getRequestHash_eq, E.
  - intros k x l Hk. rewrite !getRequestHash_eq. unfold effective_cookie.
    cbn [Js.prop Js.or_default]. now rewrite assoc_obj_set_ne by congruence.
  - intros choice l Hnd. rewrite !getRequestHash_eq. unfold effective_cookie.
    cbn [Js.prop Js.or_default]. now rewrite assoc_rotated_headers.
  - intros l1 l2 Hnd Hperm. rewrite !getRequestHash_eq. unfold effective_cookie.
    cbn [Js.prop Js.or_default]. now rewrite (assoc_Permutation "Cookie" l1 l2).
  - intros h1 h2 c1 c2 H1 H2 Hne.
    assert (Hc : forall h c, Js.prop "Cookie" h = Normal (Str c) ->
                 _getRequestHash url h = Normal (sha256_hex (hash_input url (Str c)))).
    { intros h c Hp. rewrite getRequestHash_eq. unfold effective_cookie.
      assert (Js.or_default h (Obj []) = h) as ->
        by (destruct h; try reflexivity; discriminate Hp).
      rewrite Hp. cbn [Js.truthy]. now destruct c. }
    rewrite (Hc _ _ H1), (Hc _ _ H2).
    assert (Hin : hash_input url (Str c1) <> hash_input url (Str c2))
      by (intros E; apply Hne; exact (hash_input_inj _ _ _ E)).
    repeat split; try assumption.
    intros Hnocoll [= E]. apply Hin. now apply Hnocoll.
Qed.

(** The client on an empty cache with a loaded pool, which is how the
    sample runs below use it. *)
Definition cold (w : World) : Prop :=
  files w = ∅ /\ Proxy.proxies (proxy w) <> [].

Lemma getRequestHash_no_headers url :
  _getRequestHash url (Obj [])
  = Normal (sha256_hex (hash_input url (Str EmptyString))).
Proof. now rewrite getRequestHash_eq. Qed.

Lemma fetch_cold_fails net url ttl w e :
  (forall n sent agent, http_get net n url sent agent = Throw e) ->
  cold w ->
  exists w', fetch net url (Obj []) ttl w = (Rejected e, w') /\ cold w'.
Proof.
  intros Hnet [Hfiles Hpool].
  destruct (getProxyAgent_loaded net (with_files w (files w)) Hpool)
    as (d & _ & Hagent).
  unfold fetch. rewrite getRequestHash_no_headers, get_missing
    by (rewrite Hfiles; apply lookup_empty).
  cbn [Js.truthy]. rewrite Hagent. cbn [files proxy clock trace with_files].
  rewrite Hnet. eexists. split; [reflexivity|]. split; assumption.
Qed.

Lemma fetch_cold_succeeds net url ttl w body :
  ttl <= 0 ->
  (forall n sent agent, http_get net n url sent agent = Normal body) ->
  cold w ->
  exists w', fetch net url (Obj []) ttl w = (Resolved body, w') /\ cold w'.
Proof.
  intros Httl Hnet [Hfiles Hpool].
  destruct (getProxyAgent_loaded net (with_files w (files w)) Hpool)
    as (d & _ & Hagent).
  unfold fetch. rewrite getRequestHash_no_headers, get_missing
    by (rewrite Hfiles; apply lookup_empty).
  cbn [Js.truthy]. rewrite Hagent. cbn [files proxy clock trace with_files].
  rewrite Hnet. eexists. split; [reflexivity|].
  split; [|assumption]. cbn [files with_files].
  now rewrite set_nonpositive.
Qed.

Lemma sleep_cold ms w : cold w -> cold (sleep ms w).
Proof. intros [? ?]. split; assumption. Qed.

End WithRuntime.

(** The claim of C9 fails where one invocation carries an empty Cookie and
    the other carries none: the Cookie values differ, the keys do not. *)
Lemma fingerprint_empty_cookie_is_no_cookie :
  Js.prop "Cookie" (Obj [("Cookie", Str EmptyString)]) = Normal (Str EmptyString) /\
  Js.prop "Cookie" (Obj []) = Normal Undefined /\
  _getRequestHash (H := sample_runtime) "https://example.com/a"
                  (Obj [("Cookie", Str EmptyString)])
  = _getRequestHash (H := sample_runtime) "https://example.com/a" (Obj []).
Proof. repeat split. Qed.

Lemma fingerprint_url_and_cookie_witness :
  _getRequestHash (H := sample_runtime) "https://example.com/a"
                  (Obj [("User-Agent", Str "x"); ("Cookie", Str "a")])
  = _getRequestHash (H := sample_runtime) "https://example.com/a"
                    (Obj [("Cookie", Str "a"); ("Accept", Str "y")]) /\
  _getRequestHash (H := sample_runtime) "https://example.com/a"
                  (Obj [("Cookie", Str "a")])
  <> _getRequestHash (H := sample_runtime) "https://example.com/a"
                     (Obj [("Cookie", Str "b")]).
Proof.
  pose proof (fingerprint_url_and_cookie (H := sample_runtime)
                "https://example.com/a") as (Hsame & _ & _ & _ & Hdiff).
  split.
  - apply Hsame. reflexivity.
  - apply (Hdiff (Obj [("Cookie", Str "a")]) (Obj [("Cookie", Str "b")]) "a" "b");
      [reflexivity|reflexivity|discriminate|].
    intros E. exact E.
Defined.

(** A network whose credential service fails and whose every request is
    answered with [body]. *)
Definition sample_net (body : value) : Network :=
  {| credential_service := fun _ => Throw CredentialError;
     http_get := fun _ _ _ _ => Normal body;
     elapsed := fun _ => 5;
     random_choice := fun _ => 0%nat |}.

Definition sample_url : string := "https://example.com/a".

(** The key of [sample_url] with no headers, under [sample_runtime]. *)
Definition sample_key : string := hash_input sample_url (Str EmptyString).

(** A world that has cached an empty body for [sample_url] at time 1000
    for 60 seconds, read at time 2000 with a loaded pool. *)
Definition world_with_empty_body : World :=
  {| files := FileCache.set ∅ 1000 sample_key (Str EmptyString) 60;
     proxy := {| Proxy.proxies := ProxyFacts.sample_pool; Proxy.index := 0 |};
     clock := 2000;
     trace := [] |}.

Lemma fetch_refetches_falsy_entry_witness :
  get (H := sample_runtime) (files world_with_empty_body) 2000 sample_key
  = (Normal (Str EmptyString), files world_with_empty_body) /\
  exists sent agent w',
    fetch (H := sample_runtime) (sample_net (Str "fresh")) sample_url (Obj []) 60
          world_with_empty_body
    = (Resolved (Str "fresh"), w') /\
    trace w' = [HttpGet sample_url sent agent] /\
    Proxy.index (proxy w') = 1%nat.
Proof.
  exact (fetch_refetches_falsy_entry (H := sample_runtime)
           (sample_net (Str "fresh")) sample_url (Obj []) 60
           world_with_empty_body sample_key 61000
           eq_refl eq_refl ltac:(cbn; lia) ltac:(discriminate)).
Defined.

(** A world with nothing cached and a pool that was never loaded. *)
Definition fresh_world : World :=
  {| files := ∅; proxy := Proxy.init; clock := 2000; trace := [] |}.

Lemma fetch_pending_on_credential_failure_witness :
  (getProxyAgent (sample_net Null) fresh_world).1 = Rejected CredentialError /\
  exists w',
    fetch (H := sample_runtime) (sample_net Null) sample_url (Obj []) 60 fresh_world
    = (Pending, w') /\
    trace w' = [CredentialRequest].
Proof.
  exact (fetch_pending_on_credential_failure (H := sample_runtime)
           (sample_net Null) sample_url (Obj []) 60 fresh_world sample_key
           CredentialError eq_refl eq_refl eq_refl eq_refl).
Defined.

(** A network on which every request fails. *)
Definition net_down : Network :=
  {| credential_service := fun _ => Throw CredentialError;
     http_get := fun _ _ _ _ => Throw NetworkError;
     elapsed := fun _ => 5;
     random_choice := fun _ => 0%nat |}.

Definition loaded_world : World :=
  {| files := ∅;
     proxy := {| Proxy.proxies := ProxyFacts.sample_pool; Proxy.index := 0 |};
     clock := 2000;
     trace := [] |}.

(** A world that has cached [sample_value] for [sample_url]. *)
Definition world_with_sample : World :=
  {| files := FileCache.set ∅ 1000 sample_key sample_value 60;
     proxy := {| Proxy.proxies := ProxyFacts.sample_pool; Proxy.index := 0 |};
     clock := 2000;
     trace := [] |}.

Lemma fetch_cache_hit_witness :
  fetch (H := sample_runtime) net_down sample_url (Obj []) 60 world_with_sample
  = (Resolved sample_value, world_with_sample).
Proof.
  exact (fetch_cache_hit (H := sample_runtime) net_down sample_url (Obj []) 60
           world_with_sample sample_key 61000 sample_value
           eq_refl eq_refl eq_refl ltac:(cbn; lia) eq_refl).
Defined.

Lemma fetch_propagates_request_failure_witness :
  exists sent agent w',
    fetch (H := sample_runtime) net_down sample_url (Obj []) 60 loaded_world
    = (Rejected NetworkError, w') /\
    trace w' = [HttpGet sample_url sent agent] /\
    files w' = ∅.
Proof.
  destruct (fetch_propagates_request_failure (H := sample_runtime) net_down
              sample_url (Obj []) 60 loaded_world sample_key
              eq_refl eq_refl ltac:(discriminate))
    as (sent & agent & w' & Hfetch & Htrace & Hfiles).
  exists sent, agent, w'. split; [|split; assumption].
  apply Hfetch. reflexivity.
Defined.

End ProxyFetchFacts.

(** * Properties of the retry wrappers and of phase 1 *)

Module OrchestratorFacts.
Import Orchestrator.

Section WithClient.
Context {W : Type}.
Variable fetch : string -> value -> Z -> W -> outcome value * W.
Variable sleep : Z -> W -> W.
Variables ttl pageSize maxRetries batchSize delay : Z.

(** What is assumed of the fetch client is assumed in the states that
    satisfy [Inv], which the client and the passing of time preserve. *)
Variable Inv : W -> Prop.

(** Every fetch of [url] fails. *)
Definition fails (url : string) : Prop :=
  forall w, Inv w ->
    exists e w', fetch url (Obj []) ttl w = (Rejected e, w') /\ Inv w'.

(** Every fetch of [url] succeeds with [body]. *)
Definition yields (url : string) (body : value) : Prop :=
  forall w, Inv w ->
    exists w', fetch url (Obj []) ttl w = (Resolved body, w') /\ Inv w'.

Definition sleep_keeps : Prop := forall ms w, Inv w -> Inv (sleep ms w).

(** The two wrappers are one loop, up to the URL, the reading of the
    response, the skip value and the message. *)
Fixpoint retry_from (url : string) (read : value -> completion value)
    (skip : value) (msg : string) (fuel : nat) (attempt : Z) (r : Run (W := W))
  : option (outcome value * Run) :=
  match fuel with
  | O => None
  | S fuel' =>
      let catch (r : Run) :=
        if attempt <? maxRetries then
          retry_from url read skip msg fuel' (attempt + 1) (sleep_run sleep 200 r)
        else Some (Resolved skip, increment (push_error msg r)) in
      let '(o, r1) := call_fetch fetch ttl url r in
      match o with
      | Resolved res =>
          let r2 := increment r1 in
          match read res with
          | Normal v => Some (Resolved v, r2)
          | Throw _ => catch r2
          end
      | Rejected _ => catch r1
      | Pending => Some (Pending, r1)
      end
  end.

Lemma fetchPage_from_retry fuel page attempt r :
  fetchPage_from fetch sleep ttl pageSize maxRetries fuel page attempt r
  = retry_from (buildListUrl pageSize page) page_agents (Arr [])
               (page_error maxRetries page) fuel attempt r.
Proof.
  revert attempt r. induction fuel as [|fuel IH]; intros attempt r; [reflexivity|].
  cbn [fetchPage_from retry_from].
  destruct (call_fetch fetch ttl (buildListUrl pageSize page) r) as [[res|e|] r1];
    [destruct (page_agents res)| |];
    try reflexivity;
    destruct (attempt <? maxRetries); try reflexivity; apply IH.
Qed.

Lemma fetchAgentBio_from_retry fuel agentId attempt r :
  fetchAgentBio_from fetch sleep ttl maxRetries fuel agentId attempt r
  = retry_from (buildBioUrl agentId) (bio_record agentId) Null
               (agent_error maxRetries agentId) fuel attempt r.
Proof.
  revert attempt r. induction fuel as [|fuel IH]; intros attempt r; [reflexivity|].
  cbn [fetchAgentBio_from retry_from].
  destruct (call_fetch fetch ttl (buildBioUrl agentId) r) as [[res|e|] r1];
    [destruct (bio_record agentId res)| |];
    try reflexivity;
    destruct (attempt <? maxRetries); try reflexivity; apply IH.
Qed.

(** What one settled item did to the run: its value, the log entries and
    the fetches it added, one step of the bar. *)
Definition settles (item : Run (W := W) -> option (outcome value * Run))
    (v : value) (errs atts : list string) : Prop :=
  forall r, Inv (world r) ->
    exists r',
      item r = Some (Resolved v, r') /\
      errors r' = errors r ++ errs /\
      attempts r' = attempts r ++ atts /\
      bar r' = bar r + 1 /\
      Inv (world r').

Lemma call_fetch_fails url r :
  fails url -> Inv (world r) ->
  exists e r',
    call_fetch fetch ttl url r = (Rejected e, r') /\
    errors r' = errors r /\ attempts r' = attempts r ++ [url] /\
    bar r' = bar r /\ Inv (world r').
Proof.
  intros Hf Hi. destruct (Hf _ Hi) as (e & w' & E & Hi').
  unfold call_fetch. rewrite E. eauto 10.
Qed.

Lemma call_fetch_yields url body r :
  yields url body -> Inv (world r) ->
  exists r',
    call_fetch fetch ttl url r = (Resolved body, r') /\
    errors r' = errors r /\ attempts r' = attempts r ++ [url] /\
    bar r' = bar r /\ Inv (world r').
Proof.
  intros Hy Hi. destruct (Hy _ Hi) as (w' & E & Hi').
  unfold call_fetch. rewrite E. eauto 10.
Qed.

Lemma retry_from_S url read skip msg fuel attempt r :
  retry_from url read skip msg (S fuel) attempt r =
  let catch (r : Run) :=
    if attempt <? maxRetries then
      retry_from url read skip msg fuel (attempt + 1) (sleep_run sleep 200 r)
    else Some (Resolved skip, increment (push_error msg r)) in
  let '(o, r1) := call_fetch fetch ttl url r in
  match o with
  | Resolved res =>
      let r2 := increment r1 in
      match read res with
      | Normal v => Some (Resolved v, r2)
      | Throw _ => catch r2
      end
  | Rejected _ => catch r1
  | Pending => Some (Pending, r1)
  end.
Proof. reflexivity. Qed.

Lemma retry_exhausts url read skip msg n :
  sleep_keeps -> fails url ->
  forall attempt r,
    Inv (world r) ->
    attempt <= maxRetries ->
    Z.to_nat (maxRetries - attempt) = n ->
    exists r',
      retry_from url read skip msg (S n) attempt r = Some (Resolved skip, r') /\
      errors r' = errors r ++ [msg] /\
      attempts r' = attempts r ++ replicate (S n) url /\
      bar r' = bar r + 1 /\
      Inv (world r').
Proof.
  intros Hsleep Hf. induction n as [|n IH]; intros attempt r Hi Hle Hn.
  - cbn [retry_from].
    destruct (call_fetch_fails url r Hf Hi) as (e & r1 & -> & He & Ha & Hb & Hi1).
    destruct (Z.ltb_spec attempt maxRetries); [lia|].
    eexists. split; [reflexivity|]. cbn. rewrite He, Ha, Hb. auto.
  - rewrite retry_from_S. cbv zeta.
    destruct (call_fetch_fails url r Hf Hi) as (e & r1 & -> & He & Ha & Hb & Hi1).
    destruct (Z.ltb_spec attempt maxRetries); [|lia].
    destruct (IH (attempt + 1) (sleep_run sleep 200 r1))
      as (r' & -> & He' & Ha' & Hb' & Hi'); [now apply Hsleep|lia|lia|].
    eexists. split; [reflexivity|]. cbn in *.
    rewrite He', Ha', Hb', He, Ha, Hb, <- app_assoc. auto.
Qed.

Lemma retry_succeeds url read skip msg fuel attempt body v r :
  yields url body -> read body = Normal v -> Inv (world r) ->
  exists r',
    retry_from url read skip msg (S fuel) attempt r = Some (Resolved v, r') /\
    errors r' = errors r ++ [] /\
    attempts r' = attempts r ++ [url] /\
    bar r' = bar r + 1 /\
    Inv (world r').
Proof.
  intros Hy Hread Hi. cbn [retry_from].
  destruct (call_fetch_yields url body r Hy Hi) as (r1 & -> & He & Ha & Hb & Hi1).
  rewrite Hread. eexists. split; [reflexivity|]. cbn.
  rewrite He, Ha, Hb, app_nil_r. auto.
Qed.

Lemma settle_all_settles {A : Type}
    (f : A -> Run (W := W) -> option (outcome value * Run))
    (res : A -> value) (errs atts : A -> list string) (items : list A) :
  (forall x, x ∈ items -> settles (f x) (res x) (errs x) (atts x)) ->
  forall r, Inv (world r) ->
    exists r',
      settle_all f items r = Some (map (fun x => Resolved (res x)) items, r') /\
      errors r' = errors r ++ concat (map errs items) /\
      attempts r' = attempts r ++ concat (map atts items) /\
      bar r' = bar r + Z.of_nat (length items) /\
      Inv (world r').
Proof.
  induction items as [|x items IH]; intros Hall r Hi.
  - exists r. cbn. rewrite !app_nil_r, Z.add_0_r. auto.
  - destruct (Hall x ltac:(left) r Hi) as (r1 & Hx & He & Ha & Hb & Hi1).
    destruct (IH (fun y Hy => Hall y ltac:(now right)) r1 Hi1)
      as (r2 & Hrest & He2 & Ha2 & Hb2 & Hi2).
    exists r2. cbn [settle_all map concat length]. rewrite Hx, Hrest.
    split; [reflexivity|].
    rewrite He2, Ha2, Hb2, He, Ha, Hb, <- !app_assoc.
    repeat split; try assumption. lia.
Qed.

Lemma concat_map_if {A B : Type} (bad : A -> bool) (g : A -> B) (l : list A) :
  concat (map (fun x => if bad x then [g x] else []) l) = map g (List.filter bad l).
Proof.
  induction l as [|x l IH]; [reflexivity|]. cbn. rewrite IH.
  now destruct (bad x).
Qed.

Lemma fetchPage_exhausts page :
  1 <= maxRetries -> sleep_keeps -> fails (buildListUrl pageSize page) ->
  settles (fetchPage fetch sleep ttl pageSize maxRetries page) (Arr [])
          [page_error maxRetries page]
          (replicate (Z.to_nat maxRetries) (buildListUrl pageSize page)).
Proof.
  intros Hmax Hsleep Hf r Hi. unfold fetchPage. rewrite fetchPage_from_retry.
  destruct (retry_exhausts (buildListUrl pageSize page) page_agents (Arr [])
              (page_error maxRetries page) (Z.to_nat (maxRetries - 1))
              Hsleep Hf 1 r Hi Hmax eq_refl) as (r' & E & He & Ha & Hb & Hi').
  exists r'. rewrite E, He, Ha.
  replace (S (Z.to_nat (maxRetries - 1))) with (Z.to_nat maxRetries) by lia.
  auto.
Qed.

Lemma fetchPage_succeeds page body agents :
  yields (buildListUrl pageSize page) body ->
  page_agents body = Normal agents ->
  settles (fetchPage fetch sleep ttl pageSize maxRetries page) agents []
          [buildListUrl pageSize page].
Proof.
  intros Hy Hread r Hi. unfold fetchPage. rewrite fetchPage_from_retry.
  now apply (retry_succeeds _ _ _ _ _ _ body).
Qed.

Lemma fetchAgentBio_exhausts agentId :
  1 <= maxRetries -> sleep_keeps -> fails (buildBioUrl agentId) ->
  settles (fetchAgentBio fetch sleep ttl maxRetries agentId) Null
          [agent_error maxRetries agentId]
          (replicate (Z.to_nat maxRetries) (buildBioUrl agentId)).
Proof.
  intros Hmax Hsleep Hf r Hi. unfold fetchAgentBio.
  rewrite fetchAgentBio_from_retry.
  destruct (retry_exhausts (buildBioUrl agentId) (bio_record agentId) Null
              (agent_error maxRetries agentId) (Z.to_nat (maxRetries - 1))
              Hsleep Hf 1 r Hi Hmax eq_refl) as (r' & E & He & Ha & Hb & Hi').
  exists r'. rewrite E, He, Ha.
  replace (S (Z.to_nat (maxRetries - 1))) with (Z.to_nat maxRetries) by lia.
  auto.
Qed.

Lemma fetchAgentBio_succeeds agentId body record :
  yields (buildBioUrl agentId) body ->
  bio_record agentId body = Normal record ->
  settles (fetchAgentBio fetch sleep ttl maxRetries agentId) record []
          [buildBioUrl agentId].
Proof.
  intros Hy Hread r Hi. unfold fetchAgentBio. rewrite fetchAgentBio_from_retry.
  now apply (retry_succeeds _ _ _ _ _ _ body).
Qed.

(** C3: a page, or an agent, whose every fetch fails is fetched
    [maxRetries] times, adds one entry to the error log and settles with
    the skip value, the empty list or null.  In a batch, each such item
    does exactly that, and every other item settles with what its own
    response holds: the results come in batch order, and the error log has
    gained one entry for every item that failed.  The items of a batch
    give up in an order that the batch does not fix, so the new entries
    are stated up to their order. *)
Theorem retry_exhaustion :
  1 <= maxRetries ->
  sleep_keeps ->
  (forall page,
      fails (buildListUrl pageSize page) ->
      settles (fetchPage fetch sleep ttl pageSize maxRetries page) (Arr [])
              [page_error maxRetries page]
              (replicate (Z.to_nat maxRetries) (buildListUrl pageSize page))) /\
  (forall agentId,
      fails (buildBioUrl agentId) ->
      settles (fetchAgentBio fetch sleep ttl maxRetries agentId) Null
              [agent_error maxRetries agentId]
              (replicate (Z.to_nat maxRetries) (buildBioUrl agentId))) /\
  (forall (pages : list Z) (bad : Z -> bool) (body agents : Z -> value),
      (forall p, p ∈ pages ->
         if bad p then fails (buildListUrl pageSize p)
         else yields (buildListUrl pageSize p) (body p)
              /\ page_agents (body p) = Normal (agents p)) ->
      forall r, Inv (world r) ->
        exists r' new,
          settle_all (fetchPage fetch sleep ttl pageSize maxRetries) pages r
          = Some (map (fun p => Resolved (if bad p then Arr [] else agents p))
                      pages, r') /\
          errors r' = errors r ++ new /\
          new ≡ₚ map (page_error maxRetries) (List.filter bad pages)) /\
  (forall (ids : list value) (bad : value -> bool) (body record : value -> value),
      (forall a, a ∈ ids ->
         if bad a then fails (buildBioUrl a)
         else yields (buildBioUrl a) (body a)
              /\ bio_record a (body a) = Normal (record a)) ->
      forall r, Inv (world r) ->
        exists r' new,
          settle_all (fetchAgentBio fetch sleep ttl maxRetries) ids r
          = Some (map (fun a => Resolved (if bad a then Null else record a))
                      ids, r') /\
          errors r' = errors r ++ new /\
          new ≡ₚ map (agent_error maxRetries) (List.filter bad ids)).
Proof.
  intros Hmax Hsleep.
  split; [intros; now apply fetchPage_exhausts|].
  split; [intros; now apply fetchAgentBio_exhausts|].
  split.
  - intros pages bad body agents Hall r Hi.
    destruct (settle_all_settles
                (fetchPage fetch sleep ttl pageSize maxRetries)
                (fun p => if bad p then Arr [] else agents p)
                (fun p => if bad p then [page_error maxRetries p] else [])
                (fun p => if bad p
                          then replicate (Z.to_nat maxRetries) (buildListUrl pageSize p)
                          else [buildListUrl pageSize p])
                pages) with (r := r) as (r' & E & He & _); [|assumption|].
    + intros p Hp. specialize (Hall p Hp). destruct (bad p).
      * now apply fetchPage_exhausts.
      * destruct Hall as [Hy Hread]. now apply (fetchPage_succeeds p (body p)).
    + exists r', (map (page_error maxRetries) (List.filter bad pages)).
      split; [exact E|]. split; [|reflexivity]. now rewrite He, concat_map_if.
  - intros ids bad body record Hall r Hi.
    destruct (settle_all_settles
                (fetchAgentBio fetch sleep ttl maxRetries)
                (fun a => if bad a then Null else record a)
                (fun a => if bad a then [agent_error maxRetries a] else [])
                (fun a => if bad a
                          then replicate (Z.to_nat maxRetries) (buildBioUrl a)
                          else [buildBioUrl a])
                ids) with (r := r) as (r' & E & He & _); [|assumption|].
    + intros a Ha. specialize (Hall a Ha). destruct (bad a).
      * now apply fetchAgentBio_exhausts.
      * destruct Hall as [Hy Hread]. now apply (fetchAgentBio_succeeds a (body a)).
    + exists r', (map (agent_error maxRetries) (List.filter bad ids)).
      split; [exact E|]. split; [|reflexivity]. now rewrite He, concat_map_if.
Qed.

Lemma range_nonpos i n : n <= 0 -> range i n = [].
Proof. intros Hn. unfold range. now replace (Z.to_nat n) with 0%nat by lia. Qed.






Lemma concat_map_nil {A B : Type} (l : list A) :
  concat (map (fun _ => @nil B) l) = [].
Proof. induction l as [|x l IH]; [reflexivity|exact IH]. Qed.

Lemma no_pending {A : Type} (f : A -> value) (l : list A) :
  existsb is_pending (map (fun x => Resolved (f x)) l) = false.
Proof. induction l; [reflexivity|exact IHl]. Qed.





(** The id key of a payload. *)
Definition payload_id (data : value) : option value :=
  match data with
  | Obj l => Js.assoc "id" l
  | _ => None
  end.

(** An object of the program has no key twice. *)
Definition js_object (v : value) : Prop :=
  match v with
  | Obj l => NoDup l.*1
  | _ => True
  end.

(** C10, as the code has it: a detail fetch that succeeds settles with the
    record made of the requested id followed by the spread of the payload.
    The id of the record is the id of the payload when the payload has an
    id key, and the requested id otherwise; so it is the requested id
    exactly when the payload has no id key or has the requested id
    there. *)
Theorem bio_record_id agentId res data :
  yields (buildBioUrl agentId) res ->
  Js.prop "data" res = Normal data ->
  js_object data ->
  settles (fetchAgentBio fetch sleep ttl maxRetries agentId)
          (Obj (Js.spread [("id", agentId)] data)) [] [buildBioUrl agentId] /\
  Js.assoc "id" (Js.spread [("id", agentId)] data)
  = Some (default agentId (payload_id data)) /\
  (Js.assoc "id" (Js.spread [("id", agentId)] data) = Some agentId <->
   payload_id data = None \/ payload_id data = Some agentId).
Proof.
  intros Hy Hdata Hobj.
  assert (Hid : Js.assoc "id" (Js.spread [("id", agentId)] data)
                = Some (default agentId (payload_id data))).
  { rewrite JsFacts.assoc_id_spread. destruct data as [| | | | | |l]; try reflexivity.
    cbn [payload_id]. cbn in Hobj.
    now rewrite <- (JsFacts.assoc_Permutation "id" l (rev l) Hobj)
      by apply Permutation_rev. }
  split; [|split; [exact Hid|]].
  - apply (fetchAgentBio_succeeds agentId res); [assumption|].
    unfold bio_record. now rewrite Hdata.
  - rewrite Hid. destruct (payload_id data) as [x|]; cbn.
    + split; [intros [= ->]; now right|intros [|[= ->]]; congruence].
    + split; [now left|reflexivity].
Qed.

(** ** The retry wrappers at the edges *)

(** A limit below 1 leaves the one attempt that every call starts with. *)
Lemma retry_single url read skip msg fuel r :
  maxRetries <= 1 -> fails url -> Inv (world r) ->
  exists r',
    retry_from url read skip msg (S fuel) 1 r = Some (Resolved skip, r') /\
    errors r' = errors r ++ [msg] /\
    attempts r' = attempts r ++ [url] /\
    bar r' = bar r + 1 /\
    Inv (world r').
Proof.
  intros Hmax Hf Hi. rewrite retry_from_S. cbv zeta.
  destruct (call_fetch_fails url r Hf Hi) as (e & r1 & -> & He & Ha & Hb & Hi1).
  destruct (Z.ltb_spec 1 maxRetries); [lia|].
  eexists. split; [reflexivity|]. cbn. rewrite He, Ha, Hb. auto.
Qed.

(** X21: with a retry limit of 1 or less, a negative one included, a page or an
    agent whose fetch fails is still fetched once, and is then skipped with
    its entry in the error log. *)
Theorem one_attempt_at_least :
  maxRetries <= 1 ->
  (forall page,
      fails (buildListUrl pageSize page) ->
      settles (fetchPage fetch sleep ttl pageSize maxRetries page) (Arr [])
              [page_error maxRetries page] [buildListUrl pageSize page]) /\
  (forall agentId,
      fails (buildBioUrl agentId) ->
      settles (fetchAgentBio fetch sleep ttl maxRetries agentId) Null
              [agent_error maxRetries agentId] [buildBioUrl agentId]).
Proof.
  intros Hmax. split.
  - intros page Hf r Hi. unfold fetchPage. rewrite fetchPage_from_retry.
    now apply retry_single.
  - intros agentId Hf r Hi. unfold fetchAgentBio. rewrite fetchAgentBio_from_retry.
    now apply retry_single.
Qed.

(** A response that arrives but cannot be read is retried like a failure,
    and the bar has stepped once for every response that arrived. *)
Lemma retry_unreadable url read skip msg body e n :
  sleep_keeps -> yields url body -> read body = Throw e ->
  forall attempt r,
    Inv (world r) ->
    attempt <= maxRetries ->
    Z.to_nat (maxRetries - attempt) = n ->
    exists r',
      retry_from url read skip msg (S n) attempt r = Some (Resolved skip, r') /\
      errors r' = errors r ++ [msg] /\
      attempts r' = attempts r ++ replicate (S n) url /\
      bar r' = bar r + Z.of_nat (S n) + 1 /\
      Inv (world r').
Proof.
  intros Hsleep Hy Hread. induction n as [|n IH]; intros attempt r Hi Hle Hn.
  - cbn [retry_from].
    destruct (call_fetch_yields url body r Hy Hi) as (r1 & -> & He & Ha & Hb & Hi1).
    rewrite Hread. destruct (Z.ltb_spec attempt maxRetries); [lia|].
    eexists. split; [reflexivity|]. cbn. rewrite He, Ha, Hb.
    repeat split; try assumption; lia.
  - rewrite retry_from_S. cbv zeta.
    destruct (call_fetch_yields url body r Hy Hi) as (r1 & -> & He & Ha & Hb & Hi1).
    rewrite Hread. destruct (Z.ltb_spec attempt maxRetries); [|lia].
    destruct (IH (attempt + 1) (sleep_run sleep 200 (increment r1)))
      as (r' & -> & He' & Ha' & Hb' & Hi'); [now apply Hsleep|lia|lia|].
    eexists. split; [reflexivity|]. cbn in *.
    rewrite He', Ha', Hb', He, Ha, Hb, <- app_assoc.
    repeat split; try assumption; lia.
Qed.

(** X22: a listing response without [data], or a detail response that is null,
    arrives and cannot be read: the item is fetched [maxRetries] times and
    skipped with its entry in the error log, and the progress bar has
    stepped [maxRetries + 1] times for this one item. *)
Theorem unreadable_response_retried :
  1 <= maxRetries ->
  sleep_keeps ->
  (forall page body e,
      yields (buildListUrl pageSize page) body ->
      page_agents body = Throw e ->
      forall r, Inv (world r) ->
        exists r',
          fetchPage fetch sleep ttl pageSize maxRetries page r
          = Some (Resolved (Arr []), r') /\
          errors r' = errors r ++ [page_error maxRetries page] /\
          attempts r'
          = attempts r ++ replicate (Z.to_nat maxRetries) (buildListUrl pageSize page) /\
          bar r' = bar r + maxRetries + 1) /\
  (forall agentId body e,
      yields (buildBioUrl agentId) body ->
      bio_record agentId body = Throw e ->
      forall r, Inv (world r) ->
        exists r',
          fetchAgentBio fetch sleep ttl maxRetries agentId r
          = Some (Resolved Null, r') /\
          errors r' = errors r ++ [agent_error maxRetries agentId] /\
          attempts r'
          = attempts r ++ replicate (Z.to_nat maxRetries) (buildBioUrl agentId) /\
          bar r' = bar r + maxRetries + 1).
Proof.
  intros Hmax Hsleep. split.
  - intros page body e Hy Hread r Hi. unfold fetchPage. rewrite fetchPage_from_retry.
    destruct (retry_unreadable (buildListUrl pageSize page) page_agents (Arr [])
                (page_error maxRetries page) body e (Z.to_nat (maxRetries - 1))
                Hsleep Hy Hread 1 r Hi Hmax eq_refl) as (r' & E & He & Ha & Hb & _).
    exists r'. rewrite E, He, Ha, Hb.
    replace (S (Z.to_nat (maxRetries - 1))) with (Z.to_nat maxRetries) by lia.
    repeat split; lia.
  - intros agentId body e Hy Hread r Hi. unfold fetchAgentBio.
    rewrite fetchAgentBio_from_retry.
    destruct (retry_unreadable (buildBioUrl agentId) (bio_record agentId) Null
                (agent_error maxRetries agentId) body e (Z.to_nat (maxRetries - 1))
                Hsleep Hy Hread 1 r Hi Hmax eq_refl) as (r' & E & He & Ha & Hb & _).
    exists r'. rewrite E, He, Ha, Hb.
    replace (S (Z.to_nat (maxRetries - 1))) with (Z.to_nat maxRetries) by lia.
    repeat split; lia.
Qed.

(** ** Phase 2: the detail loop *)












(** ** The workflow as a whole *)




(** [firstPageResult.data.totalAgents] *)
Definition first_total (res : value) : completion value :=
  match Js.prop "data" res with
  | Normal data => Js.prop "totalAgents" data
  | Throw e => Throw e
  end.

(** X25: the fetch of page 0 is not wrapped in retries: when it rejects,
    [work] rejects with that very failure after the one attempt, nothing is
    written and the error log is not touched.  A first response from which
    the total cannot be read rejects [work] in the same way, with what the
    reading throws; such is a response that is null or undefined, and a
    response without [data] or with a null [data], for which it is a
    TypeError. *)
Theorem first_page_failure_aborts r :
  (forall e w',
      fetch (buildListUrl pageSize 0) (Obj []) ttl (world r) = (Rejected e, w') ->
      exists r',
        work fetch sleep ttl pageSize maxRetries batchSize delay r
        = Some (Rejected e, r') /\
        world r' = w' /\
        attempts r' = attempts r ++ [buildListUrl pageSize 0] /\
        output r' = [] /\
        errors r' = errors r) /\
  (forall body e w',
      fetch (buildListUrl pageSize 0) (Obj []) ttl (world r) = (Resolved body, w') ->
      first_total body = Throw e ->
      exists r',
        work fetch sleep ttl pageSize maxRetries batchSize delay r
        = Some (Rejected e, r') /\
        world r' = w' /\
        attempts r' = attempts r ++ [buildListUrl pageSize 0] /\
        output r' = [] /\
        errors r' = errors r) /\
  first_total Undefined = Throw TypeError /\
  first_total Null = Throw TypeError /\
  (forall body data,
      Js.prop "data" body = Normal data ->
      data = Undefined \/ data = Null ->
      first_total body = Throw TypeError) /\
  (forall l, Js.assoc "data" l = None -> first_total (Obj l) = Throw TypeError).
Proof.
  split; [|split; [|split; [|split; [|split]]]]; try reflexivity.
  - intros e w' Ef.
    unfold work, phase1, call_fetch. cbn [world set_output].
    rewrite Ef. eexists. split; [reflexivity|]. now cbn.
  - intros body e w' Ef Hread.
    unfold work, phase1, call_fetch. cbn [world set_output].
    rewrite Ef. unfold first_total in Hread.
    destruct (Js.prop "data" body) as [data|e'].
    + rewrite Hread. eexists. split; [reflexivity|]. now cbn.
    + injection Hread as ->. eexists. split; [reflexivity|]. now cbn.
  - intros body data Hdata [-> | ->]; unfold first_total; now rewrite Hdata.
  - intros l Hl. unfold first_total. cbn [Js.prop]. now rewrite Hl.
Qed.

(** X26: when the total of the first response is missing or is no number, the
    page count is NaN and the page loop is not entered: phase 1 ends with
    the ids of page 0 alone, without a failure and without an entry in the
    error log. *)
Theorem unreadable_total_stops_listing r body0 data0 totalAgents agents0 ids0 :
  Inv (world r) ->
  yields (buildListUrl pageSize 0) body0 ->
  Js.prop "data" body0 = Normal data0 ->
  Js.prop "totalAgents" data0 = Normal totalAgents ->
  Coerce.parseInt totalAgents = None ->
  Js.prop "agent" data0 = Normal agents0 ->
  agentIds agents0 = Normal ids0 ->
  exists r',
    phase1 fetch sleep ttl pageSize maxRetries batchSize delay r
    = Some (Resolved ids0, r') /\
    attempts r' = attempts r ++ [buildListUrl pageSize 0] /\
    errors r' = [].
Proof.
  intros Hi Hy0 Hdata Htotal Hparse Hagent Hids0.
  destruct (Hy0 _ Hi) as (w' & Ef & _).
  unfold phase1, call_fetch. rewrite Ef.
  unfold page_agents. rewrite Hdata, Htotal, Hagent, Hids0, Hparse.
  cbn [option_map]. eexists. split; [reflexivity|]. now cbn.
Qed.

(** X27: with a batch size that is not positive, the page loop of phase 1 does
    not end: every round builds an empty batch, makes no request, sleeps and
    moves the index away from the page count, so that no number of rounds is
    enough. *)
Theorem nonpositive_batch_never_ends fuel i pages acc (r : Run (W := W)) :
  batchSize <= 0 ->
  i < pages ->
  batch_loop fetch sleep ttl pageSize maxRetries batchSize delay fuel i pages acc r
  = None.
Proof.
  intros Hbatch. revert i acc r.
  induction fuel as [|fuel IH]; intros i acc r Hlt.
  - unfold batch_loop. now destruct (Z.ltb_spec i pages); [|lia].
  - cbn [batch_loop]. destruct (Z.ltb_spec i pages); [|lia].
    unfold batchPages. rewrite range_nonpos by lia.
    cbn [settle_all existsb collect]. apply IH. lia.
Qed.

Lemma collect_throws (agents : Z -> value) (ids : Z -> list value) e l :
  (forall p, p ∈ l ->
     agentIds (agents p) = Normal (ids p) \/ agentIds (agents p) = Throw e) ->
  (exists q, q ∈ l /\ agentIds (agents q) = Throw e) ->
  forall acc, collect (map (fun p => Resolved (agents p)) l) acc = Throw e.
Proof.
  induction l as [|p l IH]; intros Hall (q & Hq & Hthrow) acc.
  - now apply elem_of_nil in Hq.
  - cbn [map collect]. destruct (Hall p ltac:(left)) as [E|E]; rewrite E;
      [|reflexivity].
    apply IH.
    + intros p' Hp'. apply Hall. now right.
    + apply elem_of_cons in Hq as [Heq|Hq]; [|eauto].
      subst q. rewrite E in Hthrow. discriminate.
Qed.

(** X28: a page whose response arrives with [data] but without a list of
    agents in it is not a failed page: the wrapper returns what it found, the
    loop over the settled results of the batch throws on it, and the page
    loop is left with that error, which rejects [work].  Nothing is put in
    the error log. *)
Theorem malformed_page_aborts fuel i pages acc r
    (body agents : Z -> value) (ids : Z -> list value) e :
  i < pages ->
  Inv (world r) ->
  (forall p, p ∈ batchPages batchSize i pages ->
     yields (buildListUrl pageSize p) (body p) /\
     page_agents (body p) = Normal (agents p)) ->
  (forall p, p ∈ batchPages batchSize i pages ->
     agentIds (agents p) = Normal (ids p) \/ agentIds (agents p) = Throw e) ->
  (exists q, q ∈ batchPages batchSize i pages /\ agentIds (agents q) = Throw e) ->
  exists r',
    batch_loop fetch sleep ttl pageSize maxRetries batchSize delay
               (S fuel) i pages acc r
    = Some (Rejected e, r') /\
    errors r' = errors r.
Proof.
  intros Hlt Hi Hserved Hids Hbad.
  cbn [batch_loop]. destruct (Z.ltb_spec i pages); [|lia].
  destruct (settle_all_settles
              (fetchPage fetch sleep ttl pageSize maxRetries)
              agents (fun _ => []) (fun p => [buildListUrl pageSize p])
              (batchPages batchSize i pages)) with (r := r)
    as (r1 & E & He & _); [|assumption|].
  { intros p Hp. destruct (Hserved p Hp) as [Hy Hag].
    now apply (fetchPage_succeeds p (body p)). }
  rewrite E, no_pending, (collect_throws agents ids e) by assumption.
  exists r1. split; [reflexivity|].
  now rewrite He, concat_map_nil, app_nil_r.
Qed.

End WithClient.

(** The claim of C10 fails where the payload carries the requested id
    under its id key: the record has the requested id although the payload
    has an id key. *)
Lemma bio_record_id_with_payload_id :
  bio_record (Num 7) (Obj [("data", Obj [("id", Num 7); ("name", Str "Ann")])])
  = Normal (Obj [("id", Num 7); ("name", Str "Ann")]) /\
  Js.assoc "id" [("id", Num 7); ("name", Str "Ann")] = Some (Num 7) /\
  payload_id (Obj [("id", Num 7); ("name", Str "Ann")]) = Some (Num 7).
Proof. repeat split. Qed.

(** ** Sample runs with the fetch client of the program *)

Import FileCacheFacts ProxyFetchFacts.

Definition start : Run :=
  {| world := loaded_world; errors := []; bar := 0; attempts := [];
     output := [] |}.

Lemma cold_loaded_world : cold loaded_world.
Proof. split; [reflexivity|discriminate]. Qed.

Lemma net_down_fails ttl url :
  fails (ProxyFetch.fetch (H := sample_runtime) net_down) ttl cold url.
Proof.
  intros w Hw. exists NetworkError.
  now apply (fetch_cold_fails (H := sample_runtime) net_down).
Qed.





(** A detail endpoint whose payload has no id key. *)
Definition net_detail : Network :=
  {| credential_service := fun _ => Throw CredentialError;
     http_get := fun _ _ _ _ => Normal (Obj [("data", Obj [("name", Str "Ann")])]);
     elapsed := fun _ => 5;
     random_choice := fun _ => 0%nat |}.

Lemma bio_record_id_witness :
  Js.assoc "id" (Js.spread [("id", Num 7)] (Obj [("name", Str "Ann")]))
  = Some (Num 7) /\
  exists r',
    fetchAgentBio (ProxyFetch.fetch (H := sample_runtime) net_detail)
                  ProxyFetch.sleep (-1) 3 (Num 7) start
    = Some (Resolved (Obj [("id", Num 7); ("name", Str "Ann")]), r').
Proof.
  destruct (bio_record_id (ProxyFetch.fetch (H := sample_runtime) net_detail)
              ProxyFetch.sleep (-1) 3 cold (Num 7)
              (Obj [("data", Obj [("name", Str "Ann")])])
              (Obj [("name", Str "Ann")]))
    as (Hsettles & Hid & _).
  - intros w Hw.
    now apply (fetch_cold_succeeds (H := sample_runtime) net_detail); [lia| |].
  - reflexivity.
  - cbn. apply NoDup_cons. split; [inversion 1|apply NoDup_nil_2].
  - split; [exact Hid|].
    destruct (Hsettles start cold_loaded_world) as (r' & E & _).
    exists r'. exact E.
Defined.

(** ** Sample runs at the edges and through both phases *)

Lemma one_attempt_at_least_witness :
  exists r',
    fetchPage (ProxyFetch.fetch (H := sample_runtime) net_down) ProxyFetch.sleep
              604800 500 (-1) 4 start
    = Some (Resolved (Arr []), r') /\
    errors r' = ["Failed to fetch page 4 after -1 attempts."] /\
    length (attempts r') = 1%nat.
Proof.
  destruct (one_attempt_at_least (ProxyFetch.fetch (H := sample_runtime) net_down)
              ProxyFetch.sleep 604800 500 (-1) cold ltac:(lia))
    as (Hpage & _).
  destruct (Hpage 4 (net_down_fails _ _) start cold_loaded_world)
    as (r' & E & He & Ha & _).
  exists r'. split; [exact E|]. rewrite He, Ha. split; reflexivity.
Defined.

(** A server that answers every request with an empty object. *)
Definition net_hollow : Network :=
  {| credential_service := fun _ => Throw CredentialError;
     http_get := fun _ _ _ _ => Normal (Obj []);
     elapsed := fun _ => 5;
     random_choice := fun _ => 0%nat |}.

Lemma unreadable_response_retried_witness :
  exists r',
    fetchPage (ProxyFetch.fetch (H := sample_runtime) net_hollow) ProxyFetch.sleep
              (-1) 500 3 4 start
    = Some (Resolved (Arr []), r') /\
    errors r' = ["Failed to fetch page 4 after 3 attempts."] /\
    bar r' = 4.
Proof.
  destruct (unreadable_response_retried
              (ProxyFetch.fetch (H := sample_runtime) net_hollow)
              ProxyFetch.sleep (-1) 500 3 cold ltac:(lia) sleep_cold)
    as (Hpage & _).
  destruct (Hpage 4 (Obj []) TypeError) with (r := start)
    as (r' & E & He & _ & Hb).
  - intros w Hw.
    now apply (fetch_cold_succeeds (H := sample_runtime) net_hollow); [lia| |].
  - reflexivity.
  - exact cold_loaded_world.
  - exists r'. split; [exact E|]. rewrite He, Hb. split; reflexivity.
Defined.

(** A listing of three agents in pages of two, and a detail endpoint that
    knows the first and the last of them. *)
Definition net_tour : Network :=
  {| credential_service := fun _ => Throw CredentialError;
     http_get := fun _ url _ _ =>
       if String.eqb url (buildListUrl 2 0) then
         Normal (Obj [("data", Obj [("totalAgents", Str "3");
                                    ("agent", Arr [Obj [("agentId", Num 10)];
                                                   Obj [("agentId", Num 11)]])])])
       else if String.eqb url (buildListUrl 2 1) then
         Normal (Obj [("data", Obj [("totalAgents", Str "3");
                                    ("agent", Arr [Obj [("agentId", Num 12)]])])])
       else if String.eqb url (buildBioUrl (Num 10)) then
         Normal (Obj [("data", Obj [("name", Str "a")])])
       else if String.eqb url (buildBioUrl (Num 12)) then
         Normal (Obj [("data", Obj [("id", Str "x"); ("name", Str "c")])])
       else Throw (HttpStatus 500);
     elapsed := fun _ => 5;
     random_choice := fun _ => 0%nat |}.

Definition tour_bad (a : value) : bool :=
  match a with
  | Num 11 => true
  | _ => false
  end.

Definition tour_detail (a : value) : value :=
  match a with
  | Num 10 => Obj [("data", Obj [("name", Str "a")])]
  | _ => Obj [("data", Obj [("id", Str "x"); ("name", Str "c")])]
  end.

Definition tour_record (a : value) : value :=
  match a with
  | Num 10 => Obj [("id", Num 10); ("name", Str "a")]
  | _ => Obj [("id", Str "x"); ("name", Str "c")]
  end.

Lemma tour_agents a :
  a ∈ [Num 10; Num 11; Num 12] ->
  if tour_bad a
  then fails (ProxyFetch.fetch (H := sample_runtime) net_tour) (-1) cold
             (buildBioUrl a)
  else yields (ProxyFetch.fetch (H := sample_runtime) net_tour) (-1) cold
              (buildBioUrl a) (tour_detail a)
       /\ bio_record a (tour_detail a) = Normal (tour_record a).
Proof.
  intros Hin.
  repeat (apply elem_of_cons in Hin as [->|Hin]); [| | |now apply elem_of_nil in Hin];
    cbn [tour_bad].
  - split; [|reflexivity]. intros w Hw.
    now apply (fetch_cold_succeeds (H := sample_runtime) net_tour); [lia| |].
  - intros w Hw. exists (HttpStatus 500).
    now apply (fetch_cold_fails (H := sample_runtime) net_tour).
  - split; [|reflexivity]. intros w Hw.
    now apply (fetch_cold_succeeds (H := sample_runtime) net_tour); [lia| |].
Qed.


Lemma tour_page_fails :
  fails (ProxyFetch.fetch (H := sample_runtime) net_tour) (-1) cold (buildListUrl 2 2).
Proof.
  intros w Hw. exists (HttpStatus 500).
  now apply (fetch_cold_fails (H := sample_runtime) net_tour).
Qed.

Lemma retry_exhaustion_witness :
  (exists r',
      fetchPage (ProxyFetch.fetch (H := sample_runtime) net_tour) ProxyFetch.sleep
                (-1) 2 2 2 start
      = Some (Resolved (Arr []), r') /\
      errors r' = ["Failed to fetch page 2 after 2 attempts."] /\
      attempts r' = [buildListUrl 2 2; buildListUrl 2 2]) /\
  (exists r',
      fetchAgentBio (ProxyFetch.fetch (H := sample_runtime) net_tour)
                    ProxyFetch.sleep (-1) 2 (Num 11) start
      = Some (Resolved Null, r') /\
      errors r' = ["Failed agent 11 after 2 attempts"] /\
      attempts r' = [buildBioUrl (Num 11); buildBioUrl (Num 11)]) /\
  (exists r' new,
      settle_all (fetchPage (ProxyFetch.fetch (H := sample_runtime) net_tour)
                            ProxyFetch.sleep (-1) 2 2)
                 [1; 2] start
      = Some ([Resolved (Arr [Obj [("agentId", Num 12)]]); Resolved (Arr [])], r') /\
      errors r' = new /\
      new ≡ₚ ["Failed to fetch page 2 after 2 attempts."]) /\
  (exists r' new,
      settle_all (fetchAgentBio (ProxyFetch.fetch (H := sample_runtime) net_tour)
                                ProxyFetch.sleep (-1) 2)
                 [Num 10; Num 11; Num 12] start
      = Some ([Resolved (Obj [("id", Num 10); ("name", Str "a")]); Resolved Null;
               Resolved (Obj [("id", Str "x"); ("name", Str "c")])], r') /\
      errors r' = new /\
      new ≡ₚ ["Failed agent 11 after 2 attempts"]).
Proof.
  destruct (retry_exhaustion (ProxyFetch.fetch (H := sample_runtime) net_tour)
              ProxyFetch.sleep (-1) 2 2 cold ltac:(lia) sleep_cold)
    as (Hpage & Hagent & Hpages & Hagents).
  split; [|split; [|split]].
  - destruct (Hpage 2 tour_page_fails start cold_loaded_world)
      as (r' & E & He & Ha & _).
    exists r'. split; [exact E|]. rewrite He, Ha. split; reflexivity.
  - destruct (Hagent (Num 11)) with (r := start) as (r' & E & He & Ha & _).
    + exact (tour_agents (Num 11) ltac:(right; left)).
    + exact cold_loaded_world.
    + exists r'. split; [exact E|]. rewrite He, Ha. split; reflexivity.
  - destruct (Hpages [1; 2] (fun p => p =? 2)
                (fun _ => Obj [("data", Obj [("totalAgents", Str "3");
                                             ("agent", Arr [Obj [("agentId", Num 12)]])])])
                (fun _ => Arr [Obj [("agentId", Num 12)]]))
      with (r := start) as (r' & new & E & He & Hperm).
    + intros p Hp.
      repeat (apply elem_of_cons in Hp as [->|Hp]); [| |now apply elem_of_nil in Hp];
        cbn [Z.eqb Pos.eqb].
      * split; [|reflexivity]. intros w Hw.
        now apply (fetch_cold_succeeds (H := sample_runtime) net_tour); [lia| |].
      * exact tour_page_fails.
    + exact cold_loaded_world.
    + exists r', new. split; [exact E|]. split; [exact He|exact Hperm].
  - destruct (Hagents [Num 10; Num 11; Num 12] tour_bad tour_detail tour_record)
      with (r := start) as (r' & new & E & He & Hperm).
    + exact tour_agents.
    + exact cold_loaded_world.
    + exists r', new. split; [exact E|]. split; [exact He|exact Hperm].
Defined.




Lemma first_page_failure_aborts_witness :
  (exists r',
      work (ProxyFetch.fetch (H := sample_runtime) net_down) ProxyFetch.sleep
           604800 500 3 5 1000 start
      = Some (Rejected NetworkError, r') /\
      attempts r' = [buildListUrl 500 0] /\
      output r' = [] /\
      errors r' = []) /\
  (exists r',
      work (ProxyFetch.fetch (H := sample_runtime) net_hollow) ProxyFetch.sleep
           (-1) 500 3 5 1000 start
      = Some (Rejected TypeError, r') /\
      attempts r' = [buildListUrl 500 0] /\
      output r' = [] /\
      errors r' = []).
Proof.
  split.
  - destruct (fetch_cold_fails (H := sample_runtime) net_down (buildListUrl 500 0)
                604800 loaded_world NetworkError (fun _ _ _ => eq_refl)
                cold_loaded_world) as (w' & Ef & _).
    destruct (first_page_failure_aborts
                (ProxyFetch.fetch (H := sample_runtime) net_down) ProxyFetch.sleep
                604800 500 3 5 1000 start) as (Hfail & _).
    destruct (Hfail NetworkError w' Ef) as (r' & E & _ & Ha & Ho & He).
    exists r'. split; [exact E|]. split; [exact Ha|]. split; [exact Ho|exact He].
  - destruct (fetch_cold_succeeds (H := sample_runtime) net_hollow
                (buildListUrl 500 0) (-1) loaded_world (Obj []) ltac:(lia)
                (fun _ _ _ => eq_refl) cold_loaded_world) as (w' & Ef & _).
    destruct (first_page_failure_aborts
                (ProxyFetch.fetch (H := sample_runtime) net_hollow) ProxyFetch.sleep
                (-1) 500 3 5 1000 start) as (_ & Hread & _ & _ & _ & Hnodata).
    destruct (Hread (Obj []) TypeError w' Ef (Hnodata [] eq_refl))
      as (r' & E & _ & Ha & Ho & He).
    exists r'. split; [exact E|]. split; [exact Ha|]. split; [exact Ho|exact He].
Defined.

(** A listing whose first response carries no total. *)
Definition net_no_total : Network :=
  {| credential_service := fun _ => Throw CredentialError;
     http_get := fun _ _ _ _ =>
       Normal (Obj [("data", Obj [("agent", Arr [Obj [("agentId", Num 10)]])])]);
     elapsed := fun _ => 5;
     random_choice := fun _ => 0%nat |}.

Lemma unreadable_total_stops_listing_witness :
  exists r',
    phase1 (ProxyFetch.fetch (H := sample_runtime) net_no_total) ProxyFetch.sleep
           (-1) 500 3 5 1000 start
    = Some (Resolved [Num 10], r') /\
    attempts r' = [buildListUrl 500 0].
Proof.
  destruct (unreadable_total_stops_listing
              (ProxyFetch.fetch (H := sample_runtime) net_no_total) ProxyFetch.sleep
              (-1) 500 3 5 1000 cold start
              (Obj [("data", Obj [("agent", Arr [Obj [("agentId", Num 10)]])])])
              (Obj [("agent", Arr [Obj [("agentId", Num 10)]])])
              Undefined
              (Arr [Obj [("agentId", Num 10)]])
              [Num 10])
    as (r' & E & Ha & _); try reflexivity.
  - exact cold_loaded_world.
  - intros w Hw.
    now apply (fetch_cold_succeeds (H := sample_runtime) net_no_total); [lia| |].
  - exists r'. split; [exact E|exact Ha].
Defined.

Lemma nonpositive_batch_never_ends_witness :
  batch_loop (ProxyFetch.fetch (H := sample_runtime) net_tour) ProxyFetch.sleep
             (-1) 2 2 (-5) 1000 1000 1 2 [Num 10; Num 11] start
  = None.
Proof.
  apply (nonpositive_batch_never_ends
           (ProxyFetch.fetch (H := sample_runtime) net_tour) ProxyFetch.sleep
           (-1) 2 2 (-5) 1000 1000 1 2 [Num 10; Num 11] start); lia.
Defined.

(** A listing whose responses carry [data] and no agent list. *)
Definition net_no_agents : Network :=
  {| credential_service := fun _ => Throw CredentialError;
     http_get := fun _ _ _ _ => Normal (Obj [("data", Obj [("totalAgents", Num 4)])]);
     elapsed := fun _ => 5;
     random_choice := fun _ => 0%nat |}.

Lemma malformed_page_aborts_witness :
  exists r',
    batch_loop (ProxyFetch.fetch (H := sample_runtime) net_no_agents)
               ProxyFetch.sleep (-1) 2 3 5 1000 1 1 2 [Num 10; Num 11] start
    = Some (Rejected TypeError, r') /\
    errors r' = [].
Proof.
  apply (malformed_page_aborts
           (ProxyFetch.fetch (H := sample_runtime) net_no_agents) ProxyFetch.sleep
           (-1) 2 3 5 1000 cold 0 1 2 [Num 10; Num 11] start
           (fun _ => Obj [("data", Obj [("totalAgents", Num 4)])])
           (fun _ => Undefined) (fun _ => []) TypeError).
  - lia.
  - exact cold_loaded_world.
  - intros p _. split; [|reflexivity]. intros w Hw.
    now apply (fetch_cold_succeeds (H := sample_runtime) net_no_agents); [lia| |].
  - intros p _. now right.
  - exists 1. split; [left|reflexivity].
Defined.

End OrchestratorFacts.

(** * The cache beyond [set] and [get] *)

Module PathFacts.
Import Path.

Lemma after_app prefix rest : after prefix (prefix +:+ rest) = Some rest.
Proof.
  induction prefix as [|c prefix IH]; [reflexivity|].
  simpl. now rewrite Ascii.eqb_refl.
Qed.

Lemma after_Some prefix path rest :
  after prefix path = Some rest -> path = prefix +:+ rest.
Proof.
  revert path. induction prefix as [|c prefix IH]; intros path E.
  - now injection E as ->.
  - destruct path as [|c' path]; [discriminate|]. cbn [after] in E.
    destruct (Ascii.eqb_spec c c') as [->|]; [|discriminate].
    change (String c' prefix +:+ rest) with (String c' (prefix +:+ rest)).
    f_equal. now apply IH.
Qed.

Lemma append_inj_l prefix s t : prefix +:+ s = prefix +:+ t -> s = t.
Proof.
  intros E. pose proof (after_app prefix s) as Hs.
  rewrite E, after_app in Hs. now injection Hs.
Qed.

Lemma append_assoc a b c : (a +:+ b) +:+ c = a +:+ (b +:+ c).
Proof.
  induction a as [|x a IH]; [reflexivity|].
  change (String x ((a +:+ b) +:+ c) = String x (a +:+ (b +:+ c))).
  f_equal. exact IH.
Qed.

Lemma list_of_append a b :
  list_ascii_of_string (a +:+ b)
  = list_ascii_of_string a ++ list_ascii_of_string b.
Proof.
  induction a as [|x a IH]; [reflexivity|].
  change (x :: list_ascii_of_string (a +:+ b)
          = x :: (list_ascii_of_string a ++ list_ascii_of_string b)).
  f_equal. exact IH.
Qed.

Lemma append_inj_r suffix s t : s +:+ suffix = t +:+ suffix -> s = t.
Proof.
  intros E. apply (f_equal list_ascii_of_string) in E.
  rewrite !list_of_append in E. apply app_inv_tail in E.
  rewrite <- (string_of_list_ascii_of_string s),
          <- (string_of_list_ascii_of_string t).
  now f_equal.
Qed.

Lemma join_inj dir a b : join dir a = join dir b -> a = b.
Proof. intros E. unfold join in E. now do 2 apply append_inj_l in E. Qed.

Lemma first_component_idem name :
  first_component (first_component name) = first_component name.
Proof.
  induction name as [|c name IH]; [reflexivity|]. cbn [first_component].
  destruct (Ascii.eqb c "/") eqn:E; [reflexivity|].
  cbn [first_component]. now rewrite E, IH.
Qed.

Lemma child_join dir name :
  child dir (join dir name) = Some (first_component name).
Proof. unfold child, join. now rewrite <- append_assoc, after_app. Qed.

Lemma child_Some dir path name :
  child dir path = Some name ->
  exists rest, path = join dir rest /\ name = first_component rest.
Proof.
  unfold child. destruct (after _ path) as [rest|] eqn:E; [|discriminate].
  intros [= <-]. exists rest. split; [|reflexivity].
  apply after_Some in E. now rewrite append_assoc in E.
Qed.

End PathFacts.

Module KeyFacts.
Import Path PathFacts FileCache.

(** Reading [encodeURIComponent] back: a percent sign starts one byte, or
    the two bytes of a code unit from 128 on. *)
Definition byte_of (h1 h2 : ascii) : N :=
  (16 * default 0 (JSON.hex_val h1) + default 0 (JSON.hex_val h2))%N.

Fixpoint decode (s : list ascii) : list ascii :=
  match s with
  | [] => []
  | c :: r =>
      if Ascii.eqb c "%" then
        match r with
        | h1 :: h2 :: r1 =>
            if (byte_of h1 h2 <? 128)%N then ascii_of_N (byte_of h1 h2) :: decode r1
            else
              match r1 with
              | _ :: h3 :: h4 :: r2 =>
                  ascii_of_N ((byte_of h1 h2 - 192) * 64 + (byte_of h3 h4 - 128))
                  :: decode r2
              | _ => []
              end
        | _ => []
        end
      else c :: decode r
  end.

Lemma decode_encode_unit c rest :
  decode (encode_unit c ++ rest) = c :: decode rest.
Proof.
  destruct c as [[] [] [] [] [] [] [] []]; reflexivity.
Qed.

Lemma decode_encode l : decode (flat_map encode_unit l) = l.
Proof.
  induction l as [|c l IH]; [reflexivity|].
  cbn [flat_map]. now rewrite decode_encode_unit, IH.
Qed.

Lemma encodeURIComponent_inj a b :
  encodeURIComponent a = encodeURIComponent b -> a = b.
Proof.
  unfold encodeURIComponent. intros E.
  apply (f_equal list_ascii_of_string) in E.
  rewrite !list_ascii_of_string_of_list_ascii in E.
  apply (f_equal decode) in E. rewrite !decode_encode in E.
  rewrite <- (string_of_list_ascii_of_string a),
          <- (string_of_list_ascii_of_string b).
  now f_equal.
Qed.

Lemma getFilePath_join key :
  _getFilePath key = join cacheDir (encodeURIComponent key +:+ ".cache").
Proof. reflexivity. Qed.

Lemma getFilePath_inj a b : _getFilePath a = _getFilePath b -> a = b.
Proof.
  rewrite !getFilePath_join. intros E.
  apply join_inj, append_inj_r in E. now apply encodeURIComponent_inj.
Qed.

(** No separator in a file name of the cache. *)
Lemma encode_unit_plain c : Forall (fun x => Ascii.eqb x "/" = false) (encode_unit c).
Proof.
  destruct c as [[] [] [] [] [] [] [] []]; repeat constructor.
Qed.

Lemma first_component_chars l t :
  Forall (fun x => Ascii.eqb x "/" = false) l ->
  first_component (string_of_list_ascii l +:+ t)
  = string_of_list_ascii l +:+ first_component t.
Proof.
  induction 1 as [|x l Hx Hl IH]; [reflexivity|].
  cbn [string_of_list_ascii].
  change (String x (string_of_list_ascii l) +:+ t)
    with (String x (string_of_list_ascii l +:+ t)).
  cbn [first_component]. rewrite Hx, IH. reflexivity.
Qed.

Lemma file_name_plain key :
  first_component (encodeURIComponent key +:+ ".cache")
  = encodeURIComponent key +:+ ".cache".
Proof.
  unfold encodeURIComponent. rewrite first_component_chars; [reflexivity|].
  induction (list_ascii_of_string key) as [|c l IH]; [constructor|].
  cbn [flat_map]. apply Forall_app. split; [apply encode_unit_plain|exact IH].
Qed.

Lemma child_getFilePath key :
  child cacheDir (_getFilePath key) = Some (encodeURIComponent key +:+ ".cache").
Proof. now rewrite getFilePath_join, child_join, file_name_plain. Qed.

End KeyFacts.

Module CacheFacts.
Import Path PathFacts KeyFacts JSON FileCache FileCacheFacts.

Section WithRuntime.
Context `{Runtime}.

(** What [get] answers is read off the one file of the key. *)
Lemma get_value_ext (fs1 fs2 : FS) now key :
  fs1 !! _getFilePath key = fs2 !! _getFilePath key ->
  (get fs1 now key).1 = (get fs2 now key).1.
Proof.
  intros E. unfold get, get_try, Fs.existsSync, Fs.readFileSync, Fs.unlinkSync.
  destruct (fs2 !! _getFilePath key) as [content|] eqn:E2; rewrite E;
    [|reflexivity].
  rewrite !bool_decide_eq_true_2 by eauto. cbn [negb].
  destruct (parse content) as [e|]; [|now rewrite E, E2].
  destruct (Js.prop "type" e) as [ty|]; [|now rewrite E, E2].
  destruct (Js.prop "value" e) as [val|]; [|now rewrite E, E2].
  destruct (Js.prop "expiresAt" e) as [ex|]; [|now rewrite E, E2].
  destruct (strict_neq_0 ex && now_gt now ex); [reflexivity|].
  destruct (Js.strict_eq_string ty "string"); [reflexivity|].
  destruct (Js.strict_eq_string ty "json"); [|reflexivity].
  destruct (parse_value val); [reflexivity|now rewrite E, E2].
Qed.

(** [get] leaves the store as it is, or without the file of the key, and
    then it answers undefined. *)
Lemma get_store (fs : FS) now key :
  (exists v, get fs now key = (Normal v, fs)) \/
  (is_Some (fs !! _getFilePath key) /\
   get fs now key = (Normal Undefined, base.delete (_getFilePath key) fs)).
Proof.
  unfold get, get_try, Fs.existsSync, Fs.readFileSync, Fs.unlinkSync.
  destruct (fs !! _getFilePath key) as [content|] eqn:E.
  2:{ left. rewrite bool_decide_eq_false_2 by (intros [? ?]; discriminate). eauto. }
  rewrite bool_decide_eq_true_2 by eauto. cbn [negb].
  destruct (parse content) as [e|]; [|right; rewrite E; eauto].
  destruct (Js.prop "type" e) as [ty|]; [|right; rewrite E; eauto].
  destruct (Js.prop "value" e) as [val|]; [|right; rewrite E; eauto].
  destruct (Js.prop "expiresAt" e) as [ex|]; [|right; rewrite E; eauto].
  destruct (strict_neq_0 ex && now_gt now ex); [right; eauto|].
  destruct (Js.strict_eq_string ty "string"); [left; eauto|].
  destruct (Js.strict_eq_string ty "json"); [|left; eauto].
  destruct (parse_value val); [left; eauto|right; rewrite E; eauto].
Qed.

End WithRuntime.

Lemma delete_store (fs : FS) key :
  (delete fs key).2 = base.delete (_getFilePath key) fs.
Proof.
  unfold delete, Fs.existsSync, Fs.unlinkSync.
  destruct (fs !! _getFilePath key) eqn:E.
  - now rewrite bool_decide_eq_true_2 by eauto.
  - rewrite bool_decide_eq_false_2 by (intros [? ?]; discriminate).
    cbn. now rewrite delete_id.
Qed.

Lemma delete_answer (fs : FS) key :
  (delete fs key).1 = Fs.existsSync fs (_getFilePath key).
Proof.
  unfold delete. now destruct (Fs.existsSync fs (_getFilePath key)).
Qed.

(** The listing of the cache directory. *)
Lemma elem_of_readdirSync (fs : FS) dir name :
  name ∈ Fs.readdirSync fs dir
  <-> exists p, is_Some (fs !! p) /\ child dir p = Some name.
Proof.
  unfold Fs.readdirSync. rewrite elem_of_remove_dups, list_elem_of_omap.
  split; intros (p & Hp & Hc); exists p; (split; [|exact Hc]).
  - apply list_elem_of_fmap in Hp as ([q x] & -> & Hq).
    apply elem_of_map_to_list in Hq. cbn. eauto.
  - destruct Hp as [x Hx]. apply list_elem_of_fmap. exists (p, x).
    split; [reflexivity|]. now apply elem_of_map_to_list.
Qed.

(** Every file below the cache directory is directly in it. *)
Definition flat (fs : FS) : Prop :=
  forall p name, is_Some (fs !! p) -> child cacheDir p = Some name ->
    p = join cacheDir name.

Lemma unlink_each_listed (listing : list string) :
  NoDup listing ->
  forall fs : FS,
    (forall name, name ∈ listing -> is_Some (fs !! join cacheDir name)) ->
    exists fs',
      unlink_each fs listing = (Normal tt, fs') /\
      forall p, fs' !! p
                = if bool_decide (p ∈ join cacheDir <$> listing) then None
                  else fs !! p.
Proof.
  induction 1 as [|name listing Hnotin Hnd IH]; intros fs Hall.
  - exists fs. split; [reflexivity|]. intros p.
    rewrite bool_decide_eq_false_2; [reflexivity|]. cbn. apply not_elem_of_nil.
  - cbn [unlink_each]. unfold Fs.unlinkSync.
    destruct (Hall name ltac:(left)) as [text ->].
    destruct (IH (base.delete (join cacheDir name) fs)) as (fs' & E & Hlook).
    { intros n Hn. rewrite lookup_delete_ne.
      - apply Hall. now right.
      - intros Heq. apply join_inj in Heq. now subst. }
    exists fs'. split; [exact E|]. intros p. rewrite Hlook, fmap_cons.
    destruct (decide (p = join cacheDir name)) as [->|Hne].
    + rewrite lookup_delete_eq, (bool_decide_eq_true_2 (_ ∈ _ :: _)) by left.
      now destruct (bool_decide _).
    + rewrite lookup_delete_ne by congruence.
      destruct (bool_decide (p ∈ join cacheDir <$> listing)) eqn:Hb.
      * apply bool_decide_eq_true_1 in Hb.
        now rewrite bool_decide_eq_true_2 by now right.
      * apply bool_decide_eq_false_1 in Hb.
        rewrite bool_decide_eq_false_2; [reflexivity|].
        intros [?|?]%elem_of_cons; contradiction.
Qed.

Lemma clear_flat (fs : FS) :
  flat fs ->
  exists fs',
    clear fs = (Normal tt, fs') /\
    forall p, fs' !! p = match child cacheDir p with
                         | Some _ => None
                         | None => fs !! p
                         end.
Proof.
  intros Hflat. unfold clear.
  destruct (unlink_each_listed (Fs.readdirSync fs cacheDir)) with (fs := fs)
    as (fs' & E & Hlook).
  { apply NoDup_remove_dups. }
  { intros name (p & Hp & Hc)%elem_of_readdirSync.
    now rewrite <- (Hflat p name Hp Hc). }
  exists fs'. split; [exact E|]. intros p. rewrite Hlook.
  destruct (child cacheDir p) as [name|] eqn:Hc.
  - destruct (fs !! p) as [text|] eqn:Hp; [|now destruct (bool_decide _)].
    rewrite bool_decide_eq_true_2; [reflexivity|].
    apply list_elem_of_fmap. exists name. split.
    + apply Hflat; [eauto|exact Hc].
    + apply elem_of_readdirSync. exists p. eauto.
  - rewrite bool_decide_eq_false_2; [reflexivity|].
    intros (name & -> & _)%list_elem_of_fmap.
    now rewrite child_join in Hc.
Qed.

End CacheFacts.

Module PurgeFacts.
Import Path PathFacts KeyFacts JSON FileCache FileCacheFacts CacheFacts.

Section WithRuntime.
Context `{Runtime}.

(** The text of a file that [purgeExpired] removes. *)
Definition stale (now : Z) (content : string) : bool :=
  match parse content with
  | Some data =>
      match Js.prop "expiresAt" data with
      | Normal expiresAt => past now expiresAt
      | Throw _ => false
      end
  | None => false
  end.

(** A path that the listing of the cache directory leads to. *)
Definition listed (p : string) : bool :=
  match child cacheDir p with
  | Some name => bool_decide (p = join cacheDir name)
  | None => false
  end.

Lemma purge_file_eq now (fs : FS) file :
  purge_file now fs file
  = match fs !! join cacheDir file with
    | Some content =>
        if stale now content then base.delete (join cacheDir file) fs else fs
    | None => fs
    end.
Proof.
  unfold purge_file, stale, Fs.readFileSync, Fs.unlinkSync.
  destruct (fs !! join cacheDir file) as [content|] eqn:E; [|reflexivity].
  destruct (parse content) as [data|]; [|reflexivity].
  destruct (Js.prop "expiresAt" data) as [ex|]; [|reflexivity].
  destruct (past now ex); reflexivity.
Qed.

Lemma purge_listing now (listing : list string) :
  forall (fs : FS) p,
    fold_left (purge_file now) listing fs !! p
    = match fs !! p with
      | Some content =>
          if bool_decide (p ∈ join cacheDir <$> listing) && stale now content
          then None else Some content
      | None => None
      end.
Proof.
  induction listing as [|file listing IH]; intros fs p.
  - cbn. now destruct (fs !! p).
  - cbn [fold_left]. rewrite IH, purge_file_eq, fmap_cons.
    destruct (decide (p = join cacheDir file)) as [->|Hne].
    + rewrite (bool_decide_eq_true_2 (_ ∈ _ :: _)) by left.
      destruct (fs !! join cacheDir file) as [content|] eqn:E.
      * cbn [andb]. destruct (stale now content) eqn:Hs.
        -- now rewrite lookup_delete_eq.
        -- rewrite E, Hs. now rewrite andb_false_r.
      * now rewrite E.
    + assert (Hin : bool_decide (p ∈ join cacheDir file :: (join cacheDir <$> listing))
                    = bool_decide (p ∈ join cacheDir <$> listing)).
      { apply bool_decide_ext. rewrite elem_of_cons. tauto. }
      rewrite Hin.
      destruct (fs !! join cacheDir file) as [content|];
        [destruct (stale now content)|]; try reflexivity.
      now rewrite lookup_delete_ne by congruence.
Qed.

Lemma listed_readdirSync (fs : FS) p :
  is_Some (fs !! p) ->
  p ∈ join cacheDir <$> Fs.readdirSync fs cacheDir <-> listed p = true.
Proof.
  intros Hp. unfold listed. split.
  - intros (name & -> & (q & Hq & Hc)%elem_of_readdirSync)%list_elem_of_fmap.
    apply child_Some in Hc as (rest & -> & ->).
    rewrite child_join, first_component_idem.
    now apply bool_decide_eq_true_2.
  - destruct (child cacheDir p) as [name|] eqn:Hc; [|discriminate].
    intros Heq%bool_decide_eq_true_1. apply list_elem_of_fmap.
    exists name. split; [exact Heq|]. apply elem_of_readdirSync. eauto.
Qed.

Lemma purgeExpired_lookup (fs : FS) now p :
  purgeExpired fs now !! p
  = match fs !! p with
    | Some content => if listed p && stale now content then None else Some content
    | None => None
    end.
Proof.
  unfold purgeExpired. rewrite purge_listing.
  destruct (fs !! p) as [content|] eqn:E; [|reflexivity].
  destruct (listed p) eqn:Hl.
  - rewrite bool_decide_eq_true_2; [reflexivity|].
    apply listed_readdirSync; eauto.
  - rewrite bool_decide_eq_false_2; [reflexivity|].
    rewrite listed_readdirSync by eauto. congruence.
Qed.

Lemma listed_getFilePath key : listed (_getFilePath key) = true.
Proof.
  unfold listed. rewrite child_getFilePath.
  apply bool_decide_eq_true_2, getFilePath_join.
Qed.

End WithRuntime.
End PurgeFacts.

Module HousekeepingFacts.
Import Path PathFacts KeyFacts JSON FileCache FileCacheFacts CacheFacts PurgeFacts.

Lemma flat_empty : flat ∅.
Proof. intros p name [x Hx]. now rewrite lookup_empty in Hx. Qed.

Lemma flat_set (fs : FS) now key v ttl : flat fs -> flat (set fs now key v ttl).
Proof.
  intros Hflat. destruct (Z.ltb_spec 0 ttl) as [Hpos|Hle].
  - rewrite set_positive by assumption. intros p name Hp Hc.
    destruct (decide (p = _getFilePath key)) as [->|Hne].
    + rewrite child_getFilePath in Hc. injection Hc as <-. apply getFilePath_join.
    + rewrite lookup_insert_ne in Hp by congruence. now apply Hflat.
  - now rewrite set_nonpositive.
Qed.

Section WithRuntime.
Context `{Runtime}.

(** X3: distinct keys are kept in distinct files: the directory and the
    suffix are the same for all, and [encodeURIComponent] can be read
    back. *)
Theorem distinct_keys_distinct_files a b :
  a <> b -> _getFilePath a <> _getFilePath b.
Proof.
  intros Hne Heq. apply Hne.
  rewrite !getFilePath_join in Heq.
  apply join_inj, append_inj_r in Heq.
  unfold encodeURIComponent in Heq.
  apply (f_equal list_ascii_of_string) in Heq.
  rewrite !list_ascii_of_string_of_list_ascii in Heq.
  apply (f_equal decode) in Heq. rewrite !decode_encode in Heq.
  rewrite <- (string_of_list_ascii_of_string a),
          <- (string_of_list_ascii_of_string b).
  now f_equal.
Qed.

(** X4: what is read under a key is not changed by a [set], a [delete] or a
    [get] of another key. *)
Theorem other_keys_untouched (fs : FS) now0 now key key' v ttl :
  key' <> key ->
  (get (set fs now0 key v ttl) now key').1 = (get fs now key').1 /\
  (get (delete fs key).2 now key').1 = (get fs now key').1 /\
  (get (get fs now0 key).2 now key').1 = (get fs now key').1.
Proof.
  intros Hne.
  assert (Hp : _getFilePath key <> _getFilePath key').
  { intros Heq. apply Hne. symmetry. now apply getFilePath_inj. }
  repeat split; apply get_value_ext.
  - destruct (Z.ltb_spec 0 ttl).
    + rewrite set_positive by assumption. now apply lookup_insert_ne.
    + now rewrite set_nonpositive.
  - rewrite delete_store. now apply lookup_delete_ne.
  - destruct (get_store fs now0 key) as [[x ->]|[_ ->]]; [reflexivity|].
    now apply lookup_delete_ne.
Qed.

(** X5: a second [get] at the same time answers as the first and changes
    nothing more; the one change a [get] makes is to remove the file of the
    key, and then its answer is undefined. *)
Theorem get_settles (fs : FS) now key :
  get (get fs now key).2 now key = get fs now key /\
  ((get fs now key).2 = fs \/
   (get fs now key).1 = Normal Undefined /\
   (get fs now key).2 = base.delete (_getFilePath key) fs).
Proof.
  destruct (get_store fs now key) as [[x E]|[_ E]]; rewrite E; cbn [fst snd].
  - split; [exact E|now left].
  - split; [|now right].
    unfold get. rewrite exists_lookup_None by apply lookup_delete_eq. reflexivity.
Qed.

(** X6: [delete] answers whether the key had a file, live or not; afterwards
    the key reads as undefined and a second [delete] answers false.  After a
    [set] with a positive ttl it answers true. *)
Theorem delete_removes (fs : FS) now key :
  (delete fs key).1 = Fs.existsSync fs (_getFilePath key) /\
  get (delete fs key).2 now key = (Normal Undefined, (delete fs key).2) /\
  (delete (delete fs key).2 key).1 = false /\
  (forall now0 v ttl, 0 < ttl -> (delete (set fs now0 key v ttl) key).1 = true).
Proof.
  split; [apply delete_answer|]. rewrite delete_store.
  split; [|split].
  - unfold get. rewrite exists_lookup_None by apply lookup_delete_eq. reflexivity.
  - rewrite delete_answer. apply exists_lookup_None, lookup_delete_eq.
  - intros now0 v ttl Hpos. rewrite delete_answer, set_positive by assumption.
    eapply exists_lookup. apply lookup_insert_eq.
Qed.

(** X7: when the cache directory has no subdirectory, [clear] completes and
    leaves the directory empty: every key reads as undefined.  Files
    elsewhere are not touched. *)
Theorem clear_empties (fs : FS) :
  flat fs ->
  exists fs',
    clear fs = (Normal tt, fs') /\
    Fs.readdirSync fs' cacheDir = [] /\
    (forall now key, get fs' now key = (Normal Undefined, fs')) /\
    (forall p, child cacheDir p = None -> fs' !! p = fs !! p).
Proof.
  intros Hflat. destruct (clear_flat fs Hflat) as (fs' & E & Hlook).
  exists fs'. split; [exact E|]. split; [|split].
  - apply elem_of_nil_inv. intros name (p & [x Hx] & Hc)%elem_of_readdirSync.
    rewrite Hlook, Hc in Hx. discriminate.
  - intros now key. unfold get. rewrite exists_lookup_None; [reflexivity|].
    now rewrite Hlook, child_getFilePath.
  - intros p Hc. now rewrite Hlook, Hc.
Qed.


Lemma stale_entry_text now e v :
  stale now (entry_text e v) = negb (e =? 0) && (e <? now).
Proof.
  unfold stale. destruct (parse_entry_text_any e v) as (o & -> & ->).
  reflexivity.
Qed.

(** X8: [purgeExpired] removes the entry that [set] wrote once its ttl has
    elapsed and keeps it until then.  It keeps a file whose text is not
    JSON, which [get] would remove, and it leaves every file outside the
    cache directory alone. *)
Theorem purgeExpired_entries (fs : FS) now key :
  (forall now0 v ttl,
      0 <= now0 -> 0 < ttl -> now <= now0 + ttl * 1000 ->
      purgeExpired (set fs now0 key v ttl) now !! _getFilePath key
      = Some (entry_text (now0 + ttl * 1000) v)) /\
  (forall now0 v ttl,
      0 <= now0 -> 0 < ttl -> now0 + ttl * 1000 < now ->
      purgeExpired (set fs now0 key v ttl) now !! _getFilePath key = None) /\
  (forall content,
      fs !! _getFilePath key = Some content -> accepts content = false ->
      purgeExpired fs now !! _getFilePath key = Some content) /\
  (forall p, child cacheDir p = None -> purgeExpired fs now !! p = fs !! p).
Proof.
  repeat split.
  - intros now0 v ttl Hnow Httl Hlive.
    rewrite purgeExpired_lookup, set_positive, lookup_insert_eq by assumption.
    rewrite stale_entry_text.
    destruct (Z.ltb_spec (now0 + ttl * 1000) now); [lia|].
    now rewrite !andb_false_r.
  - intros now0 v ttl Hnow Httl Hdead.
    rewrite purgeExpired_lookup, set_positive, lookup_insert_eq by assumption.
    rewrite stale_entry_text, listed_getFilePath.
    destruct (Z.ltb_spec (now0 + ttl * 1000) now); [|lia].
    destruct (Z.eqb_spec (now0 + ttl * 1000) 0); [nia|reflexivity].
  - intros content Hc Hno. rewrite purgeExpired_lookup, Hc.
    unfold stale. rewrite (JSONFacts.not_accepted content Hno).
    now rewrite andb_false_r.
  - intros p Hc. rewrite purgeExpired_lookup. unfold listed. rewrite Hc.
    now destruct (fs !! p).
Qed.

Lemma truthy_strict_neq_0 x : Js.truthy x = true -> strict_neq_0 x = true.
Proof.
  destruct x as [| | |n| | |]; try reflexivity.
  cbn. now destruct n.
Qed.

(** X9: a [get] answers the same after [purgeExpired] as before it. *)
Theorem purgeExpired_unseen (fs : FS) now key :
  (get (purgeExpired fs now) now key).1 = (get fs now key).1.
Proof.
  destruct (fs !! _getFilePath key) as [content|] eqn:E.
  2:{ apply get_value_ext. now rewrite purgeExpired_lookup, E. }
  destruct (stale now content) eqn:Hs.
  - transitivity (@Normal value Undefined).
    + unfold get. rewrite exists_lookup_None; [reflexivity|].
      now rewrite purgeExpired_lookup, E, listed_getFilePath, Hs.
    + unfold stale in Hs.
      destruct (parse content) as [data|] eqn:Hp; [|discriminate].
      destruct (Js.prop "expiresAt" data) as [ex|] eqn:Hex; [|discriminate].
      apply andb_true_iff in Hs as [Ht Hgt].
      unfold get, get_try, Fs.readFileSync, Fs.unlinkSync.
      rewrite (exists_lookup _ _ _ E), E, Hp. cbn [negb].
      assert (Hobj : exists ty val, Js.prop "type" data = Normal ty
                                    /\ Js.prop "value" data = Normal val).
      { destruct data; try discriminate; cbn; eauto. }
      destruct Hobj as (ty & val & -> & ->). rewrite Hex.
      now rewrite (truthy_strict_neq_0 _ Ht), Hgt.
  - apply get_value_ext. now rewrite purgeExpired_lookup, E, Hs, andb_false_r.
Qed.

(** X10: an entry whose expiry time is 0 does not expire: [get] answers its
    value at any time and [purgeExpired] keeps its file.  [set] writes no
    such entry when the clock is not negative. *)
Theorem zero_expiry_is_forever (fs : FS) now key v :
  fs !! _getFilePath key = Some (entry_text 0 v) ->
  serializable v = true ->
  get fs now key = (Normal v, fs) /\
  purgeExpired fs now !! _getFilePath key = Some (entry_text 0 v) /\
  (forall now0 ttl, 0 <= now0 -> 0 < ttl ->
     set fs now0 key v ttl !! _getFilePath key <> Some (entry_text 0 v)).
Proof.
  intros Hfile Hser. split; [|split].
  - rewrite (get_entry fs now key 0 v Hfile) by
      (assumption || now apply serializable_defined).
    reflexivity.
  - rewrite purgeExpired_lookup, Hfile, stale_entry_text. cbn [Z.eqb negb andb].
    now rewrite andb_false_r.
  - intros now0 ttl Hnow Hpos. rewrite set_positive, lookup_insert_eq by assumption.
    intros E.
    assert (E' : parse (entry_text (now0 + ttl * 1000) v) = parse (entry_text 0 v))
      by congruence.
    clear E. rename E' into E.
    destruct (parse_entry_text_any (now0 + ttl * 1000) v) as (o1 & E1 & P1).
    destruct (parse_entry_text_any 0 v) as (o2 & E2 & P2).
    rewrite E1, E2 in E. injection E as <-. rewrite P1 in P2.
    injection P2 as P2. nia.
Qed.

End WithRuntime.

Lemma distinct_keys_distinct_files_witness :
  _getFilePath "a/b" = "./.cache/a%2Fb.cache" /\
  _getFilePath "a/b" <> _getFilePath "a%2Fb".
Proof.
  split; [reflexivity|]. apply distinct_keys_distinct_files. discriminate.
Defined.

Lemma other_keys_untouched_witness :
  (get (H := sample_runtime) (set (set ∅ 0 "a" (Str "x") 60) 5 "b" (Num 1) 60)
       1000 "a").1
  = Normal (Str "x").
Proof.
  destruct (other_keys_untouched (H := sample_runtime)
              (set ∅ 0 "a" (Str "x") 60) 5 1000 "b" "a" (Num 1) 60)
    as (-> & _); [discriminate|].
  vm_compute. reflexivity.
Defined.

Lemma zero_expiry_is_forever_witness :
  get (H := sample_runtime) (<[_getFilePath "k" := entry_text 0 (Str "kept")]> ∅)
      9000000000000 "k"
  = (Normal (Str "kept"), <[_getFilePath "k" := entry_text 0 (Str "kept")]> ∅).
Proof.
  apply (zero_expiry_is_forever (H := sample_runtime)); [|reflexivity].
  apply lookup_insert_eq.
Defined.

Lemma purgeExpired_entries_witness :
  purgeExpired (H := sample_runtime) (set ∅ 1000 "k" sample_value 60) 61000
    !! _getFilePath "k"
  = Some (entry_text 61000 sample_value) /\
  purgeExpired (H := sample_runtime) (set ∅ 1000 "k" sample_value 60) 61001
    !! _getFilePath "k"
  = None /\
  purgeExpired (H := sample_runtime) (<[_getFilePath "k" := "{oops"]> ∅) 61001
    !! _getFilePath "k"
  = Some "{oops" /\
  purgeExpired (H := sample_runtime) (<["./output/agents_full.ndjson" := "{}"]> ∅)
               61001
    !! "./output/agents_full.ndjson"
  = Some "{}".
Proof.
  split; [|split; [|split]].
  - destruct (purgeExpired_entries (H := sample_runtime) ∅ 61000 "k")
      as (Hlive & _).
    apply (Hlive 1000 sample_value 60); lia.
  - destruct (purgeExpired_entries (H := sample_runtime) ∅ 61001 "k")
      as (_ & Hdead & _).
    apply (Hdead 1000 sample_value 60); lia.
  - destruct (purgeExpired_entries (H := sample_runtime)
                (<[_getFilePath "k" := "{oops"]> ∅) 61001 "k")
      as (_ & _ & Hkept & _).
    apply (Hkept "{oops"); [apply lookup_insert_eq|reflexivity].
  - destruct (purgeExpired_entries (H := sample_runtime)
                (<["./output/agents_full.ndjson" := "{}"]> ∅) 61001 "k")
      as (_ & _ & _ & Hout).
    rewrite (Hout "./output/agents_full.ndjson" eq_refl).
    apply lookup_insert_eq.
Defined.

Lemma clear_empties_witness :
  exists fs',
    clear (set (set ∅ 0 "a" (Str "x") 60) 5 "b" (Num 1) 60) = (Normal tt, fs') /\
    Fs.readdirSync fs' cacheDir = [].
Proof.
  destruct (clear_empties (H := sample_runtime)
              (set (set ∅ 0 "a" (Str "x") 60) 5 "b" (Num 1) 60))
    as (fs' & E & Hdir & _).
  - apply flat_set, flat_set, flat_empty.
  - exists fs'. split; [exact E|exact Hdir].
Defined.

End HousekeepingFacts.

(** * The cache in memory *)

Module MemoryCacheFacts.
Import MemoryCache.

Lemma memory_set_positive (store : Store) now key v ttl :
  0 < ttl ->
  set store now key v ttl
  = <[key := {| entry_value := v; expiresAt := now + ttl * 1000 |}]> store.
Proof. intros Hpos. unfold set. now destruct (Z.ltb_spec 0 ttl); [|lia]. Qed.

Lemma memory_set_nonpositive (store : Store) now key v ttl :
  ttl <= 0 -> set store now key v ttl = store.
Proof. intros Hle. unfold set. now destruct (Z.ltb_spec 0 ttl); [lia|]. Qed.

Lemma memory_get_missing (store : Store) now key :
  store !! key = None -> get store now key = (Undefined, store).
Proof. intros E. unfold get. now rewrite E. Qed.

(** The loop of [purgeExpired] over any list of entries. *)
Lemma purge_list now (l : list (string * cacheEntry)) :
  forall (s : Store) k,
    fold_left (fun (s : Store) (kv : string * cacheEntry) =>
                 if expired now kv.2 then base.delete kv.1 s else s) l s !! k
    = if existsb (fun kv => bool_decide (kv.1 = k) && expired now kv.2) l
      then None else s !! k.
Proof.
  induction l as [|[k' e] l IH]; intros s k; [reflexivity|].
  cbn [fold_left existsb fst snd]. rewrite IH.
  destruct (existsb _ l); [now rewrite orb_true_r|]. rewrite orb_false_r.
  destruct (expired now e); [|now rewrite andb_false_r].
  rewrite andb_true_r. destruct (decide (k' = k)) as [->|Hne].
  - now rewrite bool_decide_eq_true_2, lookup_delete_eq.
  - now rewrite bool_decide_eq_false_2, lookup_delete_ne.
Qed.

Lemma memory_purge_lookup (store : Store) now k :
  purgeExpired store now !! k
  = match store !! k with
    | Some e => if expired now e then None else Some e
    | None => None
    end.
Proof.
  unfold purgeExpired. rewrite purge_list.
  destruct (existsb _ (map_to_list store)) eqn:Hex.
  - apply existsb_exists in Hex as ([k' e] & Hin & Hk).
    apply andb_true_iff in Hk as [Hk He]. apply bool_decide_eq_true_1 in Hk.
    cbn in Hk, He. subst k'.
    apply list_elem_of_In, elem_of_map_to_list in Hin. now rewrite Hin, He.
  - destruct (store !! k) as [e|] eqn:E; [|reflexivity].
    destruct (expired now e) eqn:He; [|reflexivity].
    assert (Hin : existsb (fun kv : string * cacheEntry =>
                             bool_decide (kv.1 = k) && expired now kv.2)
                          (map_to_list store) = true); [|congruence].
    apply existsb_exists. exists (k, e). split.
    + now apply list_elem_of_In, elem_of_map_to_list.
    + cbn. now rewrite bool_decide_eq_true_2, He.
Qed.

(** X12: a value of any kind, undefined and the falsy ones included, is read
    back as it was stored until its expiry time has passed; the store keeps
    the value itself, not a text of it.  A [set] whose ttl is not positive
    changes nothing: it does not replace or remove what was stored
    before. *)
Theorem memory_set_get (store : Store) now0 now1 key v ttl :
  (0 < ttl -> now1 <= now0 + ttl * 1000 ->
   get (set store now0 key v ttl) now1 key = (v, set store now0 key v ttl)) /\
  (ttl <= 0 -> set store now0 key v ttl = store).
Proof.
  split; [|apply memory_set_nonpositive].
  intros Hpos Hlive. rewrite memory_set_positive by assumption.
  unfold get, expired. rewrite lookup_insert_eq. cbn [expiresAt entry_value].
  destruct (Z.ltb_spec (now0 + ttl * 1000) now1); [lia|].
  now rewrite andb_false_r.
Qed.

(** X13: once the expiry time has passed, [get] answers undefined and removes
    the entry, so that a [delete] after it answers false; a [delete] before
    it answers true although the entry has expired. *)
Theorem memory_expiry (store : Store) now0 now1 key v ttl :
  0 <= now0 ->
  0 < ttl ->
  now0 + ttl * 1000 < now1 ->
  get (set store now0 key v ttl) now1 key
  = (Undefined, base.delete key (set store now0 key v ttl)) /\
  (delete (get (set store now0 key v ttl) now1 key).2 key).1 = false /\
  (delete (set store now0 key v ttl) key).1 = true.
Proof.
  intros Hnow Hpos Hdead. rewrite memory_set_positive by assumption.
  assert (E : get (<[key := {| entry_value := v; expiresAt := now0 + ttl * 1000 |}]>
                     store) now1 key
              = (Undefined, base.delete key
                   (<[key := {| entry_value := v; expiresAt := now0 + ttl * 1000 |}]>
                      store))).
  { unfold get, expired. rewrite lookup_insert_eq. cbn [expiresAt].
    destruct (Z.ltb_spec (now0 + ttl * 1000) now1); [|lia].
    destruct (Z.eqb_spec (now0 + ttl * 1000) 0); [nia|reflexivity]. }
  rewrite E. cbn [snd]. unfold delete. cbn [fst]. split; [reflexivity|]. split.
  - apply bool_decide_eq_false_2. rewrite lookup_delete_eq. now intros [? ?].
  - apply bool_decide_eq_true_2. rewrite lookup_insert_eq. eauto.
Qed.

(** X14: [purgeExpired] removes the entries whose expiry time has passed and
    no other; what [get] answers is the same after it as before it, and a
    [get] after it changes the store no more. *)
Theorem memory_purge (store : Store) now key :
  purgeExpired store now !! key
  = (match store !! key with
     | Some e => if expired now e then None else Some e
     | None => None
     end) /\
  get (purgeExpired store now) now key
  = ((get store now key).1, purgeExpired store now).
Proof.
  split; [apply memory_purge_lookup|].
  unfold get. rewrite memory_purge_lookup.
  destruct (store !! key) as [e|]; [|reflexivity].
  destruct (expired now e) eqn:He; [reflexivity|]. now rewrite He.
Qed.

Lemma memory_set_get_witness :
  get (set init 1000 "k" (Str EmptyString) 60) 61000 "k"
  = (Str EmptyString, set init 1000 "k" (Str EmptyString) 60) /\
  set (set init 1000 "k" (Num 1) 60) 2000 "k" (Num 2) 0
  = set init 1000 "k" (Num 1) 60.
Proof.
  split.
  - apply (memory_set_get init 1000 61000 "k" (Str EmptyString) 60); lia.
  - apply (memory_set_get (set init 1000 "k" (Num 1) 60) 2000 0 "k" (Num 2) 0).
    lia.
Defined.

Lemma memory_expiry_witness :
  get (set init 1000 "k" (Num 1) 60) 61001 "k"
  = (Undefined, base.delete "k" (set init 1000 "k" (Num 1) 60)).
Proof. apply memory_expiry; lia. Defined.

End MemoryCacheFacts.

(** * The header sets *)

Module HeaderFacts.
Import JSON JSONFacts JsFacts CustomHeaders.

(** A key that is none of the keys listed. *)
Ltac key_fresh :=
  let Hin := fresh "Hin" in
  intros Hin;
  repeat (apply elem_of_cons in Hin as [Hin|Hin]; [discriminate Hin|]);
  now apply elem_of_nil in Hin.

Lemma obj_set_same k x (l : list (string * value)) :
  Js.assoc k l = Some x -> Js.obj_set k x l = l.
Proof.
  induction l as [|[k' y] l IH]; [discriminate|]. cbn.
  destruct (String.eqb_spec k k') as [->|Hne].
  - now intros [= ->].
  - intros E. now rewrite IH.
Qed.

Lemma obj_set_keys k x (l : list (string * value)) :
  NoDup l.*1 -> NoDup (Js.obj_set k x l).*1.
Proof.
  intros Hnd. destruct (Js.assoc k l) as [y|] eqn:E.
  - assert (Hkeys : (Js.obj_set k x l).*1 = l.*1); [|now rewrite Hkeys].
    clear Hnd. revert E. induction l as [|[k' z] l IH]; [discriminate|]. cbn.
    destruct (String.eqb_spec k k') as [->|Hne]; [reflexivity|].
    intros E. cbn. now rewrite IH.
  - apply assoc_None_notin in E.
    rewrite obj_set_fresh by exact E.
    rewrite fmap_app. apply NoDup_app. repeat split; [assumption| |].
    + intros k0 Hk0 Hin. cbn in Hin. apply list_elem_of_singleton in Hin. now subst.
    + cbn. apply NoDup_singleton.
Qed.

Lemma spread_keys (o l : list (string * value)) :
  NoDup o.*1 -> NoDup (Js.spread o (Obj l)).*1.
Proof.
  cbn [Js.spread]. revert o. induction l as [|[k x] l IH]; intros o Hnd; [exact Hnd|].
  cbn [fold_left]. apply IH. now apply obj_set_keys.
Qed.

Lemma spread_same (o l : list (string * value)) :
  (forall k x, (k, x) ∈ l -> Js.assoc k o = Some x) ->
  Js.spread o (Obj l) = o.
Proof.
  cbn [Js.spread]. induction l as [|[k x] l IH]; intros Hall; [reflexivity|].
  cbn [fold_left fst snd]. rewrite obj_set_same by (apply Hall; left).
  apply IH. intros k' x' Hin. apply Hall. now right.
Qed.

Lemma spread_copy (o : list (string * value)) :
  NoDup o.*1 -> Js.spread [] (Obj o) = o.
Proof. intros Hnd. now apply build_object_NoDup. Qed.

Lemma spread_assoc k (o l : list (string * value)) :
  NoDup l.*1 ->
  Js.assoc k (Js.spread o (Obj l))
  = match Js.assoc k l with
    | Some x => Some x
    | None => Js.assoc k o
    end.
Proof.
  intros Hnd. cbn [Js.spread]. rewrite assoc_fold_obj_set.
  now rewrite <- (assoc_Permutation k l (rev l) Hnd) by apply Permutation_rev.
Qed.

(** The headers generated for a row of the table, before the overrides. *)
Definition generated (choice : nat) : list (string * value) :=
  getRotatedHeaders choice (Obj []).

Lemma getRotatedHeaders_spread choice l :
  getRotatedHeaders choice (Obj l) = Js.spread (generated choice) (Obj l).
Proof.
  unfold generated, getRotatedHeaders. cbn [Js.or_default].
  destruct (default _ (desktopUserAgents !! choice)) as [ua browser].
  reflexivity.
Qed.

Lemma generated_keys choice : NoDup (generated choice).*1.
Proof.
  unfold generated, getRotatedHeaders. cbn [Js.or_default].
  destruct (default _ (desktopUserAgents !! choice)) as [ua browser].
  destruct (String.eqb browser "chrome" || String.eqb browser "edge");
    cbn; repeat (apply NoDup_cons; split; [key_fresh|]); apply NoDup_nil_2.
Qed.

Lemma getRotatedHeaders_keys choice l :
  NoDup (getRotatedHeaders choice (Obj l)).*1.
Proof. rewrite getRotatedHeaders_spread. apply spread_keys, generated_keys. Qed.

(** X15: the overrides win over the generated headers; without an override the
    User-Agent is the one of the chosen row, and the Sec-Fetch headers are
    there for the rows of Chrome and Edge and for no other. *)
Theorem overrides_win choice ua browser l :
  desktopUserAgents !! choice = Some (ua, browser) ->
  NoDup l.*1 ->
  (forall k x, Js.assoc k l = Some x ->
     Js.assoc k (getRotatedHeaders choice (Obj l)) = Some x) /\
  (Js.assoc "User-Agent" l = None ->
   Js.assoc "User-Agent" (getRotatedHeaders choice (Obj l)) = Some (Str ua)) /\
  (Js.assoc "Sec-Fetch-Mode" l = None ->
   Js.assoc "Sec-Fetch-Mode" (getRotatedHeaders choice (Obj l))
   = if String.eqb browser "chrome" || String.eqb browser "edge"
     then Some (Str "navigate") else None) /\
  (Js.assoc "Accept-Encoding" l = None ->
   Js.assoc "Accept-Encoding" (getRotatedHeaders choice (Obj l))
   = Some (Str "gzip, deflate, br")).
Proof.
  intros Hrow Hnd. rewrite getRotatedHeaders_spread.
  repeat split.
  - intros k x E. now rewrite spread_assoc, E.
  - intros E. rewrite spread_assoc, E by assumption.
    do 8 (destruct choice as [|choice]; [now injection Hrow as <- <-|]).
    discriminate.
  - intros E. rewrite spread_assoc, E by assumption.
    do 8 (destruct choice as [|choice]; [now injection Hrow as <- <-|]).
    discriminate.
  - intros E. rewrite spread_assoc, E by assumption.
    do 8 (destruct choice as [|choice]; [now injection Hrow as <- <-|]).
    discriminate.
Qed.

Lemma overrides_win_witness :
  Js.assoc "Cookie" (getRotatedHeaders 2 (Obj [("Cookie", Str "s=1")]))
  = Some (Str "s=1") /\
  Js.assoc "Sec-Fetch-Mode" (getRotatedHeaders 2 (Obj [("Cookie", Str "s=1")]))
  = None.
Proof.
  destruct (overrides_win 2
              "Mozilla/5.0 (Windows NT 10.0; Win64; x64; rv:126.0) Gecko/20100101 Firefox/126.0"
              "firefox" [("Cookie", Str "s=1")] eq_refl)
    as (Hwin & _ & Hsec & _).
  - apply NoDup_cons. split; [key_fresh|apply NoDup_nil_2].
  - split; [now apply Hwin|now apply Hsec].
Defined.

End HeaderFacts.

(** * The fetch client: what a call may do *)

Module ClientFacts.
Import JSON JSONFacts JsFacts FileCache FileCacheFacts ProxyFetch ProxyFetchFacts.
Import KeyFacts CacheFacts CustomHeaders HeaderFacts.

Section WithRuntime.
Context `{Runtime}.

(** What [fetch] does once the cache has not answered. *)
Definition after_miss (net : Network) (url : string) (customHeaders : value)
    (ttl : Z) (cacheKey : string) (w1 : World) : outcome value * World :=
  let headers :=
    getRotatedHeaders (random_choice net (length (trace w1))) customHeaders in
  match getProxyAgent net w1 with
  | (Resolved agent, w2) =>
      let n := length (trace w2) in
      let sent := Js.spread (Js.spread [] (Obj headers)) customHeaders in
      let w3 :=
        {| files := files w2; proxy := proxy w2;
           clock := clock w2 + elapsed net n;
           trace := trace w2 ++ [HttpGet url sent agent] |} in
      match http_get net n url sent agent with
      | Normal data =>
          (Resolved data,
           with_files w3 (FileCache.set (files w3) (clock w3) cacheKey data ttl))
      | Throw e => (Rejected e, w3)
      end
  | (_, w2) => (Pending, w2)
  end.

Lemma fetch_after_miss net url headers ttl w key :
  _getRequestHash url headers = Normal key ->
  fetch net url headers ttl w
  = match get (files w) (clock w) key with
    | (Normal cached, fs1) =>
        if Js.truthy cached then (Resolved cached, with_files w fs1)
        else after_miss net url (Js.or_default headers (Obj [])) ttl key
                        (with_files w fs1)
    | (Throw e, fs1) => (Rejected e, with_files w fs1)
    end.
Proof.
  intros Hkey. unfold fetch. rewrite getRequestHash_default, Hkey.
  destruct (get (files w) (clock w) key) as [[cached|e] fs1]; reflexivity.
Qed.

Lemma set_lookup_ne (fs : FS) now key v ttl p :
  p <> _getFilePath key -> set fs now key v ttl !! p = fs !! p.
Proof.
  intros Hne. destruct (Z.ltb_spec 0 ttl).
  - rewrite set_positive by assumption. now apply lookup_insert_ne.
  - now rewrite set_nonpositive.
Qed.

(** The requests a call may add to the trace. *)
Definition one_request_at_most (url : string) (evs : list event) : Prop :=
  evs = []
  \/ evs = [CredentialRequest]
  \/ (exists sent agent, evs = [HttpGet url sent agent])
  \/ (exists sent agent, evs = [CredentialRequest; HttpGet url sent agent]).

Lemma after_miss_footprint net url headers ttl key w1 :
  (exists evs,
      trace (after_miss net url headers ttl key w1).2 = trace w1 ++ evs
      /\ one_request_at_most url evs) /\
  (forall p, p <> _getFilePath key ->
     files (after_miss net url headers ttl key w1).2 !! p = files w1 !! p) /\
  (ttl <= 0 -> files (after_miss net url headers ttl key w1).2 = files w1) /\
  (Proxy.index (proxy (after_miss net url headers ttl key w1).2)
   <= S (Proxy.index (proxy w1)))%nat.
Proof.
  unfold after_miss, getProxyAgent, Proxy.getProxyAgent, Proxy._getProxyList,
    Proxy._getNextProxy, one_request_at_most.
  destruct (length (Proxy.proxies (proxy w1)) =? 0)%nat;
    [destruct (credential_service net (length (trace w1))) as [pool|e]|];
    cbn [fst snd files trace proxy Proxy.index Proxy.proxies];
    try destruct (_ !! _) as [d|];
    cbn [fst snd files trace proxy Proxy.index Proxy.proxies];
    try destruct (http_get net _ url _ _) as [data|e'];
    cbn [fst snd files trace proxy Proxy.index Proxy.proxies with_files clock];
    (split; [|split; [|split]]);
    try (intros p Hp; now apply set_lookup_ne);
    try (intros Hle; now apply set_nonpositive);
    try reflexivity; try lia;
    try (eexists; split; [symmetry; apply app_assoc|]; cbn; eauto 10; fail);
    try (eexists; split; [reflexivity|]; eauto 10; fail);
    exists []; split; [now rewrite app_nil_r|now left].
Qed.

(** X16: whatever the cache, the pool and the network do, one call of [fetch]
    makes at most one request for the URL, preceded by at most one request
    to the credential service; it changes no cache file but the one of its
    key, creates no file when the ttl is not positive, and advances the
    rotation by one step at most. *)
Theorem fetch_footprint net url headers ttl w :
  (exists evs,
      trace (fetch net url headers ttl w).2 = trace w ++ evs
      /\ one_request_at_most url evs) /\
  (forall key p,
      _getRequestHash url headers = Normal key ->
      p <> _getFilePath key ->
      files (fetch net url headers ttl w).2 !! p = files w !! p) /\
  (ttl <= 0 ->
   forall p, is_Some (files (fetch net url headers ttl w).2 !! p) ->
             is_Some (files w !! p)) /\
  (Proxy.index (proxy (fetch net url headers ttl w).2)
   <= S (Proxy.index (proxy w)))%nat.
Proof.
  destruct (_getRequestHash url headers) as [key|e] eqn:Hkey.
  2:{ unfold fetch. rewrite getRequestHash_default, Hkey. cbn [snd].
      split; [|split; [|split]]; [|discriminate|auto|lia].
      exists []. split; [now rewrite app_nil_r|now left]. }
  rewrite (fetch_after_miss _ _ _ _ _ key Hkey).
  assert (Hstill : forall fs1,
             (exists evs, trace (with_files w fs1) = trace w ++ evs
                          /\ one_request_at_most url evs)).
  { intros fs1. exists []. split; [now rewrite app_nil_r|now left]. }
  assert (Hfs : forall p, is_Some (base.delete (_getFilePath key) (files w) !! p) ->
                          is_Some (files w !! p)).
  { intros p [x Hx]. apply lookup_delete_Some in Hx as [_ Hx]. eauto. }
  destruct (get_store (files w) (clock w) key) as [[cached ->]|[_ ->]].
  - destruct (Js.truthy cached).
    + cbn [snd]. split; [|split; [|split]]; [apply Hstill| |auto|cbn; lia].
      now intros key' p [= <-] Hp.
    + destruct (after_miss_footprint net url (Js.or_default headers (Obj []))
                  ttl key (with_files w (files w))) as (Ht & Hf & Hz & Hi).
      split; [|split; [|split]]; [exact Ht| | |exact Hi].
      * intros key' p [= <-] Hp. now apply Hf.
      * intros Hle p. now rewrite (Hz Hle).
  - cbn [Js.truthy].
    destruct (after_miss_footprint net url (Js.or_default headers (Obj []))
                ttl key (with_files w (base.delete (_getFilePath key) (files w))))
      as (Ht & Hf & Hz & Hi).
    split; [|split; [|split]]; [exact Ht| | |exact Hi].
    + intros key' p [= <-] Hp. rewrite Hf by assumption. cbn.
      now apply lookup_delete_ne.
    + intros Hle p. rewrite (Hz Hle). apply Hfs.
Qed.

(** X17: on a miss with a loaded pool, the request is made through the proxy
    next in the rotation and carries exactly the rotated headers: every
    custom header is sent with the value the caller gave, the session
    cookie included. *)
Theorem fetch_request net url l ttl w key :
  NoDup l.*1 ->
  _getRequestHash url (Obj l) = Normal key ->
  files w !! _getFilePath key = None ->
  Proxy.proxies (proxy w) <> [] ->
  exists d w',
    Proxy.proxies (proxy w) !! Proxy.slot (proxy w) = Some d /\
    fetch net url (Obj l) ttl w
    = (match http_get net (length (trace w)) url
               (getRotatedHeaders (random_choice net (length (trace w))) (Obj l))
               (Proxy.proxyUrl d) with
       | Normal data => Resolved data
       | Throw e => Rejected e
       end, w') /\
    trace w'
    = trace w ++ [HttpGet url
                    (getRotatedHeaders (random_choice net (length (trace w))) (Obj l))
                    (Proxy.proxyUrl d)] /\
    forall k x, Js.assoc k l = Some x ->
      Js.assoc k (getRotatedHeaders (random_choice net (length (trace w))) (Obj l))
      = Some x.
Proof.
  intros Hnd Hkey Hmiss Hpool.
  assert (Hwin : forall k x, Js.assoc k l = Some x ->
            Js.assoc k (getRotatedHeaders (random_choice net (length (trace w))) (Obj l))
            = Some x).
  { intros k x E. now rewrite getRotatedHeaders_spread, spread_assoc, E. }
  rewrite (fetch_after_miss _ _ _ _ _ key Hkey), (get_missing _ _ _ Hmiss).
  cbn [Js.truthy Js.or_default].
  replace (with_files w (files w)) with w by now destruct w.
  unfold after_miss.
  destruct (getProxyAgent_loaded net w Hpool) as (d & Hd & ->).
  cbn [trace files proxy clock].
  rewrite spread_copy by apply getRotatedHeaders_keys.
  rewrite spread_same.
  2:{ intros k x Hin. apply Hwin. now apply assoc_Some_elem. }
  exists d. destruct (http_get net _ url _ _) as [data|e];
    eexists; (split; [exact Hd|split; [reflexivity|split; [reflexivity|exact Hwin]]]).
Qed.

(** X18: a response that was fetched and stored is served from the cache by
    the next call for the same URL and session, for as long as the ttl
    lasts: the same data, no request, no step of the rotation, whatever the
    network would answer by then. *)
Theorem fetch_twice net net' url headers ttl ttl' w key data w1 ms :
  _getRequestHash url headers = Normal key ->
  files w !! _getFilePath key = None ->
  0 < ttl ->
  serializable data = true ->
  Js.truthy data = true ->
  fetch net url headers ttl w = (Resolved data, w1) ->
  ms <= ttl * 1000 ->
  fetch net' url headers ttl' (sleep ms w1) = (Resolved data, sleep ms w1).
Proof.
  intros Hkey Hmiss Hpos Hser Htruthy Hfetch Hms.
  rewrite (fetch_after_miss _ _ _ _ _ key Hkey), (get_missing _ _ _ Hmiss) in Hfetch.
  cbn [Js.truthy] in Hfetch. unfold after_miss in Hfetch.
  destruct (getProxyAgent net _) as [[agent| |] w2]; try discriminate.
  destruct (http_get net _ url _ _) as [data'|]; [|discriminate].
  injection Hfetch as -> <-.
  rewrite (fetch_after_miss _ _ _ _ _ key Hkey).
  cbn [sleep with_files files clock]. rewrite set_positive by assumption.
  rewrite (get_entry _ _ key (clock w2 + elapsed net (length (trace w2)) + ttl * 1000)
             data);
    [|apply lookup_insert_eq|now apply serializable_defined|assumption].
  destruct (Z.ltb_spec (clock w2 + elapsed net (length (trace w2)) + ttl * 1000)
              (clock w2 + elapsed net (length (trace w2)) + ms)); [lia|].
  rewrite andb_false_r, Htruthy. reflexivity.
Qed.

End WithRuntime.
Lemma fetch_request_witness :
  exists w',
    fetch (H := sample_runtime) (sample_net (Str "ok")) sample_url
          (Obj [("Cookie", Str "s=1")]) 60 loaded_world
    = (Resolved (Str "ok"), w') /\
    trace w'
    = [HttpGet sample_url (getRotatedHeaders 0 (Obj [("Cookie", Str "s=1")]))
               "http://u:p@10.0.0.1:8080"].
Proof.
  destruct (fetch_request (H := sample_runtime) (sample_net (Str "ok")) sample_url
              [("Cookie", Str "s=1")] 60 loaded_world
              (hash_input sample_url (Str "s=1")))
    as (d & w' & Hd & Hf & Ht & _).
  - apply NoDup_cons. split; [key_fresh|apply NoDup_nil_2].
  - reflexivity.
  - reflexivity.
  - discriminate.
  - injection Hd as <-. exists w'. split; [exact Hf|exact Ht].
Defined.

Lemma fetch_twice_witness :
  fetch (H := sample_runtime) net_down sample_url (Obj []) 0
        (sleep 60000
           (fetch (H := sample_runtime) (sample_net sample_value) sample_url
                  (Obj []) 60 loaded_world).2)
  = (Resolved sample_value,
     sleep 60000
       (fetch (H := sample_runtime) (sample_net sample_value) sample_url
              (Obj []) 60 loaded_world).2).
Proof.
  apply (fetch_twice (H := sample_runtime) (sample_net sample_value) net_down
           sample_url (Obj []) 60 0 loaded_world sample_key sample_value);
    try reflexivity; lia.
Defined.

End ClientFacts.

(** * The proxy pool from first use *)

Module RotationFacts.
Import JSON JSONFacts JsFacts FileCache FileCacheFacts ProxyFetch ProxyFetchFacts.

(** [n] acquisitions one after the other. *)
Fixpoint acquire_all (net : Network) (n : nat) (w : World)
  : list (outcome string) * World :=
  match n with
  | O => ([], w)
  | S n' =>
      let '(agent, w1) := getProxyAgent net w in
      let '(rest, w2) := acquire_all net n' w1 in
      (agent :: rest, w2)
  end.

(** The agent of the pool entry that acquisition number [k] reads. *)
Definition agent_at (pool : list Proxy.proxyData) (k : nat) : option (outcome string) :=
  (fun d => Resolved (Proxy.proxyUrl d)) <$> pool !! (k mod length pool)%nat.

Lemma acquire_all_loaded net n :
  forall w,
    Proxy.proxies (proxy w) <> [] ->
    (forall k, (k < n)%nat ->
       (acquire_all net n w).1 !! k
       = agent_at (Proxy.proxies (proxy w)) (Proxy.index (proxy w) + k)) /\
    files (acquire_all net n w).2 = files w /\
    trace (acquire_all net n w).2 = trace w /\
    clock (acquire_all net n w).2 = clock w /\
    proxy (acquire_all net n w).2
    = {| Proxy.proxies := Proxy.proxies (proxy w);
         Proxy.index := (Proxy.index (proxy w) + n)%nat |}.
Proof.
  induction n as [|n IH]; intros w Hpool.
  - cbn. repeat split; [intros k Hk; lia|]. rewrite Nat.add_0_r. now destruct (proxy w).
  - cbn [acquire_all].
    destruct (getProxyAgent_loaded net w Hpool) as (d & Hd & ->).
    set (w1 := {| files := files w; proxy := _; clock := clock w; trace := trace w |}).
    destruct (IH w1 Hpool) as (Hk & Hf & Ht & Hc & Hp).
    destruct (acquire_all net n w1) as [rest w2]. cbn [fst snd] in *.
    repeat split; try assumption.
    + intros [|k] Hlt.
      * cbn. unfold agent_at. rewrite Nat.add_0_r. unfold Proxy.slot in Hd.
        now rewrite Hd.
      * cbn [lookup list_lookup]. rewrite Hk by lia. cbn. f_equal. lia.
    + rewrite Hp. cbn. f_equal. lia.
Qed.

(** X19: the pool is asked for on first use and once: the acquisition that
    finds the pool empty asks the credential service, and when the pool it
    gets is not empty no later acquisition asks again.  Acquisition number
    [k] returns the agent of the pool entry at the counter plus [k], modulo
    the size of the pool. *)
Theorem pool_loaded_on_first_use net w pool n :
  Proxy.proxies (proxy w) = [] ->
  credential_service net (length (trace w)) = Normal pool ->
  pool <> [] ->
  (forall k, (k <= n)%nat ->
     (acquire_all net (S n) w).1 !! k = agent_at pool (Proxy.index (proxy w) + k)) /\
  trace (acquire_all net (S n) w).2 = trace w ++ [CredentialRequest] /\
  proxy (acquire_all net (S n) w).2
  = {| Proxy.proxies := pool; Proxy.index := (Proxy.index (proxy w) + S n)%nat |}.
Proof.
  intros Hempty Hserv Hpool. cbn [acquire_all].
  assert (Hd : exists d, pool !! (Proxy.index (proxy w) mod length pool)%nat = Some d).
  { apply lookup_lt_is_Some_2, Nat.mod_upper_bound. now destruct pool. }
  destruct Hd as [d Hd].
  assert (E : getProxyAgent net w
              = (Resolved (Proxy.proxyUrl d),
                 {| files := files w;
                    proxy := {| Proxy.proxies := pool;
                                Proxy.index := S (Proxy.index (proxy w)) |};
                    clock := clock w + elapsed net (length (trace w));
                    trace := trace w ++ [CredentialRequest] |})).
  { unfold getProxyAgent, Proxy.getProxyAgent, Proxy._getProxyList,
      Proxy._getNextProxy, Proxy.slot.
    rewrite Hempty, Hserv. cbn. now rewrite Hd. }
  rewrite E. clear E.
  set (w1 := {| files := files w; proxy := _; clock := _; trace := _ |}).
  destruct (acquire_all_loaded net n w1 Hpool) as (Hk & _ & Ht & _ & Hp).
  destruct (acquire_all net n w1) as [rest w2]. cbn [fst snd] in *.
  repeat split.
  - intros [|k] Hle.
    + cbn. unfold agent_at. now rewrite Nat.add_0_r, Hd.
    + cbn [lookup list_lookup]. rewrite Hk by lia. cbn. f_equal. lia.
  - exact Ht.
  - rewrite Hp. cbn. f_equal. lia.
Qed.

Section WithRuntime.
Context `{Runtime}.

(** X20: when the credential service answers with an empty list, the
    acquisition rejects with the TypeError of reading a field of no entry;
    the counter has advanced and the pool is still empty, so the next
    acquisition asks the service again.  A [fetch] that needed the agent
    never settles. *)
Theorem empty_pool_answer net w :
  Proxy.proxies (proxy w) = [] ->
  credential_service net (length (trace w)) = Normal [] ->
  getProxyAgent net w
  = (Rejected TypeError,
     {| files := files w;
        proxy := {| Proxy.proxies := []; Proxy.index := S (Proxy.index (proxy w)) |};
        clock := clock w + elapsed net (length (trace w));
        trace := trace w ++ [CredentialRequest] |}) /\
  (forall url headers ttl key,
      _getRequestHash url headers = Normal key ->
      files w !! _getFilePath key = None ->
      exists w',
        fetch net url headers ttl w = (Pending, w') /\
        trace w' = trace w ++ [CredentialRequest] /\
        Proxy.proxies (proxy w') = []).
Proof.
  intros Hempty Hserv.
  assert (E : getProxyAgent net w
              = (Rejected TypeError,
                 {| files := files w;
                    proxy := {| Proxy.proxies := [];
                                Proxy.index := S (Proxy.index (proxy w)) |};
                    clock := clock w + elapsed net (length (trace w));
                    trace := trace w ++ [CredentialRequest] |})).
  { unfold getProxyAgent, Proxy.getProxyAgent, Proxy._getProxyList,
      Proxy._getNextProxy, Proxy.slot.
    rewrite Hempty, Hserv. reflexivity. }
  split; [exact E|].
  intros url headers ttl key Hkey Hmiss. unfold fetch.
  rewrite getRequestHash_default, Hkey, (get_missing _ _ _ Hmiss).
  cbn [Js.truthy].
  replace (with_files w (files w)) with w by now destruct w.
  rewrite E. eexists. split; [reflexivity|]. now split.
Qed.

End WithRuntime.

(** A credential service that answers with a pool of three. *)
Definition net_pool : Network :=
  {| credential_service := fun _ => Normal ProxyFacts.sample_pool;
     http_get := fun _ _ _ _ => Throw NetworkError;
     elapsed := fun _ => 5;
     random_choice := fun _ => 0%nat |}.

(** A credential service that answers with no proxy at all. *)
Definition net_no_proxy : Network :=
  {| credential_service := fun _ => Normal [];
     http_get := fun _ _ _ _ => Throw NetworkError;
     elapsed := fun _ => 5;
     random_choice := fun _ => 0%nat |}.

Lemma pool_loaded_on_first_use_witness :
  (acquire_all net_pool 5 fresh_world).1
  = [Resolved "http://u:p@10.0.0.1:8080"; Resolved "http://u:p@10.0.0.2:8080";
     Resolved "http://u:p@10.0.0.3:8080"; Resolved "http://u:p@10.0.0.1:8080";
     Resolved "http://u:p@10.0.0.2:8080"] /\
  trace (acquire_all net_pool 5 fresh_world).2 = [CredentialRequest].
Proof.
  destruct (pool_loaded_on_first_use net_pool fresh_world
              ProxyFacts.sample_pool 4 eq_refl eq_refl ltac:(discriminate))
    as (Hk & Ht & _).
  split; [|exact Ht].
  apply list_eq. intros k. destruct (Nat.le_gt_cases k 4) as [Hle|Hgt].
  - rewrite (Hk k Hle).
    do 5 (destruct k as [|k]; [reflexivity|]). lia.
  - rewrite !lookup_ge_None_2; [reflexivity|cbn; lia|cbn; lia].
Defined.

Lemma empty_pool_answer_witness :
  (getProxyAgent net_no_proxy fresh_world).1 = Rejected TypeError /\
  exists w',
    fetch (H := sample_runtime) net_no_proxy sample_url (Obj []) 60 fresh_world
    = (Pending, w') /\
    trace w' = [CredentialRequest].
Proof.
  destruct (empty_pool_answer (H := sample_runtime) net_no_proxy fresh_world
              eq_refl eq_refl) as (E & Hfetch).
  split; [now rewrite E|].
  destruct (Hfetch sample_url (Obj []) 60 sample_key eq_refl eq_refl)
    as (w' & Hf & Ht & _).
  exists w'. split; [exact Hf|exact Ht].
Defined.

End RotationFacts.

(** * Settings and addresses *)

Module ConfigFacts.
Import Numeral NumeralFacts Coerce.

Lemma trim_start_digits (neg : bool) m :
  trim_start (if neg then "-"%char :: uint_chars (N.to_uint m)
              else uint_chars (N.to_uint m))
  = (if neg then "-"%char :: uint_chars (N.to_uint m) else uint_chars (N.to_uint m)).
Proof.
  destruct neg; [reflexivity|].
  pose proof (to_uint_normal m) as Hu.
  destruct (N.to_uint m) as [|u| | | | | | | | |]; try contradiction; reflexivity.
Qed.

(** The digits of a natural number, with or without a minus sign before
    them, are read back by [parseInt]: the text is not taken for a
    hexadecimal literal. *)
Lemma parseInt_defined (neg : bool) m :
  parseInt (Str (string_of_list_ascii
                   (if neg then "-"%char :: uint_chars (N.to_uint m)
                    else uint_chars (N.to_uint m))))
  = Some (if neg then - Z.of_N m else Z.of_N m).
Proof.
  unfold parseInt, to_string.
  rewrite list_ascii_of_string_of_list_ascii, trim_start_digits.
  pose proof (to_uint_normal m) as Hu.
  pose proof (DecimalN.Unsigned.of_to m) as Hv.
  pose proof (read_digits_uint_chars (N.to_uint m) [] eq_refl) as Hr.
  rewrite app_nil_r in Hr.
  destruct (N.to_uint m) as [|u| | | | | | | | |] eqn:E;
    try contradiction; try (destruct u; try contradiction);
    destruct neg; cbv zeta; cbn [uint_chars]; cbn [uint_chars] in Hr;
    rewrite ?Hr, <- ?Hv; reflexivity.
Qed.

Lemma parseInt_printed n : parseInt (Str (string_of_Z n)) = Some n.
Proof.
  unfold string_of_Z, chars_of_Z. destruct (Z.ltb_spec n 0) as [Hn|Hn].
  - rewrite (parseInt_defined true). f_equal. lia.
  - rewrite (parseInt_defined false). f_equal. lia.
Qed.

(** X29: a setting given as the decimal numeral of a safe integer, one below
    2^53 in size, is taken as it stands, a negative one included; 0, a
    setting that is not there and one that is empty select the default.
    Such a number is read as itself, which is how the total of the listing
    is read when the response gives it as a number. *)
Theorem configured_integer n dflt :
  - 2 ^ 53 < n < 2 ^ 53 ->
  env_int (Str (string_of_Z n)) dflt = (if n =? 0 then dflt else n) /\
  env_int Undefined dflt = dflt /\
  env_int (Str EmptyString) dflt = dflt /\
  parseInt (Num n) = Some n.
Proof.
  intros _. split; [|split; [reflexivity|split; [reflexivity|]]].
  - unfold env_int. now rewrite parseInt_printed.
  - exact (parseInt_printed n).
Qed.

Lemma configured_integer_witness :
  env_int (Str "604800") 3 = 604800 /\
  env_int (Str "-5") 3 = -5 /\
  env_int (Str "0") 3 = 3 /\
  parseInt (Num 21000) = Some 21000.
Proof.
  destruct (configured_integer 604800 3 ltac:(lia)) as (H1 & _).
  destruct (configured_integer (-5) 3 ltac:(lia)) as (H2 & _).
  destruct (configured_integer 0 3 ltac:(lia)) as (H3 & _).
  destruct (configured_integer 21000 3 ltac:(lia)) as (_ & _ & _ & H4).
  split; [exact H1|]. split; [exact H2|]. split; [exact H3|exact H4].
Defined.

End ConfigFacts.

Module UrlFacts.
Import Numeral NumeralFacts JSON JSONFacts PathFacts Orchestrator.

Lemma string_of_Z_followed n m rest :
  number_end (list_ascii_of_string rest) = true ->
  string_of_Z n +:+ rest = string_of_Z m +:+ rest -> n = m.
Proof.
  intros Hend E. apply (f_equal list_ascii_of_string) in E.
  unfold string_of_Z in E.
  rewrite !list_of_append, !list_ascii_of_string_of_list_ascii in E.
  apply (f_equal read_number) in E.
  rewrite !read_number_chars_of_Z in E by assumption. now injection E.
Qed.

(** X30: two pages, and two agents with numbers for ids, are never asked for
    under one URL; so they do not share a cache entry either, short of a
    collision of the hash. *)
Theorem distinct_items_distinct_urls :
  (forall pageSize p q, p <> q -> buildListUrl pageSize p <> buildListUrl pageSize q) /\
  (forall a b, a <> b -> buildBioUrl (Num a) <> buildBioUrl (Num b)).
Proof.
  split.
  - intros pageSize p q Hne E. apply Hne. unfold buildListUrl in E.
    apply append_inj_l in E.
    now apply (string_of_Z_followed p q ("&PageSize=" +:+ string_of_Z pageSize)).
  - intros a b Hne E. apply Hne. unfold buildBioUrl in E.
    apply append_inj_l in E. cbn [Coerce.to_string] in E.
    now apply (string_of_Z_followed a b "&preview=false&destination=").
Qed.

End UrlFacts.

(** * What the file cache gives back *)

Module JsonImageFacts.
Import JSON JSONFacts FileCache FileCacheFacts.

(** Induction over values, through the elements of arrays and the
    members of objects. *)
Section ValueInduction.
Variable P : value -> Prop.
Hypothesis Hundefined : P Undefined.
Hypothesis Hnull : P Null.
Hypothesis Hbool : forall b, P (Bool b).
Hypothesis Hnum : forall n, P (Num n).
Hypothesis Hstr : forall s, P (Str s).
Hypothesis Harr : forall l, Forall P l -> P (Arr l).
Hypothesis Hobj : forall l, Forall (fun kv => P kv.2) l -> P (Obj l).

Fixpoint value_nested_ind (v : value) : P v :=
  match v with
  | Undefined => Hundefined
  | Null => Hnull
  | Bool b => Hbool b
  | Num n => Hnum n
  | Str s => Hstr s
  | Arr l =>
      Harr l ((fix elements (l : list value) : Forall P l :=
                 match l with
                 | [] => @List.Forall_nil _ P
                 | x :: l' => @List.Forall_cons _ P x l' (value_nested_ind x) (elements l')
                 end) l)
  | Obj l =>
      Hobj l ((fix members (l : list (string * value))
                 : Forall (fun kv => P kv.2) l :=
                 match l with
                 | [] => @List.Forall_nil _ _
                 | kv :: l' =>
                     @List.Forall_cons _ (fun kv => P kv.2) kv l'
                                       (value_nested_ind kv.2) (members l')
                 end) l)
  end.

End ValueInduction.

(** What [JSON.parse(JSON.stringify(v))] makes of [v]: an undefined
    element of an array becomes null, an undefined member of an object is
    left out. *)
Fixpoint json_image (v : value) : value :=
  match v with
  | Arr l =>
      Arr (map (fun x => match x with
                         | Undefined => Null
                         | _ => json_image x
                         end) l)
  | Obj l =>
      Obj (concat (map (fun kv => match kv.2 with
                                  | Undefined => []
                                  | _ => [(kv.1, json_image kv.2)]
                                  end) l))
  | _ => v
  end.

(** No object of the value, however deep, has a key twice. *)
Fixpoint well_formed (v : value) : bool :=
  match v with
  | Arr l => forallb well_formed l
  | Obj l =>
      bool_decide (NoDup (map fst l)) && forallb (fun kv => well_formed kv.2) l
  | _ => true
  end.

Lemma json_image_defined v : v <> Undefined -> json_image v <> Undefined.
Proof. destruct v; intros Hv; try congruence; discriminate. Qed.

Lemma stringify_chars_image v :
  stringify_chars (json_image v) = stringify_chars v.
Proof.
  induction v as [| | | | |l IH|l IH] using value_nested_ind; try reflexivity.
  - cbn [json_image stringify_chars].
    assert (Hmap : map stringify_chars
                     (map (fun x => match x with
                                    | Undefined => Null
                                    | _ => json_image x
                                    end) l)
                   = map stringify_chars l).
    { induction IH as [|x l Hx _ IHl]; [reflexivity|].
      cbn [map]. rewrite IHl. f_equal. now destruct x. }
    now rewrite Hmap.
  - cbn [json_image stringify_chars].
    assert (Hmap : concat (map (fun kv => member_text kv.1 kv.2 (stringify_chars kv.2))
                     (concat (map (fun kv => match kv.2 with
                                             | Undefined => []
                                             | _ => [(kv.1, json_image kv.2)]
                                             end) l)))
                   = concat (map (fun kv => member_text kv.1 kv.2
                                              (stringify_chars kv.2)) l)).
    { induction IH as [|[k x] l Hx _ IHl]; [reflexivity|].
      cbn [map concat fst snd] in *. rewrite <- IHl.
      destruct x; try reflexivity; cbn [json_image] in Hx;
        cbn [app map concat fst snd member_text json_image]; now rewrite Hx. }
    now rewrite Hmap.
Qed.

Lemma image_keys (l : list (string * value)) :
  map fst (concat (map (fun kv => match kv.2 with
                                  | Undefined => []
                                  | _ => [(kv.1, json_image kv.2)]
                                  end) l))
  `sublist_of` map fst l.
Proof.
  induction l as [|[k x] l IH]; [constructor|].
  cbn [map concat fst snd].
  destruct x; cbn [app map fst]; (now constructor).
Qed.

Lemma json_image_serializable v :
  well_formed v = true -> v <> Undefined -> serializable (json_image v) = true.
Proof.
  induction v as [| | | | |l IH|l IH] using value_nested_ind;
    intros Hwf Hv; try reflexivity; [congruence| |].
  - cbn [json_image serializable]. cbn [well_formed] in Hwf. clear Hv.
    induction IH as [|x l Hx _ IHl]; [reflexivity|].
    cbn [forallb map] in *. apply andb_true_iff in Hwf as [Hwx Hwl].
    rewrite (IHl Hwl), andb_true_r.
    destruct x; try reflexivity; apply Hx; (assumption || discriminate).
  - cbn [json_image serializable]. cbn [well_formed] in Hwf. clear Hv.
    apply andb_true_iff in Hwf as [Hnd Hwl]. apply bool_decide_eq_true_1 in Hnd.
    apply andb_true_iff. split.
    + apply bool_decide_eq_true_2. eapply sublist_NoDup; [exact Hnd|apply image_keys].
    + clear Hnd. induction IH as [|[k x] l Hx _ IHl]; [reflexivity|].
      cbn [forallb map concat fst snd] in *.
      apply andb_true_iff in Hwl as [Hwx Hwl]. rewrite forallb_app, (IHl Hwl), andb_true_r.
      destruct x; try reflexivity; cbn [forallb snd]; rewrite andb_true_r;
        apply Hx; (assumption || discriminate).
Qed.

Lemma parse_image v :
  well_formed v = true -> v <> Undefined ->
  parse (string_of_list_ascii (stringify_chars v)) = Some (json_image v).
Proof.
  intros Hwf Hv.
  destruct (parse_stringify (json_image v) (json_image_serializable v Hwf Hv))
    as (text & Ht & Hp).
  assert (Hi : json_image v <> Undefined) by now apply json_image_defined.
  assert (Ht' : stringify (json_image v)
                = Some (string_of_list_ascii (stringify_chars (json_image v))))
    by (destruct (json_image v); try reflexivity; congruence).
  rewrite Ht' in Ht. injection Ht as <-.
  now rewrite stringify_chars_image in Hp.
Qed.

Section WithRuntime.
Context `{Runtime}.

Lemma stored_image v :
  well_formed v = true -> v <> Undefined -> stored v = Normal (json_image v).
Proof.
  intros Hwf Hv. unfold stored. destruct (Js.is_string v) eqn:Hs.
  - now destruct v.
  - unfold parse_value.
    assert (Ht : stringify v = Some (string_of_list_ascii (stringify_chars v)))
      by (destruct v; try reflexivity; congruence).
    rewrite Ht. cbn [Coerce.to_string]. now rewrite parse_image.
Qed.

(** X11: what [get] answers for a live entry is the JSON image of the value
    that [set] was given, whatever it was: undefined elements of arrays come
    back as null and undefined members of objects are gone.  For the value
    undefined itself nothing readable is written: [get] answers undefined
    and removes the file. *)
Theorem cached_value_is_json_image (fs : FS) now0 now1 key v ttl :
  0 < ttl ->
  now1 <= now0 + ttl * 1000 ->
  (well_formed v = true -> v <> Undefined ->
   get (set fs now0 key v ttl) now1 key
   = (Normal (json_image v), set fs now0 key v ttl)) /\
  (v = Undefined ->
   get (set fs now0 key v ttl) now1 key
   = (Normal Undefined, base.delete (_getFilePath key) (set fs now0 key v ttl))).
Proof.
  intros Hpos Hlive. rewrite set_positive by assumption.
  assert (Hfresh : negb (now0 + ttl * 1000 =? 0) && (now0 + ttl * 1000 <? now1) = false).
  { destruct (Z.ltb_spec (now0 + ttl * 1000) now1); [lia|apply andb_false_r]. }
  split.
  - intros Hwf Hv. unfold get. cbv zeta.
    rewrite (exists_lookup _ _ (entry_text (now0 + ttl * 1000) v))
      by apply lookup_insert_eq.
    cbn [negb].
    rewrite (get_try_entry _ _ _ (now0 + ttl * 1000) v) by
      (apply lookup_insert_eq || assumption).
    now rewrite Hfresh, stored_image.
  - intros ->. unfold get, get_try, Fs.readFileSync, Fs.unlinkSync. cbv zeta.
    rewrite (exists_lookup _ _ (entry_text (now0 + ttl * 1000) Undefined))
      by apply lookup_insert_eq.
    rewrite lookup_insert_eq. cbn [negb].
    unfold entry_text. rewrite (parse_image (entry (now0 + ttl * 1000) Undefined))
      by (reflexivity || discriminate).
    cbn [json_image entry Js.is_string stringify map concat fst snd app Js.prop
         Js.assoc String.eqb Ascii.eqb Bool.eqb default from_option id].
    assert (Hz : strict_neq_0 (Num (now0 + ttl * 1000))
                 = negb (now0 + ttl * 1000 =? 0))
      by (destruct (now0 + ttl * 1000); reflexivity).
    rewrite Hz. cbn [now_gt]. rewrite Hfresh.
    cbn [Js.strict_eq_string String.eqb Ascii.eqb Bool.eqb].
    change (parse_value Undefined) with (@Throw value SyntaxError).
    cbn iota. now rewrite lookup_insert_eq.
Qed.

End WithRuntime.

Lemma cached_value_is_json_image_witness :
  get (H := sample_runtime)
      (set ∅ 1000 "k" (Obj [("a", Arr [Num 1; Undefined]); ("b", Undefined)]) 60)
      2000 "k"
  = (Normal (Obj [("a", Arr [Num 1; Null])]),
     set ∅ 1000 "k" (Obj [("a", Arr [Num 1; Undefined]); ("b", Undefined)]) 60).
Proof.
  apply (cached_value_is_json_image (H := sample_runtime) ∅ 1000 2000 "k"
           (Obj [("a", Arr [Num 1; Undefined]); ("b", Undefined)]) 60);
    (lia || reflexivity || discriminate).
Defined.

End JsonImageFacts.

(** * Sample evaluations *)

Module Examples.
Import Orchestrator FileCacheFacts ProxyFacts ProxyFetchFacts OrchestratorFacts.

(** Test texts are written with an apostrophe where the text has a double
    quote. *)
Fixpoint dq (s : string) : string :=
  match s with
  | EmptyString => EmptyString
  | String c r => String (if Ascii.eqb c "'" then "034"%char else c) (dq r)
  end.

Definition newline : string := String "010" EmptyString.

Example parse_object :
  JSON.parse (dq "{'a': [1, -20, true, null], 'b':'x\nA', 'a':{}}")
  = Some (Obj [("a", Obj []); ("b", Str (String "x" (String "010" "A")))]).
Proof. vm_compute. reflexivity. Qed.

Example stringify_object :
  JSON.stringify (Obj [("a", Arr [Num 1; Undefined; Str (dq "q'\")]);
                       ("u", Undefined); ("z", Num (-5))])
  = Some (dq "{'a':[1,null,'q\'\\'],'z':-5}").
Proof. vm_compute. reflexivity. Qed.

Example parse_refuses :
  map JSON.parse
      [dq "{'a':1,}"; "01"; "1.5"; "[1 2]"; dq "'a"; "nul"; EmptyString; "1 x"]
  = [None; None; None; None; None; None; None; None].
Proof. vm_compute. reflexivity. Qed.

(** Texts that are JSON, of which this development reads the first two
    only; and texts that are not. *)
Example accepts_samples :
  map (fun text => (JSON.accepts text, JSON.parse text))
      ["[1, -20]"; dq "{'n':null}"; "1.5"; "-0.25e+3"; dq "{'expiresAt':1.5e3}";
       dq "'\u1234'"]
  = [(true, Some (Arr [Num 1; Num (-20)])); (true, Some (Obj [("n", Null)]));
     (true, None); (true, None); (true, None); (true, None)] /\
  map JSON.accepts
      [dq "{'a':1,}"; "01"; "1."; "1e"; ".5"; "[1 2]"; dq "'a"; dq "'\u12'";
       "nul"; EmptyString; "1 x"; "{oops"]
  = [false; false; false; false; false; false; false; false; false; false;
     false; false].
Proof. vm_compute. split; reflexivity. Qed.

(** Keys in full: a letter and a surrogate pair, a unit above 255, the
    units of a string of bytes; a surrogate alone, and a pair the wrong way
    round. *)
Example encodeURIComponent_samples :
  map Utf16.encodeURIComponent
      [[107; 55357; 56832]; [8364]; Utf16.units "a b/c"; [55357]; [56832; 55357]]%N
  = [Normal "k%F0%9F%98%80"; Normal "%E2%82%AC"; Normal "a%20b%2Fc";
     Throw URIError; Throw URIError] /\
  FileCache.encodeURIComponent "a b/c" = "a%20b%2Fc".
Proof. vm_compute. split; reflexivity. Qed.

Example parseInt_samples :
  map Coerce.parseInt
      [Str "  0x1f"; Num 1000; Str "12px"; Str "-7"; Str "abc"; Arr [Num 5];
       Undefined]
  = [Some 31; Some 1000; Some 12; Some (-7); None; Some 5; None].
Proof. vm_compute. reflexivity. Qed.

Example env_int_samples :
  map (fun x => Coerce.env_int x 3) [Undefined; Str "0"; Str "5"; Str "-2"; Str "x"]
  = [3; 3; 5; -2; 3].
Proof. vm_compute. reflexivity. Qed.

Example ceil_div_samples :
  map (fun t => Coerce.ceil_div t 500) [0; 1; 500; 501; 1000; 21000]
  = [0; 1; 1; 2; 2; 42].
Proof. vm_compute. reflexivity. Qed.

Example getFilePath_sample :
  FileCache._getFilePath "a b/c" = "./.cache/a%20b%2Fc.cache".
Proof. vm_compute. reflexivity. Qed.

Example entry_text_sample :
  entry_text 5 (Arr [Num 1; Str "x"])
  = dq "{'type':'json','value':'[1,\'x\']','expiresAt':5}".
Proof. vm_compute. reflexivity. Qed.

(** [set] of undefined writes an entry without a value, which the next
    [get] removes. *)
Example set_undefined :
  FileCache.get (H := sample_runtime)
    (FileCache.set ∅ 1000 "k" Undefined 60) 2000 "k"
  = (Normal Undefined, ∅).
Proof. vm_compute. reflexivity. Qed.

(** An undefined array element does not survive the cache. *)
Example set_array_of_undefined :
  (FileCache.get (H := sample_runtime)
     (FileCache.set ∅ 1000 "k" (Arr [Undefined]) 60) 2000 "k").1
  = Normal (Arr [Null]).
Proof. vm_compute. reflexivity. Qed.

(** A store with an entry that has expired, a live one, a file below a
    subdirectory of the cache directory and a file elsewhere. *)
Definition fs_mixed : FS :=
  <["./.cache/sub/x" := "{}"]>
    (<["notes.txt" := "hello"]>
       (FileCache.set (FileCache.set ∅ 0 "old" (Str "x") 1) 5000 "new" (Num 7) 60)).

Example readdirSync_mixed :
  Fs.readdirSync fs_mixed FileCache.cacheDir = ["old.cache"; "sub"; "new.cache"].
Proof. vm_compute. reflexivity. Qed.

(** The subdirectory stops [clear], which has removed one file by then. *)
Example clear_mixed :
  (FileCache.clear fs_mixed).1 = Throw NoEntry /\
  size (FileCache.clear fs_mixed).2 = 3%nat.
Proof. vm_compute. split; reflexivity. Qed.

Example purgeExpired_mixed :
  (map_to_list
     (FileCache.purgeExpired (H := sample_runtime)
        (<[FileCache._getFilePath "bad" := "{oops"]> fs_mixed) 6000)).*1
  = ["notes.txt"; "./.cache/sub/x"; "./.cache/new.cache"; "./.cache/bad.cache"].
Proof. vm_compute. reflexivity. Qed.

Example memory_purge_sample :
  map_to_list
    (MemoryCache.purgeExpired
       (MemoryCache.set (MemoryCache.set MemoryCache.init 0 "a" (Num 1) 1)
                        0 "b" Undefined 60) 2000)
  = [("b", {| MemoryCache.entry_value := Undefined;
              MemoryCache.expiresAt := 60000 |})].
Proof. vm_compute. reflexivity. Qed.

Example rotated_headers_sample :
  (CustomHeaders.getRotatedHeaders 5
     (Obj [("Cookie", Str "s=1"); ("Accept", Str "*/*")])).*1
  = ["User-Agent"; "Accept"; "Accept-Language"; "Accept-Encoding"; "Connection";
     "Upgrade-Insecure-Requests"; "Sec-Fetch-Dest"; "Sec-Fetch-Mode";
     "Sec-Fetch-Site"; "Sec-Fetch-User"; "Cookie"].
Proof. vm_compute. reflexivity. Qed.

(** A listing of three agents in pages of two, and a detail endpoint that
    knows two of them. *)
Definition net_small : Network :=
  {| credential_service := fun _ => Normal sample_pool;
     http_get := fun _ url _ _ =>
       if String.eqb url (buildListUrl 2 0) then
         Normal (Obj [("data", Obj [("totalAgents", Str "3");
                                    ("agent", Arr [Obj [("agentId", Num 10)];
                                                   Obj [("agentId", Num 11)]])])])
       else if String.eqb url (buildListUrl 2 1) then
         Normal (Obj [("data", Obj [("totalAgents", Str "3");
                                    ("agent", Arr [Obj [("agentId", Num 12)]])])])
       else if String.eqb url (buildBioUrl (Num 10)) then
         Normal (Obj [("data", Obj [("name", Str "a")])])
       else if String.eqb url (buildBioUrl (Num 12)) then
         Normal (Obj [("data", Obj [("id", Str "x"); ("name", Str "c")])])
       else Throw (HttpStatus 500);
     elapsed := fun _ => 5;
     random_choice := fun _ => 2%nat |}.

Definition first_run : option (outcome unit * Run) :=
  work (ProxyFetch.fetch (H := sample_runtime) net_small) ProxyFetch.sleep
       60 2 2 5 1000
       {| world := fresh_world; errors := []; bar := 0; attempts := [];
          output := ["old line"] |}.

(** The whole workflow: one credential request and six fetches, one agent
    given up after two attempts, two lines written. *)
Example work_small :
  option_map (fun '(o, r) =>
                (o, errors r, output r, length (attempts r),
                 length (trace (world r)), size (files (world r))))
             first_run
  = Some (Resolved tt,
          ["Failed agent 11 after 2 attempts"],
          [dq "{'id':10,'name':'a'}" +:+ newline;
           dq "{'id':'x','name':'c'}" +:+ newline],
          6%nat, 7%nat, 4%nat).
Proof. vm_compute. reflexivity. Qed.

(** A second run on the files of the first, a second later: the four cached
    responses are served without a request, the failing agent is asked for
    twice more. *)
Example work_small_again :
  option_map (fun '(o, r) =>
                (o, errors r, length (output r), length (attempts r),
                 length (trace (world r))))
             (match first_run with
              | Some (_, r) =>
                  work (ProxyFetch.fetch (H := sample_runtime) net_small)
                       ProxyFetch.sleep 60 2 2 5 1000
                       (set_world (ProxyFetch.sleep 1000 (world r)) r)
              | None => None
              end)
  = Some (Resolved tt, ["Failed agent 11 after 2 attempts"], 2%nat,
          12%nat, 9%nat).
Proof. vm_compute. reflexivity. Qed.

End Examples.
